(** * pyPRIMA: spatial load disaggregation ([generate_load_timeseries])

    A shallow embedding of [generate_load_timeseries] from
    [code/lib/generate_intermediate_files.py] and the properties of the
    sectoral split, the per-unit load table and the subregion aggregation.

    Numbers.  The program computes with IEEE doubles held in pandas and numpy
    containers.  Finite values are modelled by exact rationals ([Qc]), so
    rounding and overflow are idealised away, and the three special values
    that pandas and numpy produce instead of raising (the two infinities and
    NaN) are kept, with the IEEE rules for them.  Signed zeros are not
    distinguished: a zero divisor counts as [+0].

    Libraries.  Where the result depends on how pandas and numpy compute it,
    the model follows pandas 1.5, the last series with the
    [DataFrame.append] that the program calls: the sum of a group in
    [groupby(...).sum()] is compensated (Kahan), so that a group holding an
    infinity followed by another value sums to NaN, the group labels of the
    result are sorted, and numpy broadcasts an array of one element.

    Tables.  A pandas table is a set of labelled cells.  A missing cell reads
    as NaN, a missing label raises [KeyError].  Row and column labels are
    strings, as [read_csv] delivers them; the land-use categories of the
    assumptions table are named by their decimal numerals, on which the
    program's [str(i)] and [int(lu)] are inverse to each other.  Index labels
    of the tables read from disk are taken to be unique. *)

From Stdlib Require Import QArith Qcanon Ascii String.
From stdpp Require Import gmap strings list fin_maps sorting.

Set Default Proof Using "Type".

(** ** Extended numbers *)

Module Num.

Inductive xnum : Type :=
  | Fin (q : Qc)
  | PInf
  | NInf
  | NaN.

#[global] Instance xnum_eq_dec : EqDecision xnum.
Proof. solve_decision. Defined.

#[global] Instance xnum_inhabited : Inhabited xnum := populate NaN.

Definition zero : xnum := Fin 0%Qc.
Definition one : xnum := Fin 1%Qc.

(** A fraction [a/b] as a number ([b] positive). *)
Definition frac (a : Z) (b : positive) : xnum := Fin (Q2Qc (Qmake a b)).
Definition int (a : Z) : xnum := frac a 1.

Definition is_nan (x : xnum) : bool :=
  match x with NaN => true | _ => false end.

Definition is_fin (x : xnum) : bool :=
  match x with Fin _ => true | _ => false end.

Definition is_neg (q : Qc) : bool := bool_decide (q < 0)%Qc.
Definition is_zero (q : Qc) : bool := bool_decide (q = 0%Qc).

(** The infinity with the sign of a non-zero rational. *)
Definition inf_like (q : Qc) : xnum := if is_neg q then NInf else PInf.

Definition xopp (x : xnum) : xnum :=
  match x with
  | Fin q => Fin (- q)%Qc
  | PInf => NInf
  | NInf => PInf
  | NaN => NaN
  end.

Definition xadd (x y : xnum) : xnum :=
  match x, y with
  | NaN, _ | _, NaN => NaN
  | Fin a, Fin b => Fin (a + b)%Qc
  | Fin _, PInf | PInf, Fin _ | PInf, PInf => PInf
  | Fin _, NInf | NInf, Fin _ | NInf, NInf => NInf
  | PInf, NInf | NInf, PInf => NaN
  end.

Definition xmul (x y : xnum) : xnum :=
  match x, y with
  | NaN, _ | _, NaN => NaN
  | Fin a, Fin b => Fin (a * b)%Qc
  | Fin a, PInf | PInf, Fin a => if is_zero a then NaN else inf_like a
  | Fin a, NInf | NInf, Fin a => if is_zero a then NaN else xopp (inf_like a)
  | PInf, PInf | NInf, NInf => PInf
  | PInf, NInf | NInf, PInf => NInf
  end.

(** Division as numpy performs it on doubles: a zero divisor gives an
    infinity, or NaN for [0/0]; nothing is raised. *)
Definition xdiv (x y : xnum) : xnum :=
  match x, y with
  | NaN, _ | _, NaN => NaN
  | Fin a, Fin b =>
      if is_zero b then (if is_zero a then NaN else inf_like a)
      else Fin (a / b)%Qc
  | Fin _, PInf | Fin _, NInf => zero
  | PInf, Fin b => if is_neg b then NInf else PInf
  | NInf, Fin b => if is_neg b then PInf else NInf
  | PInf, PInf | PInf, NInf | NInf, PInf | NInf, NInf => NaN
  end.

(** One step of a pandas [sum]: NaN entries are skipped ([skipna=True]). *)
Definition nanadd (acc v : xnum) : xnum :=
  if is_nan v then acc else xadd acc v.

(** pandas [sum] of a list of cells: starts from 0, skips NaN, and an empty
    or all-NaN list sums to 0 ([min_count=0]). *)
Definition nansum (l : list xnum) : xnum := foldl nanadd zero l.

(** A plain left-to-right sum (numpy [dot], repeated [+]). *)
Definition xsum (l : list xnum) : xnum := foldl xadd zero l.

Definition xsub (x y : xnum) : xnum := xadd x (xopp y).

(** One step of the sum of a group in [groupby(...).sum()] ([group_sum] of
    pandas' [_libs/groupby.pyx]): NaN entries are skipped, the others are
    added with Kahan's compensation.  The state is the running sum and the
    compensation: [y = val - compensation; t = sumx + y;
    compensation = t - sumx - y; sumx = t]. *)
Definition kahan_add (st : xnum * xnum) (v : xnum) : xnum * xnum :=
  if is_nan v then st
  else
    let y := xsub v st.2 in
    let t := xadd st.1 y in
    (t, xsub (xsub t st.1) y).

(** The sum of a group: it starts from 0, and an empty or all-NaN group sums
    to 0 ([min_count=0]). *)
Definition groupsum (l : list xnum) : xnum := (foldl kahan_add (zero, zero) l).1.

End Num.
Export Num.

(** ** Exceptions *)

Inductive exn : Type := KeyError | ValueError | FileNotFoundError.

#[global] Instance exn_eq_dec : EqDecision exn.
Proof. solve_decision. Defined.

Inductive result (A : Type) : Type :=
  | Ok (a : A)
  | Raise (e : exn).
Arguments Ok {A} a.
Arguments Raise {A} e.

#[global] Instance result_eq_dec `{EqDecision A} : EqDecision (result A).
Proof. solve_decision. Defined.

Definition rbind {A B} (m : result A) (k : A → result B) : result B :=
  match m with Ok a => k a | Raise e => Raise e end.

#[global] Instance result_bind : MBind result := λ A B k m, rbind m k.
#[global] Instance result_ret : MRet result := λ A a, Ok a.

(** [try: body except KeyError: handler]. *)
Definition try_except_KeyError {A} (body handler : result A) : result A :=
  match body with
  | Raise KeyError => handler
  | r => r
  end.

(** A [for] loop whose body may raise: the first exception ends the loop. *)
Fixpoint for_each {A S} (l : list A) (body : A → S → result S) (s : S)
  : result S :=
  match l with
  | [] => Ok s
  | x :: l' => s' ← body x s ; for_each l' body s'
  end.

(** ** Series and tables *)

(** A column of hourly values over the range index [0 .. n-1]. *)
Abbreviation Series := (list xnum).

Definition zeros (n : nat) : Series := replicate n zero.

(** [series * x], [x * series], [series / x] with a scalar [x]. *)
Definition smul_scalar (s : Series) (x : xnum) : Series := (λ v, xmul v x) <$> s.
Definition scalar_mul (x : xnum) (s : Series) : Series := xmul x <$> s.
Definition sdiv_scalar (s : Series) (x : xnum) : Series := (λ v, xdiv v x) <$> s.

(** Element-wise operations on two series over the same index. *)
Definition sadd (a b : Series) : Series := zip_with xadd a b.
Definition smul (a b : Series) : Series := zip_with xmul a b.
Definition sdiv (a b : Series) : Series := zip_with xdiv a b.

(** A row of a table (a pandas series) plus a numpy array: numpy broadcasts
    an array of one element, refuses other arrays of another length, and
    pandas refuses a result that is not as long as the row. *)
Definition vadd (a b : Series) : result Series :=
  if decide (length a = length b) then Ok (zip_with xadd a b)
  else
    match b with
    | [x] => Ok ((λ v, xadd v x) <$> a)
    | _ => Raise ValueError
    end.

(** A table of scalars: [loc] raises [KeyError] on an unknown label and reads
    an empty cell as NaN. *)
Record Frame : Type := mkFrame {
  index : list string;
  columns : list string;
  cells : gmap (string * string) xnum
}.

#[global] Instance Frame_eq_dec : EqDecision Frame.
Proof. solve_decision. Defined.

Definition cell (f : Frame) (r c : string) : xnum :=
  default NaN (cells f !! (r, c)).

Definition loc (f : Frame) (r c : string) : result xnum :=
  if decide (r ∈ index f) then
    if decide (c ∈ columns f) then Ok (cell f r c) else Raise KeyError
  else Raise KeyError.

(** A table of series: every series has [hours] entries; the keys are the
    column labels (or, for the tables that hold one series per row, the row
    labels). *)
Record TimeFrame (K : Type) `{Countable K} : Type := mkTimeFrame {
  hours : nat;
  keys : list K;
  series : gmap K Series
}.
Arguments mkTimeFrame {K _ _} _ _ _.
Arguments hours {K _ _} _.
Arguments keys {K _ _} _.
Arguments series {K _ _} _.

#[global] Instance TimeFrame_eq_dec `{Countable K} : EqDecision (TimeFrame K).
Proof. solve_decision. Defined.

Section timeframe.
Context `{Countable K}.

(** [df[k]]: the series under label [k], on the table's own index. *)
Definition tget (f : TimeFrame K) (k : K) : result Series :=
  if decide (k ∈ keys f)
  then Ok (resize (hours f) NaN (default [] (series f !! k)))
  else Raise KeyError.

(** [df[k] = v]: the value is aligned to the table's index; a new label is
    appended. *)
Definition tset (f : TimeFrame K) (k : K) (v : Series) : TimeFrame K :=
  {| hours := hours f;
     keys := if decide (k ∈ keys f) then keys f else keys f ++ [k];
     series := <[k := resize (hours f) NaN v]> (series f) |}.

(** [pd.DataFrame(0, ...)] *)
Definition tzeros (n : nat) (ks : list K) : TimeFrame K :=
  {| hours := n; keys := ks;
     series := gset_to_gmap (zeros n) (list_to_set ks) |}.

(** [df[k] = f(df[k])], the shape of every accumulation loop body. *)
Definition tupdate (k : K) (f : Series → result Series) (df : TimeFrame K)
  : result (TimeFrame K) :=
  cur ← tget df k ; v ← f cur ; Ok (tset df k v).
End timeframe.

(** Hour-wise sum of a group of columns of [n] hours. *)
Definition groupsum_series (n : nat) (cols : list Series) : Series :=
  fst <$> foldl (zip_with kahan_add) (replicate n (zero, zero)) cols.

(** Python's [sorted] on strings. *)
Definition str_le (a b : string) : Prop := String.leb a b = true.
#[global] Instance str_le_dec a b : Decision (str_le a b).
Proof. unfold str_le. apply _. Defined.

Definition sorted (l : list string) : list string := merge_sort str_le l.

(** Python's order on pairs of strings. *)
Definition pair_le (a b : string * string) : Prop :=
  a.1 = b.1 ∧ str_le a.2 b.2 ∨ a.1 ≠ b.1 ∧ str_le a.1 b.1.
#[global] Instance pair_le_dec a b : Decision (pair_le a b).
Proof. unfold pair_le. apply _. Defined.

(** [list(dict.fromkeys(l))]: the distinct values in order of appearance
    ([unique()] of pandas). *)
Definition unique `{EqDecision A} (l : list A) : list A :=
  reverse (remove_dups (reverse l)).

(** A map given by its value at each key of a list. *)
Definition tabulate `{Countable K} {V} (g : K → V) (l : list K) : gmap K V :=
  list_to_map ((λ k, (k, g k)) <$> l).

(** The series under a label that is known to be there. *)
Definition col `{Countable K} (f : TimeFrame K) (k : K) : Series :=
  resize (hours f) NaN (default [] (series f !! k)).

(** [df.groupby(key).sum()] on the labels of a table of series: one series
    per group, the hour-wise sum of the group's members in the order of the
    table; the group labels are sorted by [le]. *)
Definition groupby_sum `{Countable K} `{Countable G}
    (le : relation G) `{∀ x y, Decision (le x y)}
    (key : K → G) (f : TimeFrame K) : TimeFrame G :=
  let gs := merge_sort le (unique (key <$> keys f)) in
  {| hours := hours f;
     keys := gs;
     series := tabulate (λ g,
       groupsum_series (hours f)
         (col f <$> filter (λ k, key k = g) (keys f))) gs |}.

(** [df.sum(axis=0)]: one pandas sum per column. *)
Definition column_sum (f : Frame) (c : string) : xnum :=
  nansum ((λ r, cell f r c) <$> index f).

(** [df[cols]] for labels that are columns of [df]. *)
Definition select_columns (f : Frame) (cols : list string) : Frame :=
  {| index := index f; columns := cols; cells := cells f |}.

(** [df.loc[:, c] = values], one value per row. *)
Definition set_column (f : Frame) (c : string) (g : string → xnum) : Frame :=
  {| index := index f;
     columns := if decide (c ∈ columns f) then columns f else columns f ++ [c];
     cells := foldr (λ r m, <[(r, c) := g r]> m) (cells f) (index f) |}.

(** [df.loc[r]]: a row, as the list of its cells in column order. *)
Definition row (f : Frame) (r : string) : result (list xnum) :=
  if decide (r ∈ index f) then Ok (cell f r <$> columns f) else Raise KeyError.

(** [df.drop(index=i)] *)
Definition drop_row (f : Frame) (i : string) : Frame :=
  {| index := filter (λ r, r ≠ i) (index f);
     columns := columns f; cells := cells f |}.

(** Python's [str.split] on a one-character separator. *)
Fixpoint split_on (sep : ascii) (s : string) : list string :=
  match s with
  | EmptyString => [EmptyString]
  | String a s' =>
      if decide (a = sep) then EmptyString :: split_on sep s'
      else match split_on sep s' with
           | t :: ts => String a t :: ts
           | [] => [String a EmptyString]
           end
  end.

(** ** The program's inputs, files and messages *)

(** [param["load"]] *)
Record LoadParam : Type := mkLoadParam {
  sectors : list string;
  default_sec_shares : string
}.

(** What the function reads: the three csv inputs, and the results of the
    collaborators it calls ([get_sectoral_profiles], and [zonal_stats] on the
    countries and on the country parts of [intersection_subregions_countries],
    each joined with the region names as the function does). *)
Record Inputs : Type := mkInputs {
  load : LoadParam;
  assumptions_landuse : Frame;
  sector_shares_clean : Frame;
  load_ts_clean : TimeFrame string;
  sectoral_profiles : TimeFrame string;
  zonal_stats_countries : Frame;
  zonal_stats_country_parts : Frame
}.

(** The files the function writes and looks for, by their key in [paths];
    [None] is a path at which no file exists. *)
Record Files : Type := mkFiles {
  stats_countries : option Frame;
  df_sector : option (TimeFrame (string * string));
  load_sector : option (list (string * string * xnum));
  load_landuse : option (TimeFrame (string * string));
  stats_country_parts : option Frame;
  load_regions : option (TimeFrame string)
}.

Definition no_files : Files := mkFiles None None None None None None.

(** What the function tells its caller: the warning about sectors, and the
    lines it prints after saving a file. *)
Inductive event : Type :=
  | UserWarning (missing : gset string)
  | Printed (saved : string).

#[global] Instance event_eq_dec : EqDecision event.
Proof. solve_decision. Defined.

Definition is_warning (e : event) : bool :=
  match e with UserWarning _ => true | Printed _ => false end.

(** [pd.read_csv(path)] of one of the function's own files. *)
Definition read_csv {A} (file : option A) : result A :=
  match file with Some t => Ok t | None => Raise FileNotFoundError end.

(** ** Sector land use allocation (lines 183-198) *)

Definition RES : string := "RES".

(** [set(sector_lu.columns).intersection(set(param["load"]["sectors"]))] *)
Definition shared_sectors (assumptions : Frame) (p : LoadParam) : gset string :=
  list_to_set (columns assumptions) ∩ list_to_set (sectors p).

(** The warning of lines 188-192: raised when the shared sectors with [RES]
    added differ from the configured ones, and naming the configured sectors
    that are left. *)
Definition sector_warning (assumptions : Frame) (p : LoadParam) : list event :=
  let shared := shared_sectors assumptions p ∪ {[RES]} in
  let configured : gset string := list_to_set (sectors p) in
  if decide (shared = configured) then []
  else [UserWarning (configured ∖ shared)].

(** [sector_lu[sorted(list(shared_sectors))]] *)
Definition restricted_assumptions (assumptions : Frame) (p : LoadParam) : Frame :=
  select_columns assumptions (sorted (elements (shared_sectors assumptions p))).

(** [landuse_types = [str(i) for i in sector_lu.index]] *)
Definition landuse_types_of (assumptions : Frame) : list string :=
  index assumptions.

(** Line 197: the table is transposed and every cell divided by the sum of
    its sector's column. *)
Definition normalize (sector_lu : Frame) : Frame :=
  {| index := columns sector_lu;
     columns := index sector_lu;
     cells := tabulate (λ '(s, lu), xdiv (cell sector_lu lu s) (column_sum sector_lu s))
                (list_prod (columns sector_lu) (index sector_lu)) |}.

Definition sector_landuse (assumptions : Frame) (p : LoadParam) : Frame :=
  normalize (restricted_assumptions assumptions p).

(** ** Weighting by sector (lines 218-220) *)

(** [np.dot(stat.loc[:, landuse_types], sector_lu.loc[s])], row by row. *)
Definition np_dot (stat : Frame) (landuse_types : list string)
    (w : list xnum) (c : string) : xnum :=
  xsum (zip_with xmul (cell stat c <$> landuse_types) w).

Definition weight_by_sector (sector_lu : Frame) (landuse_types : list string)
    (s : string) (stat : Frame) : result Frame :=
  if decide (Forall (λ lu, lu ∈ columns stat) landuse_types) then
    w ← row sector_lu s;
    Ok (set_column stat s (np_dot stat landuse_types w))
  else Raise KeyError.

(** ** Sectoral load of the countries (lines 222-284) *)

Section sectoral.
Variable p : LoadParam.
Variable sec_share : Frame.
Variable df_load_countries : TimeFrame string.
Variable profiles : TimeFrame string.
Variable sector_lu : Frame.
Variable landuse_types : list string.
Variable stat : Frame.

(** [sec = [str(i) for i in sector_lu.index]] *)
Definition sec : list string := index sector_lu.

(** Lines 242-245: the profile of the sector times the share of the country,
    or, on a [KeyError], times the share of the default country. *)
Definition sector_profile (c s : string) : result Series :=
  try_except_KeyError
    (prof ← tget profiles s; x ← loc sec_share c s; Ok (smul_scalar prof x))
    (prof ← tget profiles s; x ← loc sec_share (default_sec_shares p) s;
     Ok (smul_scalar prof x)).

(** Lines 232-245. *)
Definition copy_profiles : result (TimeFrame (string * string)) :=
  for_each (keys df_load_countries) (λ c df,
    for_each (sectors p) (λ s df,
      v ← sector_profile c s; Ok (tset df (c, s) v)) df)
  (tzeros (hours df_load_countries)
     (list_prod (keys df_load_countries) (sectors p))).

(** Line 252: the column, divided by the hourly sum over the sectors of its
    country and multiplied by the hourly load of the country. *)
Definition rescale_column (df_scaling : TimeFrame string) (c : string)
    (cur : Series) : result Series :=
  scale ← tget df_scaling c;
  total ← tget df_load_countries c;
  Ok (smul (sdiv cur scale) total).

(** Lines 249-252. *)
Definition rescale (df_sectors : TimeFrame (string * string))
  : result (TimeFrame (string * string)) :=
  let df_scaling := groupby_sum str_le fst df_sectors in
  for_each (keys df_load_countries) (λ c df,
    for_each (sec ++ [RES]) (λ s df,
      tupdate (c, s) (rescale_column df_scaling c) df) df)
  df_sectors.

(** Line 255: [df_sectors.sum(axis=0)] *)
Definition yearly_load (df_sectors : TimeFrame (string * string))
  : list (string * string * xnum) :=
  (λ k, (k, nansum (col df_sectors k))) <$> keys df_sectors.

(** Line 260 *)
Definition countries : list string :=
  sorted (elements (list_to_set (index stat) ∩ list_to_set (keys df_load_countries)
                    : gset string)).

(** Line 268 *)
Definition add_residential (df_sectors : TimeFrame (string * string))
    (c : string) (cur : Series) : result Series :=
  d ← tget df_sectors (c, RES);
  n ← loc stat c RES;
  Ok (sadd cur (sdiv_scalar d n)).

(** Line 271 *)
Definition add_sector (df_sectors : TimeFrame (string * string))
    (c lu s : string) (cur : Series) : result Series :=
  w ← loc sector_lu s lu;
  d ← tget df_sectors (c, s);
  n ← loc stat c s;
  Ok (sadd cur (sdiv_scalar (scalar_mul w d) n)).

(** Lines 258-273. *)
Definition per_unit_load (df_sectors : TimeFrame (string * string))
  : result (TimeFrame (string * string)) :=
  for_each countries (λ c ll,
    ll ← tupdate (c, RES) (add_residential df_sectors c) ll;
    for_each landuse_types (λ lu ll,
      for_each sec (λ s ll,
        tupdate (c, lu) (add_sector df_sectors c lu s) ll) ll) ll)
  (tzeros (hours df_sectors) (list_prod countries (landuse_types ++ [RES]))).

Definition sectoral_stage
  : result (TimeFrame (string * string) * list (string * string * xnum)
            * TimeFrame (string * string)) :=
  df ← copy_profiles;
  df_sectors ← rescale df;
  load_landuse ← per_unit_load df_sectors;
  Ok (df_sectors, yearly_load df_sectors, load_landuse).

End sectoral.

(** ** Load of the subregions (lines 310-343) *)

(** The country parts with the attributes the loop of lines 313-316 gives
    them. *)
Record CountryParts : Type := mkCountryParts {
  stat_sub : Frame;
  Region : gmap string string;
  Country : gmap string string
}.

(** Line 314 assigns the tokens of the identifier to the two cells [Region]
    and [Country]; pandas refuses a list of another length with
    [ValueError] ("Must have equal len keys and value when setting with an
    iterable"). *)
Definition assign_region_country (i : string) (parts : CountryParts)
  : result CountryParts :=
  match split_on "_" i with
  | [r; c] =>
      Ok {| stat_sub := stat_sub parts;
            Region := <[i := r]> (Region parts);
            Country := <[i := c]> (Country parts) |}
  | _ => Raise ValueError
  end.

(** Lines 315-316 *)
Definition drop_unknown (known : list string) (i : string) (parts : CountryParts)
  : CountryParts :=
  if decide (default ""%string (Country parts !! i) ∈ known) then parts
  else {| stat_sub := drop_row (stat_sub parts) i;
          Region := Region parts; Country := Country parts |}.

(** [list(df_sectors.columns.get_level_values(0).unique())] *)
Definition known_countries (df_sectors : TimeFrame (string * string))
  : list string :=
  unique (fst <$> keys df_sectors).

(** Lines 311-316; the loop runs over the index as it was before the first
    row is dropped. *)
Definition add_attributes (known : list string) (table : Frame)
  : result CountryParts :=
  for_each (index table) (λ i parts,
    parts ← assign_region_country i parts;
    Ok (drop_unknown known i parts))
  {| stat_sub := table; Region := ∅; Country := ∅ |}.

Section subregions.
Variable landuse_types : list string.
Variable df_sectors : TimeFrame (string * string).
Variable load_landuse : TimeFrame (string * string).
Variable parts : CountryParts.

(** Lines 329-331 and 333-335: the count of the country part in one column
    times the per-unit series of its country in that row. *)
Definition add_units (cp c unit : string) (cur : Series) : result Series :=
  n ← loc (stat_sub parts) cp unit;
  u ← tget load_landuse (c, unit);
  vadd cur (scalar_mul n u).

(** Lines 319-338. *)
Definition country_part_load : result (TimeFrame string) :=
  for_each (index (stat_sub parts)) (λ cp lcp,
    let c := default ""%string (Country parts !! cp) in
    lcp ← tupdate cp (add_units cp c RES) lcp;
    for_each landuse_types (λ lu lcp,
      tupdate cp (add_units cp c lu) lcp) lcp)
  (tzeros (hours df_sectors) (index (stat_sub parts))).

(** The two attributes of a country part. *)
Definition region_country (cp : string) : string * string :=
  (default ""%string (Region parts !! cp), default ""%string (Country parts !! cp)).

(** Lines 341-343: the sum by region and country, and of that by region. *)
Definition aggregate (load_country_part : TimeFrame string) : TimeFrame string :=
  groupby_sum str_le fst (groupby_sum pair_le region_country load_country_part).

End subregions.

Definition subregion_stage (landuse_types : list string)
    (df_sectors load_landuse : TimeFrame (string * string)) (table : Frame)
  : result (TimeFrame string) :=
  parts ← add_attributes (known_countries df_sectors) table;
  lcp ← country_part_load landuse_types df_sectors load_landuse parts;
  Ok (aggregate parts lcp).

(** ** [generate_load_timeseries] *)

(** A table that is computed and saved unless its file exists, and read from
    the file otherwise (lines 210-216 and 296-308). *)
Definition cached (file : option Frame) (compute : Frame) : Frame :=
  match file with
  | None => compute
  | Some t => t
  end.

Definition save_stats_countries (t : Frame) (fs : Files) : Files :=
  mkFiles (Some t) (df_sector fs) (load_sector fs) (load_landuse fs)
    (stats_country_parts fs) (load_regions fs).

Definition save_stats_country_parts (t : Frame) (fs : Files) : Files :=
  mkFiles (stats_countries fs) (df_sector fs) (load_sector fs) (load_landuse fs)
    (Some t) (load_regions fs).

Definition save_load_regions (t : TimeFrame string) (fs : Files) : Files :=
  mkFiles (stats_countries fs) (df_sector fs) (load_sector fs) (load_landuse fs)
    (stats_country_parts fs) (Some t).

Definition save_sectoral
    (tables : TimeFrame (string * string) * list (string * string * xnum)
              * TimeFrame (string * string)) (fs : Files) : Files :=
  mkFiles (stats_countries fs) (Some tables.1.1) (Some tables.1.2)
    (Some tables.2) (stats_country_parts fs) (load_regions fs).

(** Line 222 *)
Definition sectoral_files_exist (fs : Files) : bool :=
  bool_decide (is_Some (df_sector fs)) && bool_decide (is_Some (load_sector fs))
  && bool_decide (is_Some (load_landuse fs)).

(** Lines 222-284: the three tables are computed and saved unless all three
    files exist. *)
Definition sectoral_files (inp : Inputs) (sector_lu : Frame)
    (landuse_types : list string) (stat : Frame) (fs : Files)
  : result (Files * list event) :=
  if sectoral_files_exist fs then Ok (fs, [])
  else
    tables ← sectoral_stage (load inp) (sector_shares_clean inp)
                (load_ts_clean inp) (sectoral_profiles inp)
                sector_lu landuse_types stat;
    Ok (save_sectoral tables fs,
        [Printed "df_sector"; Printed "load_sector"; Printed "load_landuse"]).

Definition generate_load_timeseries (inp : Inputs) (fs : Files)
  : result (Files * list event) :=
  let p := load inp in
  let warnings := sector_warning (assumptions_landuse inp) p in
  let landuse_types := landuse_types_of (restricted_assumptions (assumptions_landuse inp) p) in
  let sector_lu := sector_landuse (assumptions_landuse inp) p in
  let stat := cached (stats_countries fs) (zonal_stats_countries inp) in
  let fs := save_stats_countries stat fs in
  stat ← for_each (sec sector_lu) (weight_by_sector sector_lu landuse_types) stat;
  '(fs, printed) ← sectoral_files inp sector_lu landuse_types stat fs;
  df_sectors ← read_csv (df_sector fs);
  _ ← read_csv (load_sector fs);
  per_unit ← read_csv (load_landuse fs);
  let table := cached (stats_country_parts fs) (zonal_stats_country_parts inp) in
  let fs := save_stats_country_parts table fs in
  regions ← subregion_stage landuse_types df_sectors per_unit table;
  Ok (save_load_regions regions fs,
      warnings ++ printed ++ [Printed "load_regions"]).

(** ** A worked example *)

Module Example.

(** A table from its column labels and its rows. *)
Definition frame (cols : list string) (rows : list (string * list xnum)) : Frame :=
  {| index := rows.*1;
     columns := cols;
     cells := list_to_map
       (r ← rows; (λ cv, ((r.1, cv.1), cv.2)) <$> zip cols r.2) |}.

Definition timeframe `{Countable K} (n : nat) (cols : list (K * Series))
  : TimeFrame K :=
  {| hours := n; keys := cols.*1; series := list_to_map cols |}.

(** Two sectors, one land-use category, one country in one part, two hours. *)
Definition inp : Inputs :=
  {| load := {| sectors := ["IND"; "RES"]; default_sec_shares := "DE" |};
     assumptions_landuse := frame ["IND"; "AGR"] [("1", [int 2; int 1]); ("2", [int 6; int 0])];
     sector_shares_clean := frame ["IND"; "RES"] [("DE", [frac 3 5; frac 2 5])];
     load_ts_clean := timeframe 2 [("AT", [int 100; int 50])];
     sectoral_profiles := timeframe 2 [("IND", [int 1; int 2]); ("RES", [int 1; int 1])];
     zonal_stats_countries := frame ["RES"; "1"; "2"] [("AT", [int 1000; int 10; int 5])];
     zonal_stats_country_parts :=
       frame ["RES"; "1"; "2"]
         [("N_AT", [int 600; int 4; int 5]); ("S_AT", [int 400; int 6; int 0]);
          ("S_XX", [int 7; int 7; int 7])] |}.

Definition out : result (list (string * Series)) :=
  '(fs, _) ← generate_load_timeseries inp no_files;
  regions ← read_csv (load_regions fs);
  Ok ((λ r, (r, col regions r)) <$> keys regions).

End Example.

(** * Proofs *)

(** ** The exception monad *)

Lemma bind_Ok {A B} (m : result A) (k : A → result B) (b : B) :
  (x ← m; k x) = Ok b ↔ ∃ a, m = Ok a ∧ k a = Ok b.
Proof.
  unfold mbind, result_bind, rbind. destruct m as [a|e]; split.
  - eauto.
  - by intros (a' & [= ->] & ?).
  - done.
  - by intros (a' & [=] & ?).
Qed.

(** Splits a hypothesis [(x ← m; k) = Ok b] into its two halves. *)
Ltac inv_bind H :=
  let a := fresh "a" in
  let Ha := fresh "Ha" in
  apply bind_Ok in H as (a & Ha & H).

Lemma for_each_app {A S} (l1 l2 : list A) (body : A → S → result S) (s : S) :
  for_each (l1 ++ l2) body s = (s' ← for_each l1 body s; for_each l2 body s').
Proof.
  revert s. induction l1 as [|x l1 IH]; intros s; simpl; [done|].
  unfold mbind, result_bind, rbind. destruct (body x s); [apply IH|done].
Qed.

Lemma for_each_bind {A B S} (l : list A) (g : A → list B)
    (body : B → S → result S) (s : S) :
  for_each l (λ x s, for_each (g x) body s) s = for_each (l ≫= g) body s.
Proof.
  revert s. induction l as [|x l IH]; intros s; simpl; [done|].
  rewrite for_each_app. unfold mbind, result_bind, rbind.
  destruct (for_each (g x) body s); [apply IH|done].
Qed.

Lemma for_each_fmap {A B S} (l : list A) (g : A → B)
    (body : B → S → result S) (s : S) :
  for_each (g <$> l) body s = for_each l (λ x, body (g x)) s.
Proof.
  revert s. induction l as [|x l IH]; intros s; simpl; [done|].
  unfold mbind, result_bind, rbind. destruct (body (g x) s); [apply IH|done].
Qed.

Lemma for_each_ext {A S} (l : list A) (body1 body2 : A → S → result S) (s : S) :
  (∀ x s, x ∈ l → body1 x s = body2 x s) →
  for_each l body1 s = for_each l body2 s.
Proof.
  revert s. induction l as [|x l IH]; intros s Hext; simpl; [done|].
  rewrite Hext by left. unfold mbind, result_bind, rbind.
  destruct (body2 x s); [|done]. apply IH. intros; apply Hext. by right.
Qed.

(** An invariant of a loop that completes. *)
Lemma for_each_invariant {A S} (P : list A → S → Prop) (l : list A)
    (body : A → S → result S) (s s' : S) :
  P [] s →
  (∀ done x s s', x ∈ l → P done s → body x s = Ok s' → P (done ++ [x]) s') →
  for_each l body s = Ok s' → P l s'.
Proof.
  intros H0 Hstep.
  assert (∀ done rest s, done ++ rest = l → P done s →
            for_each rest body s = Ok s' → P l s') as Hgen.
  { intros done rest. revert done. induction rest as [|x rest IH];
      intros done t Hl HP Hrun; simpl in Hrun.
    - rewrite app_nil_r in Hl. by simplify_eq.
    - inv_bind Hrun. apply (IH (done ++ [x]) a); [by rewrite <-app_assoc| |done].
      eapply Hstep; [|done..]. rewrite <-Hl. apply elem_of_app. right. left. }
  intros. by eapply (Hgen [] l s).
Qed.

(** ** Tables of series *)

Section timeframe_facts.
Context `{Countable K}.
Implicit Types (f : TimeFrame K) (k : K) (v : Series).

Lemma tget_Ok f k v : tget f k = Ok v ↔ k ∈ keys f ∧ v = col f k.
Proof.
  unfold tget, col. case_decide; split.
  - by intros [= <-].
  - by intros [_ ->].
  - done.
  - by intros [? _].
Qed.

Lemma tget_elem f k : k ∈ keys f → tget f k = Ok (col f k).
Proof. intros. by apply tget_Ok. Qed.

Lemma length_col f k : length (col f k) = hours f.
Proof. apply length_resize. Qed.

Lemma hours_tset f k v : hours (tset f k v) = hours f.
Proof. done. Qed.

Lemma keys_tset_elem f k v : k ∈ keys f → keys (tset f k v) = keys f.
Proof. intros. unfold tset; simpl. by case_decide. Qed.

Lemma elem_keys_tset f k k' v : k' ∈ keys (tset f k v) ↔ k' = k ∨ k' ∈ keys f.
Proof.
  unfold tset; simpl. case_decide.
  - split; [by right|]. by intros [->|?].
  - rewrite elem_of_app, list_elem_of_singleton. tauto.
Qed.

Lemma col_tset_eq f k v : col (tset f k v) k = resize (hours f) NaN v.
Proof.
  unfold col, tset; simpl. rewrite lookup_insert_eq; simpl.
  apply resize_all_alt. by rewrite length_resize.
Qed.

Lemma col_tset_ne f k k' v : k ≠ k' → col (tset f k v) k' = col f k'.
Proof. intros. unfold col, tset; simpl. by rewrite lookup_insert_ne. Qed.

Lemma col_tzeros n (ks : list K) k : k ∈ ks → col (tzeros n ks) k = zeros n.
Proof.
  intros Hk. unfold col, tzeros; simpl.
  rewrite lookup_gset_to_gmap, option_guard_True by by apply elem_of_list_to_set.
  simpl. apply resize_all_alt. unfold zeros. by rewrite length_replicate.
Qed.

Lemma tupdate_Ok k (g : Series → result Series) f f' :
  tupdate k g f = Ok f' ↔
  k ∈ keys f ∧ ∃ v, g (col f k) = Ok v ∧ f' = tset f k v.
Proof.
  unfold tupdate. rewrite bind_Ok. setoid_rewrite bind_Ok.
  setoid_rewrite tget_Ok. split; [intros (?&[??]&?&?&?)|intros (?&?&?&?)]; simplify_eq; eauto 10.
Qed.

End timeframe_facts.

Lemma lookup_tabulate `{Countable K} {V} (g : K → V) (l : list K) (k : K) :
  tabulate g l !! k = if decide (k ∈ l) then Some (g k) else None.
Proof.
  unfold tabulate. induction l as [|x l IH].
  - done.
  - rewrite fmap_cons, list_to_map_cons, lookup_insert.
    destruct (decide (x = k)) as [->|Hne].
    + by rewrite decide_True by left.
    + rewrite IH. destruct (decide (k ∈ l)).
      * by rewrite decide_True by by right.
      * rewrite decide_False; [done|]. by intros [->|?]%elem_of_cons.
Qed.

(** ** Arithmetic on finite values *)

(** Decides a closed statement by evaluation. *)
Ltac by_evaluation := apply (bool_decide_unpack _); vm_compute; exact I.

(** Closes a goal under the hypothesis that a closed run raises, when its
    evaluation completes. *)
Ltac run_completes H :=
  exfalso;
  match type of H with
  | ?m = Raise _ =>
      let Hok := fresh "Hok" in
      assert (match m with Ok _ => True | Raise _ => False end) as Hok
        by (vm_compute; exact I);
      rewrite H in Hok; exact Hok
  end.

Definition qval (x : xnum) : Qc :=
  match x with Fin q => q | _ => 0%Qc end.

Definition qsum (l : list Qc) : Qc := foldr Qcplus 0%Qc l.

Lemma fin_qval (x : xnum) : is_fin x → x = Fin (qval x).
Proof. by destruct x. Qed.

Lemma is_zero_false (q : Qc) : q ≠ 0%Qc → is_zero q = false.
Proof. intros. unfold is_zero. by apply bool_decide_eq_false. Qed.

Lemma xdiv_fin (a b : Qc) : b ≠ 0%Qc → xdiv (Fin a) (Fin b) = Fin (a / b)%Qc.
Proof. intros. simpl. by rewrite is_zero_false. Qed.


Lemma xadd_zero_r (x : xnum) : xadd x zero = x.
Proof. destruct x; try done. simpl. f_equal. ring. Qed.

Lemma fins_qvals (l : list xnum) :
  Forall (λ x, is_fin x) l → l = Fin <$> (qval <$> l).
Proof.
  induction 1 as [|x l Hx _ IH]; [done|].
  rewrite !fmap_cons. by rewrite <-IH, <-fin_qval.
Qed.

Lemma foldl_xadd_fin (a : Qc) (l : list Qc) :
  foldl xadd (Fin a) (Fin <$> l) = Fin (a + qsum l)%Qc.
Proof.
  revert a. induction l as [|q l IH]; intros a; simpl.
  - f_equal. ring.
  - rewrite IH. f_equal. ring.
Qed.

Lemma xsum_fin (l : list Qc) : xsum (Fin <$> l) = Fin (qsum l).
Proof. unfold xsum, zero. rewrite foldl_xadd_fin. f_equal. ring. Qed.

Lemma foldl_nanadd_fin (x : xnum) (l : list Qc) :
  foldl nanadd x (Fin <$> l) = foldl xadd x (Fin <$> l).
Proof. revert x. induction l as [|q l IH]; intros x; simpl; [done|apply IH]. Qed.

Lemma nansum_fin (l : list Qc) : nansum (Fin <$> l) = Fin (qsum l).
Proof. unfold nansum. rewrite foldl_nanadd_fin. apply xsum_fin. Qed.


Lemma qsum_scale {A} (f : A → Qc) (c : Qc) (l : list A) :
  qsum ((λ x, f x * c)%Qc <$> l) = (qsum (f <$> l) * c)%Qc.
Proof. induction l as [|x l IH]; csimpl; [ring|]. rewrite IH. ring. Qed.

Lemma qsum_ext {A} (f g : A → Qc) (l : list A) :
  (∀ x, x ∈ l → f x = g x) → qsum (f <$> l) = qsum (g <$> l).
Proof.
  induction l as [|x l IH]; intros Hfg; csimpl; [done|].
  rewrite Hfg by left. f_equal. apply IH. intros; apply Hfg. by right.
Qed.

Lemma qsum_plus {A} (f g : A → Qc) (l : list A) :
  qsum ((λ x, f x + g x)%Qc <$> l) = (qsum (f <$> l) + qsum (g <$> l))%Qc.
Proof. induction l as [|x l IH]; csimpl; [ring|]. rewrite IH. ring. Qed.

Lemma qsum_zero {A} (l : list A) : qsum ((λ _, 0%Qc) <$> l) = 0%Qc.
Proof. induction l as [|x l IH]; csimpl; [done|]. rewrite IH. ring. Qed.

Lemma qsum_swap {A B} (f : A → B → Qc) (la : list A) (lb : list B) :
  qsum ((λ a, qsum (f a <$> lb)) <$> la)
  = qsum ((λ b, qsum ((λ a, f a b) <$> la)) <$> lb).
Proof.
  induction la as [|a la IH]; csimpl.
  - by rewrite qsum_zero.
  - by rewrite IH, qsum_plus.
Qed.


(** A sum split by the value of a key: every element is counted in the
    group of its own key. *)
Lemma qsum_groups {A} `{EqDecision G} (key : A → G) (f : A → Qc)
    (groups : list G) (l : list A) :
  NoDup groups → (∀ x, x ∈ l → key x ∈ groups) →
  qsum ((λ g, qsum (f <$> filter (λ x, key x = g) l)) <$> groups)
  = qsum (f <$> l).
Proof.
  intros Hnd. induction l as [|x l IH]; intros Hin; csimpl.
  - apply qsum_zero.
  - rewrite <-IH by (intros; apply Hin; by right).
    assert (key x ∈ groups) as Hx by (apply Hin; left).
    clear IH Hin. induction Hnd as [|g groups Hg Hnd IH]; [by apply elem_of_nil in Hx|].
    csimpl. rewrite filter_cons. destruct (decide (key x = g)) as [<-|Hne].
    + csimpl. rewrite (qsum_ext _ (λ g, qsum (f <$> filter (λ y, key y = g) l)) groups).
      * ring.
      * intros g Hg'. rewrite filter_cons, decide_False; [done|]. by intros <-.
    + apply elem_of_cons in Hx as [?|Hx]; [done|]. rewrite IH by done. ring.
Qed.

(** ** Python's [sorted] and [unique] *)

Lemma elem_of_sorted (l : list string) (s : string) : s ∈ sorted l ↔ s ∈ l.
Proof. unfold sorted. by rewrite merge_sort_Permutation. Qed.

Lemma sorted_Permutation (l : list string) : sorted l ≡ₚ l.
Proof. apply merge_sort_Permutation. Qed.

Lemma NoDup_sorted (l : list string) : NoDup l → NoDup (sorted l).
Proof. unfold sorted. by rewrite merge_sort_Permutation. Qed.

Lemma remove_dups_NoDup `{EqDecision A} (l : list A) : NoDup l → remove_dups l = l.
Proof.
  induction 1 as [|x l Hx _ IH]; simpl; [done|].
  destruct (decide_rel elem_of x l); [done|by rewrite IH].
Qed.

Lemma NoDup_reverse {A} (l : list A) : NoDup l → NoDup (reverse l).
Proof. intros. by rewrite reverse_Permutation. Qed.

Lemma unique_NoDup `{EqDecision A} (l : list A) : NoDup l → unique l = l.
Proof.
  intros. unfold unique. rewrite remove_dups_NoDup by by apply NoDup_reverse.
  apply reverse_involutive.
Qed.

Lemma elem_of_unique `{EqDecision A} (l : list A) (x : A) : x ∈ unique l ↔ x ∈ l.
Proof. unfold unique. by rewrite elem_of_reverse, elem_of_remove_dups, elem_of_reverse. Qed.

Lemma NoDup_unique `{EqDecision A} (l : list A) : NoDup (unique l).
Proof. unfold unique. apply NoDup_reverse, NoDup_remove_dups. Qed.

Lemma elem_of_list_prod {A B} (l : list A) (k : list B) (x : A) (y : B) :
  (x, y) ∈ list_prod l k ↔ x ∈ l ∧ y ∈ k.
Proof. rewrite !list_elem_of_In. apply in_prod_iff. Qed.

(** ** Sector land use allocation *)

Lemma elem_of_sec_sector_landuse (a : Frame) (p : LoadParam) (s : string) :
  s ∈ sec (sector_landuse a p) ↔ s ∈ columns a ∧ s ∈ sectors p.
Proof.
  unfold sec, sector_landuse, normalize, restricted_assumptions, shared_sectors; simpl.
  rewrite elem_of_sorted, elem_of_elements, elem_of_intersection.
  by rewrite !elem_of_list_to_set.
Qed.

Lemma NoDup_sec_sector_landuse (a : Frame) (p : LoadParam) :
  NoDup (sec (sector_landuse a p)).
Proof. apply NoDup_sorted, NoDup_elements. Qed.

Lemma loc_sector_landuse (a : Frame) (p : LoadParam) (s lu : string) :
  s ∈ sec (sector_landuse a p) → lu ∈ index a →
  loc (sector_landuse a p) s lu = Ok (xdiv (cell a lu s) (column_sum a s)).
Proof.
  intros Hs Hlu. unfold loc. rewrite decide_True by done.
  rewrite decide_True by done. f_equal.
  unfold cell at 1. unfold sector_landuse, normalize; simpl.
  rewrite lookup_tabulate, decide_True; [done|].
  apply elem_of_list_prod. split; [apply Hs|done].
Qed.

Lemma cell_sector_landuse (a : Frame) (p : LoadParam) (s lu : string) :
  s ∈ sec (sector_landuse a p) → lu ∈ index a →
  cell (sector_landuse a p) s lu = xdiv (cell a lu s) (column_sum a s).
Proof.
  intros Hs Hlu. pose proof (loc_sector_landuse a p s lu Hs Hlu) as Hloc.
  unfold loc in Hloc. repeat case_decide; by simplify_eq.
Qed.

(** C5, as amended: every cell of the normalised table is the coefficient of
    the assumptions table divided by the (pandas) sum of its sector's column,
    and where the coefficients of a sector are finite and their sum is not
    zero, the weights of the sector over the land-use categories sum to 1. *)
Theorem C5_weights_sum_to_one (a : Frame) (p : LoadParam) (s : string) :
  s ∈ sec (sector_landuse a p) →
  (∀ lu, lu ∈ index a → is_fin (cell a lu s)) →
  column_sum a s ≠ zero →
  (∀ lu, lu ∈ index a →
     loc (sector_landuse a p) s lu = Ok (xdiv (cell a lu s) (column_sum a s)))
  ∧ xsum ((λ lu, cell (sector_landuse a p) s lu)
            <$> landuse_types_of (restricted_assumptions a p)) = one.
Proof.
  intros Hs Hfin Hsum. split; [intros; by apply loc_sector_landuse|].
  unfold landuse_types_of, restricted_assumptions; simpl.
  assert (Forall (λ x, is_fin x) ((λ r, cell a r s) <$> index a)) as Hall.
  { apply Forall_fmap, Forall_forall. intros lu Hlu. by apply Hfin. }
  apply fins_qvals in Hall.
  unfold column_sum in Hsum.
  rewrite (list_fmap_ext _ (λ lu, xdiv (cell a lu s) (column_sum a s)) (index a))
    by (intros i lu Hlu%list_elem_of_lookup_2; by apply cell_sector_landuse).
  unfold column_sum. rewrite Hall in Hsum |- *. rewrite nansum_fin in Hsum |- *.
  set (S := qsum (qval <$> ((λ r, cell a r s) <$> index a))) in *.
  assert (S ≠ 0%Qc) as HS by (intros HS; apply Hsum; unfold zero; by rewrite HS).
  rewrite (list_fmap_ext _ (λ lu, Fin (qval (cell a lu s) / S)%Qc) (index a)).
  2:{ intros i lu Hlu. apply list_elem_of_lookup_2 in Hlu.
      rewrite (fin_qval (cell a lu s)) at 1 by by apply Hfin. by apply xdiv_fin. }
  rewrite (list_fmap_compose (λ lu, (qval (cell a lu s) / S)%Qc) Fin), xsum_fin.
  unfold one. f_equal.
  rewrite (qsum_ext _ (λ lu, qval (cell a lu s) * / S)%Qc) by done.
  rewrite (qsum_scale (λ lu, qval (cell a lu s)) (/ S)%Qc).
  replace (qsum ((λ lu, qval (cell a lu s)) <$> index a)) with S.
  - by apply Qcmult_inv_r.
  - unfold S. by rewrite <-list_fmap_compose.
Qed.

Module C5_example.

Definition a : Frame :=
  Example.frame ["IND"; "COM"]
    [("1", [int 2; int 0]); ("2", [int 6; int 0])].

Definition p : LoadParam :=
  {| sectors := ["IND"; "COM"; "RES"]; default_sec_shares := "DE" |}.

End C5_example.

Lemma C5_weights_sum_to_one_witness :
  ("IND":string) ∈ sec (sector_landuse C5_example.a C5_example.p)
  ∧ xsum ((λ lu, cell (sector_landuse C5_example.a C5_example.p) "IND" lu)
            <$> landuse_types_of (restricted_assumptions C5_example.a C5_example.p)) = one.
Proof.
  assert (("IND":string) ∈ sec (sector_landuse C5_example.a C5_example.p)) as Hs
    by by_evaluation.
  split; [done|].
  apply (C5_weights_sum_to_one C5_example.a C5_example.p "IND" Hs).
  - intros lu Hlu.
    assert (lu = "1" ∨ lu = "2") as [-> | ->]
      by (change (lu ∈ ["1"; "2"]%string) in Hlu;
          revert Hlu; rewrite !elem_of_cons, elem_of_nil; tauto);
      by vm_compute.
  - by_evaluation.
Defined.

(** C5 as stated fails for a sector whose coefficients are all zero: the
    column sum is 0, every weight is [0/0], and the weights do not sum to 1. *)
Lemma C5_zero_column_counterexample :
  ("COM":string) ∈ sec (sector_landuse C5_example.a C5_example.p)
  ∧ loc (sector_landuse C5_example.a C5_example.p) "COM" "1" = Ok NaN
  ∧ xsum ((λ lu, cell (sector_landuse C5_example.a C5_example.p) "COM" lu)
            <$> landuse_types_of (restricted_assumptions C5_example.a C5_example.p))
    ≠ one.
Proof. split_and!; by_evaluation. Qed.

(** ** The warning about sectors *)

(** Every run that completes reports the events of [sector_warning] first. *)
Lemma generate_log (inp : Inputs) (fs fs' : Files) (log : list event) :
  generate_load_timeseries inp fs = Ok (fs', log) →
  ∃ printed, log = sector_warning (assumptions_landuse inp) (load inp) ++ printed
             ∧ Forall (λ e, is_warning e = false) printed.
Proof.
  unfold generate_load_timeseries. intros Hrun.
  inv_bind Hrun. inv_bind Hrun. destruct a0 as [fs1 printed].
  do 4 inv_bind Hrun. injection Hrun as <- <-.
  eexists. split; [done|].
  apply Forall_app. split; [|by repeat constructor].
  unfold sectoral_files in Ha0. destruct (sectoral_files_exist _).
  - injection Ha0 as <- <-. constructor.
  - inv_bind Ha0. injection Ha0 as <- <-. by repeat constructor.
Qed.


Module C7_example.

(** The sector [TRA] is configured but is no column of the assumptions. *)
Definition inp : Inputs :=
  {| load := {| sectors := ["IND"; "TRA"; "RES"]; default_sec_shares := "DE" |};
     assumptions_landuse := assumptions_landuse Example.inp;
     sector_shares_clean :=
       Example.frame ["IND"; "TRA"; "RES"] [("DE", [frac 1 2; frac 1 4; frac 1 4])];
     load_ts_clean := load_ts_clean Example.inp;
     sectoral_profiles :=
       Example.timeframe 2
         [("IND", [int 1; int 2]); ("TRA", [int 1; int 1]); ("RES", [int 1; int 1])];
     zonal_stats_countries := zonal_stats_countries Example.inp;
     zonal_stats_country_parts := zonal_stats_country_parts Example.inp |}.

End C7_example.


(** ** The shares of the default country *)

Lemma loc_Ok (f : Frame) (r c : string) (x : xnum) :
  loc f r c = Ok x ↔ r ∈ index f ∧ c ∈ columns f ∧ x = cell f r c.
Proof.
  unfold loc. repeat case_decide; split; try done.
  - by intros [= <-].
  - by intros (_ & _ & ->).
  - by intros (_ & ? & _).
  - by intros (? & _).
Qed.

Lemma loc_KeyError (f : Frame) (r c : string) (e : exn) :
  loc f r c = Raise e → e = KeyError ∧ (r ∉ index f ∨ c ∉ columns f).
Proof. unfold loc. repeat case_decide; intros [=]; subst; auto. Qed.

Lemma tget_Raise `{Countable K} (f : TimeFrame K) (k : K) (e : exn) :
  tget f k = Raise e → e = KeyError ∧ k ∉ keys f.
Proof. unfold tget. case_decide; intros [=]; subst; auto. Qed.

(** Lines 242-245 for a country that has no row in the table of shares. *)
Lemma sector_profile_absent (p : LoadParam) (sec_share : Frame)
    (profiles : TimeFrame string) (c s : string) :
  c ∉ index sec_share →
  sector_profile p sec_share profiles c s
  = (prof ← tget profiles s; x ← loc sec_share (default_sec_shares p) s;
     Ok (smul_scalar prof x)).
Proof.
  intros Hc. unfold sector_profile.
  destruct (tget profiles s) as [prof|e] eqn:Hprof; simpl.
  - unfold loc at 1. by rewrite decide_False.
  - by apply tget_Raise in Hprof as [-> _].
Qed.

(** Lines 242-245 for a country that has a row in the table of shares. *)
Lemma sector_profile_present (p : LoadParam) (sec_share : Frame)
    (profiles : TimeFrame string) (c s : string) (v : Series) :
  c ∈ index sec_share →
  sector_profile p sec_share profiles c s = Ok v →
  s ∈ columns sec_share ∧ s ∈ keys profiles
  ∧ v = smul_scalar (col profiles s) (cell sec_share c s).
Proof.
  intros Hc. unfold sector_profile.
  destruct (tget profiles s) as [prof|e] eqn:Hprof; simpl.
  - apply tget_Ok in Hprof as [Hs ->].
    destruct (loc sec_share c s) as [x|e] eqn:Hloc; simpl.
    + apply loc_Ok in Hloc as (_ & ? & ->). by intros [= <-].
    + apply loc_KeyError in Hloc as [-> [?|Hs']]; [done|].
      unfold loc. case_decide; [|done]. by rewrite decide_False.
  - apply tget_Raise in Hprof as [-> _]. done.
Qed.

(** The table after the loop of lines 240-245. *)
Lemma copy_profiles_col (p : LoadParam) (sec_share : Frame)
    (df_load_countries profiles : TimeFrame string)
    (df : TimeFrame (string * string)) :
  copy_profiles p sec_share df_load_countries profiles = Ok df →
  hours df = hours df_load_countries
  ∧ keys df = list_prod (keys df_load_countries) (sectors p)
  ∧ ∀ c s, c ∈ keys df_load_countries → s ∈ sectors p →
      ∃ v, sector_profile p sec_share profiles c s = Ok v
           ∧ col df (c, s) = resize (hours df_load_countries) NaN v.
Proof.
  unfold copy_profiles.
  set (df0 := tzeros _ _).
  set (body := λ (c : string) (df : TimeFrame (string * string)), for_each _ _ df).
  intros Hrun.
  pose (P := λ (past : list string) (df : TimeFrame (string * string)),
    hours df = hours df0 ∧ keys df = keys df0
    ∧ ∀ c s, c ∈ past → s ∈ sectors p →
        ∃ v, sector_profile p sec_share profiles c s = Ok v
             ∧ col df (c, s) = resize (hours df0) NaN v).
  cut (P (keys df_load_countries) df); [intros (?&?&?); by split_and!|].
  apply (for_each_invariant P _ body df0); [|clear df Hrun|done].
  { split_and!; [done..|]. by intros c s ?%elem_of_nil. }
  intros past c df df' Hc (Hh & Hk & Hdone) Hbody. subst body; simpl in Hbody.
  pose (Q := λ (seen : list string) (df1 : TimeFrame (string * string)),
    hours df1 = hours df0 ∧ keys df1 = keys df0
    ∧ (∀ c' s, c' ∈ past → s ∈ sectors p →
        ∃ v, sector_profile p sec_share profiles c' s = Ok v
             ∧ col df1 (c', s) = resize (hours df0) NaN v)
    ∧ ∀ s, s ∈ seen →
        ∃ v, sector_profile p sec_share profiles c s = Ok v
             ∧ col df1 (c, s) = resize (hours df0) NaN v).
  cut (Q (sectors p) df').
  { intros (?&?&Hold&Hnew). split_and!; [done..|].
    intros c' s [?|Heq%list_elem_of_singleton]%elem_of_app ?; subst; auto. }
  eapply (for_each_invariant Q); [| |exact Hbody].
  { split_and!; [done..|]. by intros s ?%elem_of_nil. }
  clear df' Hbody. intros seen s df1 df2 Hs (Hh1 & Hk1 & Hold & Hnew) Hstep.
  inv_bind Hstep. injection Hstep as <-.
  assert ((c, s) ∈ keys df1) as Hin.
  { rewrite Hk1. subst df0; simpl. by apply elem_of_list_prod. }
  split_and!.
  - by rewrite hours_tset.
  - by rewrite keys_tset_elem.
  - intros c' s' Hc' Hs'. destruct (decide ((c, s) = (c', s'))) as [[= <- <-]|Hne].
    + exists a. split; [done|]. by rewrite col_tset_eq, Hh1.
    + rewrite col_tset_ne by done. by apply Hold.
  - intros s' [Hs'|Heq%list_elem_of_singleton]%elem_of_app; subst.
    + destruct (decide (s = s')) as [->|Hne].
      * exists a. split; [done|]. by rewrite col_tset_eq, Hh1.
      * rewrite col_tset_ne by congruence. by apply Hnew.
    + exists a. split; [done|]. by rewrite col_tset_eq, Hh1.
Qed.

(** C8: for a country without a row in the table of shares the loop of
    lines 240-245 takes the shares of the configured default country (and
    completes when the default country has them), for a country with a row
    it takes the country's own shares; and the table the loop leaves holds,
    for every country of the load table and every configured sector, the
    profile of the sector times that share. *)
Theorem C8_default_country_shares (p : LoadParam) (sec_share : Frame)
    (df_load_countries profiles : TimeFrame string) :
  (∀ c s, c ∉ index sec_share →
     default_sec_shares p ∈ index sec_share → s ∈ columns sec_share →
     s ∈ keys profiles →
     sector_profile p sec_share profiles c s
     = Ok (smul_scalar (col profiles s) (cell sec_share (default_sec_shares p) s)))
  ∧ (∀ c s v, c ∈ index sec_share →
       sector_profile p sec_share profiles c s = Ok v →
       v = smul_scalar (col profiles s) (cell sec_share c s))
  ∧ (∀ df, copy_profiles p sec_share df_load_countries profiles = Ok df →
       ∀ c s, c ∈ keys df_load_countries → s ∈ sectors p →
         let shares_of :=
           if decide (c ∈ index sec_share) then c else default_sec_shares p in
         shares_of ∈ index sec_share
         ∧ col df (c, s)
           = resize (hours df_load_countries) NaN
               (smul_scalar (col profiles s) (cell sec_share shares_of s))).
Proof.
  split_and!.
  - intros c s Hc Hd Hs Hprof. rewrite sector_profile_absent by done.
    rewrite tget_elem by done. simpl.
    unfold loc. by rewrite !decide_True by done.
  - intros c s v Hc Hv. by apply sector_profile_present in Hv as (_ & _ & ->).
  - intros df Hdf c s Hc Hs. simpl.
    apply copy_profiles_col in Hdf as (_ & _ & Hcol).
    destruct (Hcol c s Hc Hs) as (v & Hv & ->).
    case_decide as Hin.
    + split; [done|]. by apply sector_profile_present in Hv as (_ & _ & ->).
    + rewrite sector_profile_absent in Hv by done.
      inv_bind Hv. inv_bind Hv. injection Hv as <-.
      apply tget_Ok in Ha as [_ ->]. by apply loc_Ok in Ha0 as (? & _ & ->).
Qed.

Lemma C8_default_country_shares_witness :
  (("AT":string) ∉ index (sector_shares_clean Example.inp))
  ∧ sector_profile (load Example.inp) (sector_shares_clean Example.inp)
      (sectoral_profiles Example.inp) "AT" "IND"
    = Ok (smul_scalar (col (sectoral_profiles Example.inp) "IND")
            (cell (sector_shares_clean Example.inp) "DE" "IND")).
Proof.
  assert (("AT":string) ∉ index (sector_shares_clean Example.inp)) as Habsent
    by by_evaluation.
  split; [done|].
  apply (proj1 (C8_default_country_shares (load Example.inp)
                  (sector_shares_clean Example.inp) (load_ts_clean Example.inp)
                  (sectoral_profiles Example.inp)) "AT" "IND" Habsent);
    by_evaluation.
Defined.

Lemma filter_ext_in {A} (P Q : A → Prop) `{∀ x, Decision (P x)}
    `{∀ x, Decision (Q x)} (l : list A) :
  (∀ x, x ∈ l → P x ↔ Q x) → filter P l = filter Q l.
Proof.
  induction l as [|x l IH]; intros Hext; [done|].
  rewrite !filter_cons, IH by (intros; apply Hext; by right).
  destruct (decide (P x)) as [HP|HP], (decide (Q x)) as [HQ|HQ]; try done;
    exfalso; apply (Hext x) in HP || apply (Hext x) in HQ; done || by left.
Qed.

Lemma filter_all {A} (P : A → Prop) `{∀ x, Decision (P x)} (l : list A) :
  (∀ x, x ∈ l → P x) → filter P l = l.
Proof.
  induction l as [|x l IH]; intros Hall; [done|].
  rewrite filter_cons, decide_True by (apply Hall; left).
  f_equal. apply IH. intros; apply Hall. by right.
Qed.

(** ** The identifiers of the country parts *)

(** The number of occurrences of a character in a string. *)
Fixpoint count_char (sep : ascii) (s : string) : nat :=
  match s with
  | EmptyString => 0
  | String a s' => (if decide (a = sep) then 1 else 0) + count_char sep s'
  end.

(** The two tokens of an identifier [region_country]. *)
Definition region_of (i : string) : string :=
  default ""%string (split_on "_" i !! 0).
Definition country_of (i : string) : string :=
  default ""%string (split_on "_" i !! 1).

Lemma length_split_on (sep : ascii) (s : string) :
  length (split_on sep s) = S (count_char sep s).
Proof.
  induction s as [|a s IH]; simpl; [done|].
  case_decide; simpl; [by rewrite IH|].
  destruct (split_on sep s); simpl in *; lia.
Qed.

Lemma split_on_two (i : string) :
  length (split_on "_" i) = 2 → split_on "_" i = [region_of i; country_of i].
Proof.
  unfold region_of, country_of.
  destruct (split_on "_" i) as [|r [|c [|??]]]; by intros [=].
Qed.

Lemma assign_region_country_Ok (i : string) (parts parts' : CountryParts) :
  assign_region_country i parts = Ok parts' ↔
  length (split_on "_" i) = 2
  ∧ parts' = {| stat_sub := stat_sub parts;
                Region := <[i := region_of i]> (Region parts);
                Country := <[i := country_of i]> (Country parts) |}.
Proof.
  unfold assign_region_country, region_of, country_of.
  destruct (split_on "_" i) as [|r [|c [|??]]]; simpl; split;
    try done; try (by intros [[=] _]).
  - by intros [= <-].
  - by intros [_ ->].
Qed.

Lemma assign_region_country_Raise (i : string) (parts : CountryParts) (e : exn) :
  assign_region_country i parts = Raise e → e = ValueError.
Proof.
  unfold assign_region_country.
  destruct (split_on "_" i) as [|r [|c [|??]]]; by intros [=].
Qed.

(** The loop of lines 313-316 raises nothing but [ValueError]. *)
Lemma add_attributes_Raise (known : list string) (table : Frame) (e : exn) :
  add_attributes known table = Raise e → e = ValueError.
Proof.
  unfold add_attributes. generalize (mkCountryParts table ∅ ∅).
  induction (index table) as [|i l IH]; intros parts; simpl; [done|].
  destruct (assign_region_country i parts) as [parts1|e1] eqn:Hi; simpl.
  - apply IH.
  - intros [= <-]. by apply assign_region_country_Raise in Hi.
Qed.

(** What the loop of lines 313-316 leaves when it completes: the rows whose
    second token is a known country, and the two tokens of every identifier
    as its attributes. *)
Lemma add_attributes_Ok (known : list string) (table : Frame) (parts : CountryParts) :
  add_attributes known table = Ok parts →
  (∀ i, i ∈ index table → length (split_on "_" i) = 2)
  ∧ index (stat_sub parts) = filter (λ i, country_of i ∈ known) (index table)
  ∧ columns (stat_sub parts) = columns table
  ∧ cells (stat_sub parts) = cells table
  ∧ (∀ i, i ∈ index table → Region parts !! i = Some (region_of i)
                             ∧ Country parts !! i = Some (country_of i)).
Proof.
  unfold add_attributes. intros Hrun.
  pose (P := λ (past : list string) (ps : CountryParts),
    (∀ i, i ∈ past → length (split_on "_" i) = 2)
    ∧ index (stat_sub ps)
      = filter (λ i, ¬ (i ∈ past ∧ country_of i ∉ known)) (index table)
    ∧ columns (stat_sub ps) = columns table
    ∧ cells (stat_sub ps) = cells table
    ∧ (∀ i, i ∈ past → Region ps !! i = Some (region_of i)
                        ∧ Country ps !! i = Some (country_of i))).
  cut (P (index table) parts).
  { intros (?&Hidx&?&?&?). split_and!; try done. rewrite Hidx.
    apply filter_ext_in. intros i Hi. split.
    - intros Hn. destruct (decide (country_of i ∈ known)); [done|]. by destruct Hn.
    - by intros ? [_ ?]. }
  eapply (for_each_invariant P); [| |exact Hrun].
  { split_and!; simpl; try done; try (by intros ? ?%elem_of_nil).
    symmetry. apply filter_all. by intros i _ [?%elem_of_nil _]. }
  clear parts Hrun. intros past i ps ps' Hi (Htok & Hidx & Hcols & Hcells & Hattr) Hbody.
  inv_bind Hbody. injection Hbody as <-.
  apply assign_region_country_Ok in Ha as [Hlen ->].
  assert (∀ j, j ∈ past ++ [i] ↔ j ∈ past ∨ j = i) as Hsnoc.
  { intros j. by rewrite elem_of_app, list_elem_of_singleton. }
  unfold drop_unknown; simpl. rewrite lookup_insert_eq; simpl.
  split_and!.
  - intros j [?| ->]%Hsnoc; auto.
  - case_decide as Hknown; simpl.
    + rewrite Hidx. apply filter_ext_in. intros j Hj.
      rewrite Hsnoc. split.
      * intros Hn [[?| ->] ?]; [|done]. apply Hn. by split.
      * intros Hn [? ?]. apply Hn. split; [by left|done].
    + rewrite Hidx, list_filter_filter. apply filter_ext_in.
      intros j Hj. rewrite Hsnoc. split.
      * intros [Hne Hn] [[?| ->] ?]; [|done]. apply Hn. by split.
      * intros Hn. split.
        -- intros ->. apply Hn. split; [by right|done].
        -- intros [? ?]. apply Hn. split; [by left|done].
  - by case_decide.
  - by case_decide.
  - intros j Hj%Hsnoc.
    assert (<[i:=region_of i]> (Region ps) !! j = Some (region_of j)
            ∧ <[i:=country_of i]> (Country ps) !! j = Some (country_of j)) as Hgoal.
    { destruct (decide (i = j)) as [->|Hne].
      - by rewrite !lookup_insert_eq.
      - rewrite !lookup_insert_ne by done. destruct Hj as [?| ->]; [auto|done]. }
    by case_decide.
Qed.

(** The loop completes when every identifier has two tokens. *)
Lemma add_attributes_total (known : list string) (table : Frame) :
  (∀ i, i ∈ index table → length (split_on "_" i) = 2) →
  ∃ parts, add_attributes known table = Ok parts.
Proof.
  unfold add_attributes. generalize (mkCountryParts table ∅ ∅).
  induction (index table) as [|i l IH]; intros parts Hlen; simpl; [by eexists|].
  destruct (assign_region_country i parts) as [parts1|e1] eqn:Hi; simpl.
  - apply IH. intros; apply Hlen. by right.
  - exfalso. unfold assign_region_country in Hi.
    rewrite split_on_two in Hi by (apply Hlen; left). done.
Qed.

(** ** The stages of a run *)

Lemma sectoral_files_Ok (inp : Inputs) (sector_lu : Frame)
    (landuse_types : list string) (stat : Frame) (fs fs1 : Files)
    (printed : list event) :
  sectoral_files inp sector_lu landuse_types stat fs = Ok (fs1, printed) →
  (sectoral_files_exist fs = true ∧ fs1 = fs ∧ printed = [])
  ∨ (sectoral_files_exist fs = false
     ∧ ∃ tables,
         sectoral_stage (load inp) (sector_shares_clean inp) (load_ts_clean inp)
           (sectoral_profiles inp) sector_lu landuse_types stat = Ok tables
         ∧ fs1 = save_sectoral tables fs
         ∧ printed = [Printed "df_sector"; Printed "load_sector";
                      Printed "load_landuse"]).
Proof.
  unfold sectoral_files. destruct (sectoral_files_exist fs).
  - intros [= <- <-]. by left.
  - intros Hrun. inv_bind Hrun. injection Hrun as <- <-. right. eauto.
Qed.

Lemma sectoral_files_other (inp : Inputs) (sector_lu : Frame)
    (landuse_types : list string) (stat : Frame) (fs fs1 : Files)
    (printed : list event) :
  sectoral_files inp sector_lu landuse_types stat fs = Ok (fs1, printed) →
  stats_countries fs1 = stats_countries fs
  ∧ stats_country_parts fs1 = stats_country_parts fs
  ∧ load_regions fs1 = load_regions fs
  ∧ sectoral_files_exist fs1 = true.
Proof.
  intros [(Hex & -> & _)|(_ & tables & _ & -> & _)]%sectoral_files_Ok; done.
Qed.

(** The steps of a run that completes. *)
Lemma generate_Ok (inp : Inputs) (fs fs' : Files) (log : list event) :
  generate_load_timeseries inp fs = Ok (fs', log) →
  let sector_lu := sector_landuse (assumptions_landuse inp) (load inp) in
  let landuse_types :=
    landuse_types_of (restricted_assumptions (assumptions_landuse inp) (load inp)) in
  let stat0 := cached (stats_countries fs) (zonal_stats_countries inp) in
  let table := cached (stats_country_parts fs) (zonal_stats_country_parts inp) in
  ∃ stat fs1 printed df_sectors yearly per_unit regions,
    for_each (sec sector_lu) (weight_by_sector sector_lu landuse_types) stat0 = Ok stat
    ∧ sectoral_files inp sector_lu landuse_types stat (save_stats_countries stat0 fs)
      = Ok (fs1, printed)
    ∧ df_sector fs1 = Some df_sectors
    ∧ load_sector fs1 = Some yearly
    ∧ load_landuse fs1 = Some per_unit
    ∧ subregion_stage landuse_types df_sectors per_unit table = Ok regions
    ∧ fs' = save_load_regions regions (save_stats_country_parts table fs1)
    ∧ log = sector_warning (assumptions_landuse inp) (load inp)
            ++ printed ++ [Printed "load_regions"].
Proof.
  unfold generate_load_timeseries. intros Hrun. simpl.
  inv_bind Hrun. inv_bind Hrun. destruct a0 as [fs1 printed].
  do 4 inv_bind Hrun. injection Hrun as <- <-.
  pose proof (sectoral_files_other _ _ _ _ _ _ _ Ha0) as (_ & Hparts & _).
  rewrite Hparts in Ha4. simpl in Ha4.
  unfold read_csv in Ha1, Ha2, Ha3.
  destruct (df_sector fs1) as [df|] eqn:?; [|done].
  destruct (load_sector fs1) as [yearly|] eqn:?; [|done].
  destruct (load_landuse fs1) as [per_unit|] eqn:?; [|done].
  simplify_eq. rewrite Hparts. eexists _, _, _, _, _, _, _. split_and!; done.
Qed.

(** C10: the loop of lines 313-316 completes only if every identifier of the
    table of country parts consists of exactly two tokens, that is, holds
    exactly one underscore; an identifier with another number of tokens makes
    the assignment of line 314 raise [ValueError], which ends the stage and
    the run. *)
Theorem C10_identifiers_have_two_tokens (inp : Inputs) (fs : Files) :
  let table := cached (stats_country_parts fs) (zonal_stats_country_parts inp) in
  (∀ i parts, length (split_on "_" i) ≠ 2 →
     assign_region_country i parts = Raise ValueError)
  ∧ (∀ known i, i ∈ index table → length (split_on "_" i) ≠ 2 →
       add_attributes known table = Raise ValueError
       ∧ ∀ landuse_types df_sectors per_unit,
           subregion_stage landuse_types df_sectors per_unit table
           = Raise ValueError)
  ∧ (∀ fs' log, generate_load_timeseries inp fs = Ok (fs', log) →
       ∀ i, i ∈ index table →
         length (split_on "_" i) = 2 ∧ count_char "_" i = 1).
Proof.
  intros table. split_and!.
  - intros i parts Hlen.
    destruct (assign_region_country i parts) as [parts'|e] eqn:Hi.
    + by apply assign_region_country_Ok in Hi as [? _].
    + by apply assign_region_country_Raise in Hi as ->.
  - intros known i Hi Hlen.
    assert (∀ known, add_attributes known table = Raise ValueError) as Hraise.
    { clear known. intros known.
      destruct (add_attributes known table) as [parts|e] eqn:Hadd.
      - apply add_attributes_Ok in Hadd as (Htok & _). by apply Htok in Hi.
      - by apply add_attributes_Raise in Hadd as ->. }
    split; [done|]. intros. unfold subregion_stage. by rewrite Hraise.
  - intros fs' log Hrun i Hi.
    apply generate_Ok in Hrun as (?&?&?&df&?&?&?&_&_&_&_&_&Hsub&_).
    unfold subregion_stage in Hsub. inv_bind Hsub.
    apply add_attributes_Ok in Ha as (Htok & _).
    specialize (Htok i Hi). split; [done|].
    rewrite length_split_on in Htok. lia.
Qed.

Lemma C10_identifiers_have_two_tokens_witness :
  (∃ fs' log, generate_load_timeseries Example.inp no_files = Ok (fs', log))
  ∧ length (split_on "_" "N_AT") = 2 ∧ count_char "_" "N_AT" = 1.
Proof.
  destruct (generate_load_timeseries Example.inp no_files) as [[fs' log]|e] eqn:Hgen.
  - split; [by eexists _, _|].
    apply (proj2 (proj2 (C10_identifiers_have_two_tokens Example.inp no_files))
             fs' log Hgen "N_AT").
    by_evaluation.
  - run_completes Hgen.
Defined.

(** ** The files of a run *)

(** A run on files that hold the statistics of the countries and of the
    country parts and the three sectoral tables: it depends on the
    configuration, the assumptions table and the files only. *)
Definition run_on_cache (p : LoadParam) (assumptions : Frame) (fs : Files)
  : result (Files * list event) :=
  let landuse_types := landuse_types_of (restricted_assumptions assumptions p) in
  let sector_lu := sector_landuse assumptions p in
  stat0 ← read_csv (stats_countries fs);
  _ ← for_each (sec sector_lu) (weight_by_sector sector_lu landuse_types) stat0;
  df_sectors ← read_csv (df_sector fs);
  per_unit ← read_csv (load_landuse fs);
  table ← read_csv (stats_country_parts fs);
  regions ← subregion_stage landuse_types df_sectors per_unit table;
  Ok (save_load_regions regions fs,
      sector_warning assumptions p ++ [Printed "load_regions"]).

Lemma Ok_bind {A B} (a : A) (k : A → result B) : (x ← Ok a; k x) = k a.
Proof. done. Qed.

Lemma files_eta (fs : Files) :
  mkFiles (stats_countries fs) (df_sector fs) (load_sector fs) (load_landuse fs)
    (stats_country_parts fs) (load_regions fs) = fs.
Proof. by destruct fs. Qed.

Lemma generate_on_cache (inp : Inputs) (fs : Files) :
  is_Some (stats_countries fs) → is_Some (stats_country_parts fs) →
  sectoral_files_exist fs = true →
  generate_load_timeseries inp fs
  = run_on_cache (load inp) (assumptions_landuse inp) fs.
Proof.
  intros [stat0 Hstat] [table Htable] Hex.
  unfold generate_load_timeseries, run_on_cache.
  rewrite Hstat; simpl.
  assert (save_stats_countries stat0 fs = fs) as ->.
  { unfold save_stats_countries. rewrite <-Hstat. apply files_eta. }
  destruct (for_each _ _ stat0) as [stat|e]; simpl; [|done].
  unfold sectoral_files. rewrite Hex; simpl.
  unfold sectoral_files_exist in Hex.
  apply andb_true_iff in Hex as [[Hdf Hyearly]%andb_true_iff Hunit].
  apply bool_decide_eq_true in Hdf as [df Hdf], Hyearly as [yearly Hyearly],
    Hunit as [per_unit Hunit].
  rewrite Hdf, Hyearly, Hunit, Htable; simpl.
  assert (save_stats_country_parts table fs = fs) as ->.
  { unfold save_stats_country_parts. rewrite <-Htable. apply files_eta. }
  done.
Qed.

(** C6: after a run that completed, the files of every stage exist, and a
    second run on them reads the statistics of the countries and of the
    country parts and the three sectoral tables from their files instead of
    computing them: it leaves every file as the first run left it, saves no
    sectoral table again, and does not depend on the inputs from which the
    tables were computed. *)
Theorem C6_second_run_reads_the_files (inp : Inputs) (fs fs' : Files)
    (log : list event) :
  generate_load_timeseries inp fs = Ok (fs', log) →
  generate_load_timeseries inp fs'
  = Ok (fs', sector_warning (assumptions_landuse inp) (load inp)
             ++ [Printed "load_regions"])
  ∧ stats_countries fs'
    = Some (cached (stats_countries fs) (zonal_stats_countries inp))
  ∧ stats_country_parts fs'
    = Some (cached (stats_country_parts fs) (zonal_stats_country_parts inp))
  ∧ (∀ inp', load inp' = load inp →
       assumptions_landuse inp' = assumptions_landuse inp →
       generate_load_timeseries inp' fs' = generate_load_timeseries inp fs').
Proof.
  intros Hrun.
  apply generate_Ok in Hrun
    as (stat & fs1 & printed & df & yearly & per_unit & regions
        & Hstat & Hfiles & Hdf & Hyearly & Hunit & Hsub & -> & ->).
  pose proof (sectoral_files_other _ _ _ _ _ _ _ Hfiles) as (Hsc & Hscp & _ & Hex).
  set (fs' := save_load_regions _ _).
  assert (is_Some (stats_countries fs')) as Hs1 by (simpl; rewrite Hsc; by eexists).
  assert (is_Some (stats_country_parts fs')) as Hs2 by by eexists.
  assert (sectoral_files_exist fs' = true) as Hs3 by done.
  assert (stats_countries fs'
          = Some (cached (stats_countries fs) (zonal_stats_countries inp))) as Hf1
    by (simpl; by rewrite Hsc).
  assert (stats_country_parts fs'
          = Some (cached (stats_country_parts fs) (zonal_stats_country_parts inp)))
    as Hf2 by done.
  assert (df_sector fs' = Some df) as Hf3 by done.
  assert (load_landuse fs' = Some per_unit) as Hf4 by done.
  assert (save_load_regions regions fs' = fs') as Hf5 by done.
  split_and!.
  - rewrite generate_on_cache by done. unfold run_on_cache.
    rewrite Hf1, Hf2, Hf3, Hf4. unfold read_csv. rewrite Ok_bind, Hstat.
    rewrite !Ok_bind, Hsub, Ok_bind. by rewrite Hf5.
  - done.
  - done.
  - intros inp' Hload Hass. rewrite !generate_on_cache by done.
    by rewrite Hload, Hass.
Qed.

Lemma C6_second_run_reads_the_files_witness :
  ∃ fs', (∃ log, generate_load_timeseries Example.inp no_files = Ok (fs', log))
         ∧ generate_load_timeseries Example.inp fs'
           = Ok (fs', [Printed "load_regions"]).
Proof.
  destruct (generate_load_timeseries Example.inp no_files) as [[fs' log]|e] eqn:Hgen.
  - exists fs'. split; [by eexists|].
    apply (C6_second_run_reads_the_files Example.inp no_files fs' log Hgen).
  - run_completes Hgen.
Defined.

(** ** Country parts of unknown countries *)

(** The table of country parts without the rows of unknown countries. *)
Definition known_parts (known : list string) (table : Frame) : Frame :=
  {| index := filter (λ i, country_of i ∈ known) (index table);
     columns := columns table;
     cells := cells table |}.

Lemma filter_none {A} (P : A → Prop) `{∀ x, Decision (P x)} (l : list A) :
  (∀ x, x ∈ l → ¬ P x) → filter P l = [].
Proof.
  induction l as [|x l IH]; intros Hall; [done|].
  rewrite filter_cons, decide_False by (apply Hall; left).
  apply IH. intros; apply Hall. by right.
Qed.

Lemma tabulate_ext `{Countable K} {V} (g1 g2 : K → V) (l : list K) :
  (∀ k, k ∈ l → g1 k = g2 k) → tabulate g1 l = tabulate g2 l.
Proof.
  intros Hext. apply map_eq. intros k. rewrite !lookup_tabulate.
  case_decide; [|done]. by rewrite Hext.
Qed.

Lemma fmap_ext_in {A B} (f g : A → B) (l : list A) :
  (∀ x, x ∈ l → f x = g x) → f <$> l = g <$> l.
Proof.
  intros Hext. apply list_fmap_ext. intros i x Hx. apply Hext.
  by eapply list_elem_of_lookup_2.
Qed.

Lemma groupby_sum_ext `{Countable K} `{Countable G} (le : relation G)
    `{∀ x y, Decision (le x y)} (key1 key2 : K → G) (f : TimeFrame K) :
  (∀ k, k ∈ keys f → key1 k = key2 k) →
  groupby_sum le key1 f = groupby_sum le key2 f.
Proof.
  intros Hext. unfold groupby_sum.
  rewrite (fmap_ext_in key1 key2) by done. f_equal.
  apply tabulate_ext. intros g _. do 2 f_equal.
  apply filter_ext_in. intros k Hk. by rewrite Hext.
Qed.

Lemma frame_eq (f g : Frame) :
  index f = index g → columns f = columns g → cells f = cells g → f = g.
Proof. destruct f, g; simpl; by intros -> -> ->. Qed.

(** The loop of lines 326-338 keeps the labels and the hours of its table. *)
Lemma country_part_load_shape (landuse_types : list string)
    (df_sectors per_unit : TimeFrame (string * string)) (parts : CountryParts)
    (lcp : TimeFrame string) :
  country_part_load landuse_types df_sectors per_unit parts = Ok lcp →
  keys lcp = index (stat_sub parts) ∧ hours lcp = hours df_sectors.
Proof.
  unfold country_part_load. intros Hrun.
  pose (P := λ (_ : list string) (t : TimeFrame string),
    keys t = index (stat_sub parts) ∧ hours t = hours df_sectors).
  eapply (for_each_invariant P); [| |exact Hrun]; [by split|].
  clear lcp Hrun. intros past cp t t' Hcp [Hk Hh] Hbody.
  inv_bind Hbody. apply tupdate_Ok in Ha as (Hin & v & _ & ->).
  pose (Q := λ (_ : list string) (t : TimeFrame string),
    keys t = index (stat_sub parts) ∧ hours t = hours df_sectors).
  change (Q landuse_types t').
  eapply (for_each_invariant Q); [| |exact Hbody].
  { split; [by rewrite keys_tset_elem|done]. }
  intros past1 lu t1 t2 Hlu [Hk1 Hh1] Hstep.
  apply tupdate_Ok in Hstep as (Hin1 & v1 & _ & ->).
  split; [by rewrite keys_tset_elem|done].
Qed.

Lemma country_part_load_ext (landuse_types : list string)
    (df_sectors per_unit : TimeFrame (string * string))
    (parts1 parts2 : CountryParts) :
  stat_sub parts1 = stat_sub parts2 →
  (∀ cp, cp ∈ index (stat_sub parts1) → Country parts1 !! cp = Country parts2 !! cp) →
  country_part_load landuse_types df_sectors per_unit parts1
  = country_part_load landuse_types df_sectors per_unit parts2.
Proof.
  intros Hstat Hcountry. unfold country_part_load. rewrite <-Hstat.
  apply for_each_ext. intros cp lcp Hcp. rewrite <-Hcountry by done.
  unfold add_units. by rewrite <-Hstat.
Qed.

(** The rows of unknown countries do not enter the load of the subregions. *)
Lemma subregion_stage_known_parts (landuse_types : list string)
    (df_sectors per_unit : TimeFrame (string * string)) (table : Frame) :
  (∀ i, i ∈ index table → length (split_on "_" i) = 2) →
  subregion_stage landuse_types df_sectors per_unit table
  = subregion_stage landuse_types df_sectors per_unit
      (known_parts (known_countries df_sectors) table).
Proof.
  intros Htok. set (known := known_countries df_sectors).
  destruct (add_attributes_total known table Htok) as [parts1 Hparts1].
  destruct (add_attributes_total known (known_parts known table)) as [parts2 Hparts2].
  { intros i [_ Hi]%list_elem_of_filter. by apply Htok. }
  unfold subregion_stage. fold known. rewrite Hparts1, Hparts2, !Ok_bind.
  apply add_attributes_Ok in Hparts1 as (_ & Hi1 & Hc1 & Hx1 & Ha1).
  apply add_attributes_Ok in Hparts2 as (_ & Hi2 & Hc2 & Hx2 & Ha2).
  simpl in Hi2, Hc2, Hx2, Ha2. rewrite list_filter_filter in Hi2.
  assert (stat_sub parts1 = stat_sub parts2) as Hstat.
  { apply frame_eq; [|congruence..]. rewrite Hi1, Hi2.
    apply filter_ext_in. tauto. }
  assert (∀ cp, cp ∈ index (stat_sub parts1) →
            Region parts1 !! cp = Region parts2 !! cp
            ∧ Country parts1 !! cp = Country parts2 !! cp) as Hattr.
  { intros cp Hcp. rewrite Hi1 in Hcp.
    destruct (Ha1 cp) as [-> ->]; [by apply list_elem_of_filter in Hcp as [_ ?]|].
    destruct (Ha2 cp) as [-> ->]; done. }
  rewrite (country_part_load_ext _ _ _ parts1 parts2 Hstat)
    by (intros; by apply Hattr).
  destruct (country_part_load _ _ _ parts2) as [lcp|e] eqn:Hlcp; [|done].
  rewrite !Ok_bind. f_equal. unfold aggregate. f_equal.
  apply groupby_sum_ext. intros cp Hcp.
  apply country_part_load_shape in Hlcp as [Hk _].
  rewrite Hk, <-Hstat in Hcp. unfold region_country.
  by destruct (Hattr cp Hcp) as [-> ->].
Qed.

(** C9, as amended: a table of country parts whose identifiers have two
    tokens is processed without an exception; the rows that are kept are
    exactly those whose country token is among the countries of the sectoral
    load table; the load of the subregions is the one computed from the table
    without the other rows; and the rows are dropped silently: the only
    warning a run can issue is the one about sectors. *)
Theorem C9_unknown_country_parts_dropped (landuse_types : list string)
    (df_sectors per_unit : TimeFrame (string * string)) (table : Frame) :
  let known := known_countries df_sectors in
  (∀ i, i ∈ index table → length (split_on "_" i) = 2) →
  (∃ parts, add_attributes known table = Ok parts
     ∧ ∀ i, i ∈ index (stat_sub parts) ↔ i ∈ index table ∧ country_of i ∈ known)
  ∧ subregion_stage landuse_types df_sectors per_unit table
    = subregion_stage landuse_types df_sectors per_unit (known_parts known table)
  ∧ (∀ inp fs fs' log, generate_load_timeseries inp fs = Ok (fs', log) →
       filter (λ e, is_warning e = true) log
       = sector_warning (assumptions_landuse inp) (load inp)).
Proof.
  intros known Htok. split_and!.
  - destruct (add_attributes_total known table Htok) as [parts Hparts].
    exists parts. split; [done|].
    apply add_attributes_Ok in Hparts as (_ & -> & _). intros i.
    rewrite list_elem_of_filter. tauto.
  - by apply subregion_stage_known_parts.
  - intros inp fs fs' log (printed & -> & Hp)%generate_log.
    rewrite filter_app. rewrite (filter_all _ (sector_warning _ _)).
    + rewrite (filter_none _ printed); [apply app_nil_r|].
      intros e He. rewrite Forall_forall in Hp. by rewrite (Hp e He).
    + unfold sector_warning. case_decide; [by intros ? ?%elem_of_nil|].
      by intros e ->%list_elem_of_singleton.
Qed.

Lemma C9_unknown_country_parts_dropped_witness :
  ∃ parts,
    add_attributes ["AT"] (zonal_stats_country_parts Example.inp) = Ok parts
    ∧ ∀ i, i ∈ index (stat_sub parts) ↔
           i ∈ index (zonal_stats_country_parts Example.inp)
           ∧ country_of i ∈ ["AT"].
Proof.
  assert (∀ i, i ∈ index (zonal_stats_country_parts Example.inp) →
            length (split_on "_" i) = 2) as Htok.
  { intros i Hi. change (i ∈ ["N_AT"; "S_AT"; "S_XX"]) in Hi.
    revert Hi. rewrite !elem_of_cons, elem_of_nil.
    intros [->|[->|[->|[]]]]; reflexivity. }
  apply (C9_unknown_country_parts_dropped []
           (Example.timeframe 0 [(("AT", "RES"), [])]) (tzeros 0 [])
           (zonal_stats_country_parts Example.inp) Htok).
Defined.

(** C9 as stated fails where it has the drop logged: the run of the worked
    example drops the part [S_XX] of the unknown country [XX], and all it
    reports is the four files it saved. *)
Lemma C9_drop_is_not_logged :
  (r ← generate_load_timeseries Example.inp no_files;
   df ← read_csv (df_sector r.1);
   Ok (known_countries df, r.2))
  = Ok (["AT"],
        [Printed "df_sector"; Printed "load_sector"; Printed "load_landuse";
         Printed "load_regions"])
  ∧ ("S_XX":string) ∈ index (zonal_stats_country_parts Example.inp)
  ∧ country_of "S_XX" = "XX"%string
  ∧ (parts ← add_attributes ["AT"] (zonal_stats_country_parts Example.inp);
     Ok (index (stat_sub parts)))
    = Ok ["N_AT"; "S_AT"]%string.
Proof. split_and!; by_evaluation. Qed.

(** ** Loops of updates *)

(** The accumulation loops of the program rewrite one label at a time
    through a function of the series under that label.  [run_steps] is such
    a loop with its nesting flattened, and [chain] is what it does to one
    label. *)
Section steps.
Context `{Countable K}.

Definition run_steps (steps : list (K * (Series → result Series)))
    (df : TimeFrame K) : result (TimeFrame K) :=
  for_each steps (λ st, tupdate st.1 st.2) df.

Fixpoint chain (n : nat) (k : K) (steps : list (K * (Series → result Series)))
    (cur : Series) : result Series :=
  match steps with
  | [] => Ok cur
  | st :: rest =>
      if decide (st.1 = k)
      then v ← st.2 cur; chain n k rest (resize n NaN v)
      else chain n k rest cur
  end.

Lemma run_steps_col steps (df df' : TimeFrame K) :
  run_steps steps df = Ok df' →
  hours df' = hours df ∧ keys df' = keys df
  ∧ ∀ k, chain (hours df) k steps (col df k) = Ok (col df' k).
Proof.
  unfold run_steps. revert df. induction steps as [|[k0 f] steps IH];
    intros df Hrun; simpl in Hrun.
  - by injection Hrun as <-.
  - inv_bind Hrun. apply tupdate_Ok in Ha as (Hin & v & Hv & ->).
    apply IH in Hrun as (Hh & Hk & Hcol). simpl in Hh, Hcol.
    split_and!; [done|by rewrite Hk, keys_tset_elem|].
    intros k. simpl. case_decide as Hkk.
    + subst k0. rewrite Hv, Ok_bind. rewrite <-Hcol. by rewrite col_tset_eq.
    + rewrite <-Hcol. by rewrite col_tset_ne.
Qed.

Lemma chain_app n k steps1 steps2 cur :
  chain n k (steps1 ++ steps2) cur
  = (v ← chain n k steps1 cur; chain n k steps2 v).
Proof.
  revert cur. induction steps1 as [|st steps1 IH]; intros cur; simpl; [done|].
  case_decide; [|apply IH].
  destruct (st.2 cur) as [v|e]; [|done]. rewrite !Ok_bind. apply IH.
Qed.

Lemma chain_filter n k steps cur :
  chain n k steps cur = chain n k (filter (λ st, st.1 = k) steps) cur.
Proof.
  revert cur. induction steps as [|st steps IH]; intros cur; [done|].
  rewrite filter_cons. simpl. case_decide; simpl.
  - rewrite decide_True by done.
    destruct (st.2 cur) as [v|e]; [|done]. rewrite !Ok_bind. apply IH.
  - apply IH.
Qed.

Lemma chain_skip n k steps cur :
  (∀ st, st ∈ steps → st.1 ≠ k) → chain n k steps cur = Ok cur.
Proof. intros Hne. rewrite chain_filter, filter_none; done. Qed.

(** A label that one step of the loop rewrites, and no other. *)
Lemma chain_once n k f steps cur :
  NoDup (steps.*1) → (k, f) ∈ steps →
  chain n k steps cur = (v ← f cur; Ok (resize n NaN v)).
Proof.
  intros Hnd (pre & post & ->)%list_elem_of_split.
  rewrite fmap_app, fmap_cons in Hnd. simpl in Hnd.
  apply NoDup_app in Hnd as (_ & Hpre & [Hpost _]%NoDup_cons).
  rewrite chain_app, chain_skip, Ok_bind.
  - simpl. rewrite decide_True by done.
    destruct (f cur) as [v|e]; [|done]. rewrite !Ok_bind. apply chain_skip.
    intros st Hst ?. apply Hpost. subst k. by apply list_elem_of_fmap_2.
  - intros st Hst ?. apply (Hpre k); [|left]. subst k. by apply list_elem_of_fmap_2.
Qed.

(** A loop over the labels of a list, flattened. *)
Lemma for_each_tupdate {A} (l : list A) (key : A → K)
    (f : A → Series → result Series) (df : TimeFrame K) :
  for_each l (λ x, tupdate (key x) (f x)) df
  = run_steps ((λ x, (key x, f x)) <$> l) df.
Proof. unfold run_steps. by rewrite for_each_fmap. Qed.

Lemma run_steps_app steps1 steps2 (df : TimeFrame K) :
  run_steps (steps1 ++ steps2) df
  = (df' ← run_steps steps1 df; run_steps steps2 df').
Proof. apply for_each_app. Qed.

Lemma for_each_run_steps {A} (l : list A)
    (g : A → list (K * (Series → result Series))) (df : TimeFrame K) :
  for_each l (λ x, run_steps (g x)) df = run_steps (l ≫= g) df.
Proof. unfold run_steps. apply for_each_bind. Qed.

End steps.

(** ** Hour by hour *)

Lemma lookup_total_zip_with (f : xnum → xnum → xnum) (a b : Series) (h : nat) :
  h < length a → h < length b →
  zip_with f a b !!! h = f (a !!! h) (b !!! h).
Proof.
  intros Ha Hb. apply list_lookup_total_correct. rewrite lookup_zip_with.
  rewrite (list_lookup_lookup_total_lt a h), (list_lookup_lookup_total_lt b h) by done.
  done.
Qed.

Lemma lookup_total_fmap_lt (f : xnum → xnum) (a : Series) (h : nat) :
  h < length a → (f <$> a) !!! h = f (a !!! h).
Proof.
  intros Ha. apply list_lookup_total_correct. rewrite list_lookup_fmap.
  by rewrite (list_lookup_lookup_total_lt a h).
Qed.

Lemma lookup_total_zeros (n h : nat) : h < n → zeros n !!! h = zero.
Proof.
  intros. apply list_lookup_total_correct. by apply lookup_replicate_2.
Qed.

Lemma resize_same (n : nat) (v : Series) : length v = n → resize n NaN v = v.
Proof. intros. by apply resize_all_alt. Qed.

Lemma lookup_total_zip_with_lt {A B C} `{Inhabited A} `{Inhabited B} `{Inhabited C}
    (f : A → B → C) (a : list A) (b : list B) (h : nat) :
  h < length a → h < length b →
  zip_with f a b !!! h = f (a !!! h) (b !!! h).
Proof.
  intros Ha Hb. apply list_lookup_total_correct. rewrite lookup_zip_with.
  rewrite (list_lookup_lookup_total_lt a h), (list_lookup_lookup_total_lt b h) by done.
  done.
Qed.

(** *** The sum of a group *)

Lemma kahan_add_fin (s v : Qc) :
  kahan_add (Fin s, zero) (Fin v) = (Fin (s + v), zero).
Proof.
  unfold kahan_add, xsub, zero. simpl. f_equal; f_equal; ring.
Qed.

Lemma foldl_kahan_add_fin (s : Qc) (l : list Qc) :
  foldl kahan_add (Fin s, zero) (Fin <$> l) = (Fin (s + qsum l), zero).
Proof.
  revert s. induction l as [|v l IH]; intros s; simpl.
  - do 2 f_equal. ring.
  - rewrite kahan_add_fin, IH. do 2 f_equal. ring.
Qed.

(** On finite values the compensation vanishes and the sum of a group is
    the sum. *)
Lemma groupsum_fin (l : list Qc) : groupsum (Fin <$> l) = Fin (qsum l).
Proof.
  unfold groupsum. change (zero, zero) with (Fin 0%Qc, zero).
  rewrite foldl_kahan_add_fin. simpl. f_equal. ring.
Qed.

(** NaN entries do not enter the sum of a group. *)
Lemma groupsum_skips_nan (l : list xnum) :
  groupsum l = groupsum (filter (λ x, is_nan x = false) l).
Proof.
  unfold groupsum. generalize (zero, zero).
  induction l as [|v l IH]; intros st; [done|].
  rewrite filter_cons. destruct v; simpl; apply IH.
Qed.

Lemma length_foldl_kahan (n : nat) (cols : list Series) (acc : list (xnum * xnum)) :
  length acc = n → Forall (λ c, length c = n) cols →
  length (foldl (zip_with kahan_add) acc cols) = n.
Proof.
  revert acc. induction cols as [|c cols IH]; intros acc Hacc Hall; simpl; [done|].
  apply Forall_cons in Hall as [Hc Hall]. apply IH; [|done].
  rewrite length_zip_with. lia.
Qed.

Lemma length_groupsum_series (n : nat) (cols : list Series) :
  Forall (λ c, length c = n) cols → length (groupsum_series n cols) = n.
Proof.
  intros Hall. unfold groupsum_series. rewrite length_fmap.
  apply length_foldl_kahan; [apply length_replicate|done].
Qed.

Lemma lookup_total_foldl_kahan (n h : nat) (cols : list Series)
    (acc : list (xnum * xnum)) :
  length acc = n → Forall (λ c, length c = n) cols → h < n →
  (fst <$> foldl (zip_with kahan_add) acc cols) !!! h
  = (foldl kahan_add (acc !!! h) ((λ c, c !!! h) <$> cols)).1.
Proof.
  intros Hacc Hall Hh. revert acc Hacc.
  induction cols as [|c cols IH]; intros acc Hacc.
  - rewrite fmap_nil. cbn [foldl]. apply list_lookup_total_correct.
    rewrite list_lookup_fmap, (list_lookup_lookup_total_lt acc h) by lia. done.
  - rewrite fmap_cons. cbn [foldl].
    apply Forall_cons in Hall as [Hc Hall]. rewrite IH; [|done|].
    + by rewrite lookup_total_zip_with_lt by lia.
    + rewrite length_zip_with. lia.
Qed.

Lemma lookup_total_groupsum_series (n h : nat) (cols : list Series) :
  Forall (λ c, length c = n) cols → h < n →
  groupsum_series n cols !!! h = groupsum ((λ c, c !!! h) <$> cols).
Proof.
  intros Hall Hh. unfold groupsum_series, groupsum.
  rewrite (lookup_total_foldl_kahan n) by (done || apply length_replicate).
  do 2 f_equal. apply list_lookup_total_correct. by apply lookup_replicate_2.
Qed.

Section groupby_facts.
Context `{Countable K} `{Countable G}.
Context (le : relation G) `{∀ x y, Decision (le x y)}.
Implicit Types (key : K → G) (f : TimeFrame K) (g : G).

Lemma keys_groupby_sum key f :
  keys (groupby_sum le key f) ≡ₚ unique (key <$> keys f).
Proof. apply merge_sort_Permutation. Qed.

Lemma elem_of_keys_groupby_sum key f g :
  g ∈ keys (groupby_sum le key f) ↔ g ∈ key <$> keys f.
Proof. by rewrite keys_groupby_sum, elem_of_unique. Qed.

Lemma NoDup_keys_groupby_sum key f : NoDup (keys (groupby_sum le key f)).
Proof. rewrite keys_groupby_sum. apply NoDup_unique. Qed.

Lemma col_groupby_sum key f g :
  g ∈ key <$> keys f →
  col (groupby_sum le key f) g
  = groupsum_series (hours f) (col f <$> filter (λ k, key k = g) (keys f)).
Proof.
  intros Hg. unfold col at 1, groupby_sum; simpl.
  rewrite lookup_tabulate, decide_True.
  2:{ by rewrite merge_sort_Permutation, elem_of_unique. }
  simpl. apply resize_same, length_groupsum_series.
  apply Forall_fmap, Forall_forall. intros k _. apply length_col.
Qed.

Lemma lookup_total_col_groupby_sum key f g (h : nat) :
  g ∈ key <$> keys f → h < hours f →
  col (groupby_sum le key f) g !!! h
  = groupsum ((λ k, col f k !!! h) <$> filter (λ k, key k = g) (keys f)).
Proof.
  intros Hg Hh. rewrite col_groupby_sum by done.
  rewrite lookup_total_groupsum_series; [by rewrite <-list_fmap_compose|..|done].
  apply Forall_fmap, Forall_forall. intros k _. apply length_col.
Qed.

End groupby_facts.

Lemma filter_list_prod_fst {A B} `{EqDecision A} (l : list A) (k : list B) (x : A) :
  NoDup l → x ∈ l →
  filter (λ p, p.1 = x) (list_prod l k) = pair x <$> k.
Proof.
  intros Hnd Hx. induction Hnd as [|y l Hy Hnd IH]; [by apply elem_of_nil in Hx|].
  simpl. rewrite filter_app. destruct (decide (y = x)) as [->|Hne].
  - rewrite filter_all by (by intros [??] (?&[= <- <-]&?)%list_elem_of_fmap).
    rewrite filter_none, app_nil_r; [done|].
    intros [a b] [Ha _]%elem_of_list_prod ?. simpl in *. by subst.
  - apply elem_of_cons in Hx as [?|Hx]; [done|]. rewrite IH by done.
    rewrite filter_none; [done|].
    by intros [??] (?&[= <- <-]&?)%list_elem_of_fmap.
Qed.

Lemma NoDup_list_prod {A B} (l : list A) (k : list B) :
  NoDup l → NoDup k → NoDup (list_prod l k).
Proof.
  intros Hl Hk. induction Hl as [|x l Hx Hl IH]; simpl; [constructor|].
  apply NoDup_app. split_and!.
  - apply NoDup_fmap_2; [|done]. by intros ?? [=].
  - intros [a b] (?&[= <- <-]&?)%list_elem_of_fmap [? _]%elem_of_list_prod. done.
  - done.
Qed.

(** ** The sectoral load of the countries *)

Lemma bind_pairs_fst {A B C} (l : list A) (k : list B) (f : A → B → C) :
  (l ≫= λ x, (λ y, ((x, y), f x y)) <$> k).*1 = list_prod l k.
Proof.
  induction l as [|x l IH]; [done|].
  rewrite bind_cons, fmap_app, IH. simpl. f_equal.
  rewrite <-list_fmap_compose. by apply list_fmap_ext.
Qed.

Lemma elem_of_bind_pairs {A B C} (l : list A) (k : list B) (f : A → B → C) x y :
  x ∈ l → y ∈ k → ((x, y), f x y) ∈ (l ≫= λ x, (λ y, ((x, y), f x y)) <$> k).
Proof.
  intros Hx Hy. apply list_elem_of_bind. exists x. split; [|done].
  by apply (list_elem_of_fmap_2 (λ y, ((x, y), f x y))).
Qed.

(** The loop of lines 250-252 as a flat list of updates. *)
Lemma rescale_steps (df_load_countries : TimeFrame string) (sector_lu : Frame)
    (df : TimeFrame (string * string)) :
  rescale df_load_countries sector_lu df
  = run_steps
      (keys df_load_countries ≫= λ c,
         (λ s, ((c, s), rescale_column df_load_countries (groupby_sum str_le fst df) c))
           <$> (sec sector_lu ++ [RES]))
      df.
Proof.
  unfold rescale. rewrite <-for_each_run_steps. apply for_each_ext.
  intros c t _. apply (for_each_tupdate _ (λ s, (c, s)) (λ _, _)).
Qed.

(** The table after the loop of lines 250-252: the columns of the sectors of
    [sec] and of [RES] are rescaled, the others are as they were. *)
Lemma rescale_col (df_load_countries : TimeFrame string) (sector_lu : Frame)
    (df df' : TimeFrame (string * string)) :
  rescale df_load_countries sector_lu df = Ok df' →
  NoDup (keys df_load_countries) → NoDup (sec sector_lu ++ [RES]) →
  hours df' = hours df ∧ keys df' = keys df
  ∧ (∀ c s, c ∈ keys df_load_countries → s ∈ sec sector_lu ++ [RES] →
       c ∈ fst <$> keys df
       ∧ col df' (c, s)
         = resize (hours df) NaN
             (smul (sdiv (col df (c, s)) (col (groupby_sum str_le fst df) c))
                   (col df_load_countries c)))
  ∧ (∀ c s, ¬ (c ∈ keys df_load_countries ∧ s ∈ sec sector_lu ++ [RES]) →
       col df' (c, s) = col df (c, s)).
Proof.
  rewrite rescale_steps. intros Hrun Hcs Hss.
  apply run_steps_col in Hrun as (Hh & Hk & Hcol).
  split_and!; [done..| |].
  - intros c s Hc Hs. specialize (Hcol (c, s)).
    rewrite (chain_once _ _ (rescale_column df_load_countries (groupby_sum str_le fst df) c))
      in Hcol.
    + inv_bind Hcol. injection Hcol as Hcol. rewrite <-Hcol.
      unfold rescale_column in Ha. inv_bind Ha. inv_bind Ha. injection Ha as <-.
      apply tget_Ok in Ha0 as [Hsc ->]. apply tget_Ok in Ha1 as [_ ->].
      split; [|done]. by apply elem_of_keys_groupby_sum in Hsc.
    + rewrite (bind_pairs_fst _ _ (λ c _, rescale_column _ _ c)).
      by apply NoDup_list_prod.
    + by apply (elem_of_bind_pairs _ _ (λ c _, rescale_column _ _ c)).
  - intros c s Hn. specialize (Hcol (c, s)). rewrite chain_skip in Hcol.
    + by injection Hcol as ->.
    + intros st Hst Heq. apply Hn.
      apply (list_elem_of_fmap_2 fst) in Hst.
      rewrite (bind_pairs_fst _ _ (λ c _, rescale_column _ _ c)) in Hst.
      rewrite Heq in Hst. by apply elem_of_list_prod in Hst.
Qed.

(** The sectors that line 251 rescales are the configured ones when every
    configured sector but [RES] is a column of the assumptions table. *)
Lemma rescaled_sectors (a : Frame) (p : LoadParam) :
  RES ∈ sectors p → RES ∉ columns a →
  (∀ s, s ∈ sectors p → s ≠ RES → s ∈ columns a) →
  NoDup (sec (sector_landuse a p) ++ [RES])
  ∧ ∀ s, s ∈ sec (sector_landuse a p) ++ [RES] ↔ s ∈ sectors p.
Proof.
  intros Hres Hnres Hcols. split.
  - apply NoDup_app. split_and!.
    + apply NoDup_sec_sector_landuse.
    + intros s [Hs _]%elem_of_sec_sector_landuse ->%list_elem_of_singleton. done.
    + apply NoDup_singleton.
  - intros s. rewrite elem_of_app, elem_of_sec_sector_landuse, list_elem_of_singleton.
    split; [intros [[_ ?]| ->]; done|]. intros Hs.
    destruct (decide (s = RES)); [by right|left]. split; [by apply Hcols|done].
Qed.

(** The hourly values of a country after the two loops, where the values of
    the first loop are finite and do not sum to zero. *)
Lemma rescale_conserves (p : LoadParam) (sec_share : Frame)
    (df_load_countries profiles : TimeFrame string) (sector_lu : Frame)
    (raw df_sectors : TimeFrame (string * string)) (c : string) (h : nat) :
  copy_profiles p sec_share df_load_countries profiles = Ok raw →
  rescale df_load_countries sector_lu raw = Ok df_sectors →
  NoDup (keys df_load_countries) → NoDup (sec sector_lu ++ [RES]) →
  (∀ s, s ∈ sec sector_lu ++ [RES] ↔ s ∈ sectors p) →
  c ∈ keys df_load_countries → h < hours df_load_countries →
  (∀ s, s ∈ sectors p → is_fin (col raw (c, s) !!! h)) →
  xsum ((λ s, col raw (c, s) !!! h) <$> sectors p) ≠ zero →
  is_fin (col df_load_countries c !!! h) →
  (∀ s, s ∈ sectors p →
     col df_sectors (c, s) !!! h
     = Fin (qval (col raw (c, s) !!! h)
            / qsum ((λ s, qval (col raw (c, s) !!! h)) <$> sectors p)
            * qval (col df_load_countries c !!! h))%Qc)
  ∧ xsum ((λ s, col df_sectors (c, s) !!! h) <$> sectors p)
    = col df_load_countries c !!! h.
Proof.
  intros Hraw Hres Hcs Hss Hsec Hc Hh Hfin Hsum Htot.
  apply copy_profiles_col in Hraw as (Hh1 & Hk1 & _).
  apply rescale_col in Hres as (Hh2 & Hk2 & Hcol & _); [|done..].
  set (q := λ s, qval (col raw (c, s) !!! h)).
  set (S := qsum (q <$> sectors p)).
  set (T := qval (col df_load_countries c !!! h)).
  assert ((λ s, col raw (c, s) !!! h) <$> sectors p = Fin <$> (q <$> sectors p))
    as Hraws.
  { rewrite <-list_fmap_compose. apply fmap_ext_in. intros s Hs.
    by apply fin_qval, Hfin. }
  assert (S ≠ 0%Qc) as HS.
  { intros HS. apply Hsum. rewrite Hraws, xsum_fin. fold S. by rewrite HS. }
  assert (col (groupby_sum str_le fst raw) c !!! h = Fin S) as Hscale.
  { rewrite lookup_total_col_groupby_sum.
    - rewrite Hk1, filter_list_prod_fst by done.
      rewrite <-list_fmap_compose. unfold compose.
      change (groupsum ((λ s, col raw (c, s) !!! h) <$> sectors p) = Fin S).
      by rewrite Hraws, groupsum_fin.
    - rewrite Hk1. destruct (sectors p) as [|s0 ss] eqn:Hp.
      + exfalso. apply Hsum. done.
      + apply list_elem_of_fmap. exists (c, s0). split; [done|].
        apply elem_of_list_prod. split; [done|left].
    - lia. }
  assert (∀ s, s ∈ sectors p →
            col df_sectors (c, s) !!! h = Fin (q s / S * T)%Qc) as Hval.
  { intros s Hs. destruct (Hcol c s Hc) as [_ ->]; [by apply Hsec|].
    assert (hours (groupby_sum str_le fst raw) = hours raw) as Hh3 by done.
    rewrite resize_same.
    2:{ unfold smul, sdiv. rewrite !length_zip_with, !length_col, Hh3. lia. }
    unfold smul, sdiv.
    rewrite !lookup_total_zip_with;
      rewrite ?length_zip_with, ?length_col, ?Hh3; try lia.
    rewrite Hscale, (fin_qval (col raw (c, s) !!! h)) by by apply Hfin.
    rewrite (fin_qval (col df_load_countries c !!! h)) by done.
    by rewrite xdiv_fin. }
  split; [done|].
  rewrite (fmap_ext_in _ (λ s, Fin (q s / S * T)%Qc)) by done.
  rewrite (list_fmap_compose (λ s, (q s / S * T)%Qc) Fin), xsum_fin.
  rewrite (fin_qval (col df_load_countries c !!! h)) by done. fold T. f_equal.
  rewrite (qsum_ext _ (λ s, q s * (/ S * T))%Qc).
  2:{ intros s _. unfold Qcdiv. ring. }
  rewrite (qsum_scale q). fold S. field. done.
Qed.

(** The value at one hour of a series that was saved to a file. *)
Definition hourly {K} `{Countable K} (file : option (TimeFrame K)) (k : K)
    (h : nat) : xnum :=
  match file with Some t => col t k !!! h | None => NaN end.

(** The value that the loop of lines 240-245 computes for a country, a sector
    and an hour: the profile of the sector times the share of the country. *)
Definition raw_sector_load (inp : Inputs) (c s : string) (h : nat) : xnum :=
  match copy_profiles (load inp) (sector_shares_clean inp) (load_ts_clean inp)
          (sectoral_profiles inp) with
  | Ok raw => col raw (c, s) !!! h
  | Raise _ => NaN
  end.

(** The steps of a run that computes the sectoral tables. *)
Lemma generate_computes (inp : Inputs) (fs fs' : Files) (log : list event) :
  generate_load_timeseries inp fs = Ok (fs', log) →
  sectoral_files_exist fs = false →
  let sector_lu := sector_landuse (assumptions_landuse inp) (load inp) in
  let landuse_types :=
    landuse_types_of (restricted_assumptions (assumptions_landuse inp) (load inp)) in
  let stat0 := cached (stats_countries fs) (zonal_stats_countries inp) in
  let table := cached (stats_country_parts fs) (zonal_stats_country_parts inp) in
  ∃ stat raw df_sectors per_unit regions,
    for_each (sec sector_lu) (weight_by_sector sector_lu landuse_types) stat0 = Ok stat
    ∧ copy_profiles (load inp) (sector_shares_clean inp) (load_ts_clean inp)
        (sectoral_profiles inp) = Ok raw
    ∧ rescale (load_ts_clean inp) sector_lu raw = Ok df_sectors
    ∧ per_unit_load (load_ts_clean inp) sector_lu landuse_types stat df_sectors
      = Ok per_unit
    ∧ subregion_stage landuse_types df_sectors per_unit table = Ok regions
    ∧ df_sector fs' = Some df_sectors
    ∧ load_landuse fs' = Some per_unit
    ∧ load_regions fs' = Some regions.
Proof.
  intros Hrun Hex. simpl.
  apply generate_Ok in Hrun
    as (stat & fs1 & printed & df & yearly & per_unit & regions
        & Hstat & Hfiles & Hdf & Hyearly & Hunit & Hsub & -> & ->).
  apply sectoral_files_Ok in Hfiles as [(Hex' & _)|(_ & tables & Hstage & -> & _)].
  { change (sectoral_files_exist fs = true) in Hex'. congruence. }
  unfold sectoral_stage in Hstage. do 3 inv_bind Hstage. injection Hstage as <-.
  simpl in Hdf, Hunit. simplify_eq.
  eexists _, _, _, _, _. split_and!; done.
Qed.

(** X13: in a run that computes the sectoral table, for every country of
    the load table and every hour at which the values of the first loop
    (profile times share) are finite and do not sum to zero and the load of
    the country is finite, the values of the configured sectors in the saved
    table sum to the load of the country, provided the configured sectors
    are distinct, the countries are distinct, [RES] is configured, the
    assumptions table has no column [RES] and every other configured sector
    is a column of it. *)
Theorem X13_sectoral_loads_sum_to_total (inp : Inputs) (fs fs' : Files)
    (log : list event) (c : string) (h : nat) :
  let p := load inp in
  let df_load_countries := load_ts_clean inp in
  generate_load_timeseries inp fs = Ok (fs', log) →
  sectoral_files_exist fs = false →
  NoDup (keys df_load_countries) → NoDup (sectors p) →
  RES ∈ sectors p → RES ∉ columns (assumptions_landuse inp) →
  (∀ s, s ∈ sectors p → s ≠ RES → s ∈ columns (assumptions_landuse inp)) →
  c ∈ keys df_load_countries → h < hours df_load_countries →
  (∀ s, s ∈ sectors p → is_fin (raw_sector_load inp c s h)) →
  xsum ((λ s, raw_sector_load inp c s h) <$> sectors p) ≠ zero →
  is_fin (col df_load_countries c !!! h) →
  xsum ((λ s, hourly (df_sector fs') (c, s) h) <$> sectors p)
  = col df_load_countries c !!! h.
Proof.
  intros p df_load_countries. subst p df_load_countries.
  intros Hrun Hex Hcs Hss Hres Hnres Hcols Hc Hh Hfin Hsum Htot.
  apply generate_computes in Hrun
    as (stat & raw & df & per_unit & regions & _ & Hraw & Hdf & _ & _ & -> & _);
    [|done].
  unfold raw_sector_load in Hfin, Hsum.
  rewrite Hraw in Hfin, Hsum. simpl.
  destruct (rescaled_sectors (assumptions_landuse inp) (load inp) Hres Hnres Hcols)
    as [Hnd Hsec].
  by eapply rescale_conserves.
Qed.

Module C1_example.

(** The inputs of the worked example with profiles that vanish in the first
    hour. *)
Definition inp : Inputs :=
  {| load := load Example.inp;
     assumptions_landuse := assumptions_landuse Example.inp;
     sector_shares_clean := sector_shares_clean Example.inp;
     load_ts_clean := load_ts_clean Example.inp;
     sectoral_profiles :=
       Example.timeframe 2 [("IND", [int 0; int 2]); ("RES", [int 0; int 1])];
     zonal_stats_countries := zonal_stats_countries Example.inp;
     zonal_stats_country_parts := zonal_stats_country_parts Example.inp |}.

End C1_example.

Lemma X13_sectoral_loads_sum_to_total_witness :
  ∃ fs', (∃ log, generate_load_timeseries Example.inp no_files = Ok (fs', log))
    ∧ xsum ((λ s, hourly (df_sector fs') ("AT", s) 0)
              <$> sectors (load Example.inp))
      = col (load_ts_clean Example.inp) "AT" !!! 0.
Proof.
  destruct (generate_load_timeseries Example.inp no_files) as [[fs' log]|e] eqn:Hgen.
  - exists fs'. split; [by eexists|].
    pose proof (X13_sectoral_loads_sum_to_total Example.inp no_files fs' log "AT" 0
                  Hgen) as HC.
    clear Hgen. apply HC; clear HC.
    + by_evaluation.
    + by_evaluation.
    + by_evaluation.
    + by_evaluation.
    + by_evaluation.
    + intros s Hs Hne. change (s ∈ ["IND"; "RES"]) in Hs. revert Hs Hne.
      rewrite !elem_of_cons, elem_of_nil.
      intros [->|[->|[]]] Hne; [by_evaluation|by destruct Hne].
    + by_evaluation.
    + simpl. lia.
    + intros s Hs. change (s ∈ ["IND"; "RES"]) in Hs. revert Hs.
      rewrite !elem_of_cons, elem_of_nil. intros [->|[->|[]]]; by vm_compute.
    + by_evaluation.
    + by vm_compute.
  - run_completes Hgen.
Defined.

(** C1 as stated fails at an hour in which the profiles of all sectors are
    zero: line 252 divides by the zero sum, the sectoral values are NaN, and
    they do not sum to the load of 100. *)
Lemma C1_zero_scale_counterexample :
  (r ← generate_load_timeseries C1_example.inp no_files;
   Ok ((λ s, hourly (df_sector r.1) ("AT", s) 0) <$> sectors (load C1_example.inp)))
  = Ok [NaN; NaN]
  ∧ col (load_ts_clean C1_example.inp) "AT" !!! 0 = int 100
  ∧ xsum [NaN; NaN] ≠ int 100.
Proof. split_and!; by_evaluation. Qed.

(** C1: the claim fails on the code, against the comment of lines 247-248
    (the profiles are normalized "so that the sum of the loads of all
    sectors = 1 for each hour" and then multiplied with the hourly load).  In
    the run on these inputs the sector [TRA] is configured but is no column
    of the assumptions table: the run completes, line 249 adds the values of
    [TRA] to the hourly sum, the loop of lines 250-252 runs over
    [sec + ["RES"]] and leaves the column of [TRA] as it was, and the values
    of the configured sectors of AT at the first hour, 50, 1/4 and 25, sum to
    75 1/4 and not to the load of 100. *)
Theorem C1_missing_sector_breaks_conservation :
  (r ← generate_load_timeseries C7_example.inp no_files;
   Ok ((λ s, hourly (df_sector r.1) ("AT", s) 0) <$> sectors (load C7_example.inp)))
  = Ok [int 50; frac 1 4; int 25]
  ∧ raw_sector_load C7_example.inp "AT" "TRA" 0 = frac 1 4
  ∧ col (load_ts_clean C7_example.inp) "AT" !!! 0 = int 100
  ∧ xsum [int 50; frac 1 4; int 25] = frac 301 4
  ∧ frac 301 4 ≠ int 100.
Proof. split_and!; by_evaluation. Qed.

(** ** The load per unit *)

Lemma is_zero_0 : is_zero 0%Qc = true.
Proof. by apply bool_decide_eq_true. Qed.

Lemma xadd_not_fin_l (a b : xnum) : is_fin a = false → is_fin (xadd a b) = false.
Proof. by destruct a, b. Qed.

Lemma xadd_not_fin_r (a b : xnum) : is_fin b = false → is_fin (xadd a b) = false.
Proof. by destruct a, b. Qed.

Lemma xmul_not_fin_r (a b : xnum) : is_fin b = false → is_fin (xmul a b) = false.
Proof.
  destruct a as [q| | |], b; try done; simpl; intros _;
    unfold inf_like; destruct (is_zero q), (is_neg q); done.
Qed.

(** A division by a zero count is not guarded: the quotient is an infinity
    or NaN. *)
Lemma xdiv_zero_not_fin (a : xnum) : is_fin (xdiv a zero) = false.
Proof.
  unfold zero. destruct a as [q| | |]; cbn [xdiv]; try done.
  rewrite is_zero_0. unfold inf_like. by destruct (is_zero q), (is_neg q).
Qed.

Section steps_facts.
Context `{Countable K}.

(** A property of the series under a label that every step keeps. *)
Lemma chain_preserves (P : Series → Prop) n (k : K) steps cur v :
  (∀ st cur v, st ∈ steps → st.1 = k → length cur = n → P cur →
     st.2 cur = Ok v → length v = n ∧ P v) →
  length cur = n → P cur → chain n k steps cur = Ok v → length v = n ∧ P v.
Proof.
  revert cur. induction steps as [|st steps IH]; intros cur Hstep Hlen HP Hrun;
    simpl in Hrun.
  - by injection Hrun as <-.
  - assert (∀ st cur v, st ∈ steps → st.1 = k → length cur = n → P cur →
              st.2 cur = Ok v → length v = n ∧ P v) as Hstep'
      by (intros ??? ?; apply Hstep; by right).
    case_decide as Hk; [|by apply (IH cur)]. inv_bind Hrun.
    destruct (Hstep st cur a) as [Hlen' HP']; [by left|done..|].
    apply (IH (resize n NaN a)); [done|apply length_resize| |done].
    by rewrite resize_same.
Qed.

(** Steps on one label that each add a term to the value of an hour. *)
Lemma chain_additive {A} n (h : nat) (k : K) (l : list A)
    (f : A → Series → result Series) (t : A → xnum) cur v :
  (∀ x cur v, x ∈ l → length cur = n → f x cur = Ok v →
     length v = n ∧ v !!! h = xadd (cur !!! h) (t x)) →
  length cur = n → chain n k ((λ x, (k, f x)) <$> l) cur = Ok v →
  length v = n ∧ v !!! h = foldl xadd (cur !!! h) (t <$> l).
Proof.
  revert cur. induction l as [|x l IH]; intros cur Hstep Hlen Hrun.
  - by injection Hrun as <-.
  - rewrite fmap_cons in Hrun. simpl in Hrun. rewrite decide_True in Hrun by done.
    inv_bind Hrun. destruct (Hstep x cur a) as [Hlen' Hval]; [by left|done..|].
    rewrite resize_same in Hrun by done.
    apply IH in Hrun as [? ->]; [|intros ??? ?; apply Hstep; by right|done].
    split; [done|]. by rewrite fmap_cons, Hval.
Qed.

(** The steps of one label in a loop whose every round works on a label of
    its own. *)
Lemma filter_bind_own {A} (l : list A) (key : A → K)
    (g : A → list (K * (Series → result Series))) (x : A) :
  NoDup (key <$> l) → x ∈ l → (∀ y st, st ∈ g y → st.1 = key y) →
  filter (λ st, st.1 = key x) (l ≫= g) = g x.
Proof.
  intros Hnd Hx Hown. induction l as [|y l IH]; [by apply elem_of_nil in Hx|].
  rewrite fmap_cons in Hnd. apply NoDup_cons in Hnd as [Hy Hnd].
  rewrite bind_cons, filter_app. destruct (decide (key y = key x)) as [Heq|Hne].
  - assert (x = y) as ->.
    { apply elem_of_cons in Hx as [?|Hx]; [done|]. exfalso. apply Hy.
      rewrite Heq. by apply list_elem_of_fmap_2. }
    rewrite filter_all by (intros st Hst; by apply Hown).
    rewrite filter_none; [apply app_nil_r|].
    intros st (z & Hst & Hz)%list_elem_of_bind Hk. apply Hy.
    rewrite <-Hk, (Hown z st Hst). by apply list_elem_of_fmap_2.
  - apply elem_of_cons in Hx as [?|Hx]; [by subst|]. rewrite IH by done.
    rewrite filter_none; [done|]. intros st Hst Hk. apply Hne.
    by rewrite <-(Hown y st Hst).
Qed.

End steps_facts.

(** The updates of one country in the loop of lines 267-273. *)
Definition per_unit_steps (sector_lu : Frame) (landuse_types : list string)
    (stat : Frame) (df_sectors : TimeFrame (string * string)) (c : string)
  : list (string * string * (Series → result Series)) :=
  ((c, RES), add_residential stat df_sectors c)
  :: (landuse_types ≫= λ lu,
        (λ s, ((c, lu), add_sector sector_lu stat df_sectors c lu s))
          <$> sec sector_lu).

Lemma per_unit_load_steps (df_load_countries : TimeFrame string)
    (sector_lu : Frame) (landuse_types : list string) (stat : Frame)
    (df_sectors : TimeFrame (string * string)) :
  per_unit_load df_load_countries sector_lu landuse_types stat df_sectors
  = run_steps
      (countries df_load_countries stat
         ≫= per_unit_steps sector_lu landuse_types stat df_sectors)
      (tzeros (hours df_sectors)
         (list_prod (countries df_load_countries stat) (landuse_types ++ [RES]))).
Proof.
  unfold per_unit_load. rewrite <-for_each_run_steps. apply for_each_ext.
  intros c ll _. unfold per_unit_steps, run_steps.
  cbn [for_each fst snd]. destruct (tupdate _ _ ll) as [ll'|e]; [|done].
  rewrite !Ok_bind, <-for_each_bind. apply for_each_ext. intros lu ll'' _.
  by rewrite for_each_fmap.
Qed.

(** ** Zero counts *)

Section poisoned.
Context `{Countable K}.

(** Once the value of an hour is not finite, steps that add to it leave it
    so. *)
Lemma chain_poisoned n (h : nat) (k : K) (f : Series → result Series)
    steps cur v :
  (k, f) ∈ steps →
  (∀ st cur v, st ∈ steps → st.1 = k → length cur = n → st.2 cur = Ok v →
     length v = n ∧ (is_fin (cur !!! h) = false → is_fin (v !!! h) = false)) →
  (∀ cur v, length cur = n → f cur = Ok v → is_fin (v !!! h) = false) →
  length cur = n → chain n k steps cur = Ok v → is_fin (v !!! h) = false.
Proof.
  intros (pre & post & ->)%list_elem_of_split Hstep Hf Hlen Hrun.
  rewrite chain_app in Hrun. inv_bind Hrun.
  apply (chain_preserves (λ _, True)) in Ha as [Hlen1 _]; [|..|done|done].
  2:{ intros st cur' v' Hst Hk Hl _ Hv. split; [|done].
      eapply Hstep; [|done..]. apply elem_of_app. by left. }
  simpl in Hrun. rewrite decide_True in Hrun by done. inv_bind Hrun.
  destruct (Hstep (k, f) a a0) as [Hlen2 _];
    [apply elem_of_app; right; left|done..|].
  apply (chain_preserves (λ s, is_fin (s !!! h) = false)) in Hrun as [_ ?]; [done|..].
  - intros st cur' v' Hst Hk Hl Hp Hv.
    destruct (Hstep st cur' v') as [? Hkeep]; [|done..|by auto].
    apply elem_of_app. right. by right.
  - apply length_resize.
  - rewrite resize_same by done. by apply (Hf a a0).
Qed.

End poisoned.

Lemma add_residential_Ok (stat : Frame) (df : TimeFrame (string * string))
    (c : string) (cur v : Series) :
  add_residential stat df c cur = Ok v ↔
  (c, RES) ∈ keys df ∧ c ∈ index stat ∧ RES ∈ columns stat
  ∧ v = sadd cur (sdiv_scalar (col df (c, RES)) (cell stat c RES)).
Proof.
  unfold add_residential. rewrite bind_Ok. setoid_rewrite bind_Ok.
  setoid_rewrite tget_Ok. setoid_rewrite loc_Ok. split.
  - intros (d & [? ->] & n & (? & ? & ->) & [= <-]). done.
  - intros (? & ? & ? & ->). eauto 10.
Qed.

Lemma add_sector_Ok (sector_lu stat : Frame) (df : TimeFrame (string * string))
    (c lu s : string) (cur v : Series) :
  add_sector sector_lu stat df c lu s cur = Ok v ↔
  (s ∈ index sector_lu ∧ lu ∈ columns sector_lu)
  ∧ (c, s) ∈ keys df ∧ (c ∈ index stat ∧ s ∈ columns stat)
  ∧ v = sadd cur (sdiv_scalar (scalar_mul (cell sector_lu s lu) (col df (c, s)))
                    (cell stat c s)).
Proof.
  unfold add_sector. rewrite bind_Ok. setoid_rewrite bind_Ok.
  setoid_rewrite bind_Ok.
  setoid_rewrite tget_Ok. setoid_rewrite loc_Ok. split.
  - intros (w & (? & ? & ->) & d & [? ->] & n & (? & ? & ->) & [= <-]). done.
  - intros ([??] & ? & [??] & ->). eauto 15.
Qed.

Lemma length_sadd (a b : Series) (n : nat) :
  length a = n → length b = n → length (sadd a b) = n.
Proof. intros. unfold sadd. rewrite length_zip_with. lia. Qed.

Lemma lookup_total_sadd (a b : Series) (n h : nat) :
  length a = n → length b = n → h < n →
  sadd a b !!! h = xadd (a !!! h) (b !!! h).
Proof. intros. unfold sadd. apply lookup_total_zip_with; lia. Qed.

Lemma length_sdiv_scalar (a : Series) (x : xnum) :
  length (sdiv_scalar a x) = length a.
Proof. apply length_fmap. Qed.

Lemma length_scalar_mul (x : xnum) (a : Series) :
  length (scalar_mul x a) = length a.
Proof. apply length_fmap. Qed.

Lemma lookup_total_sdiv_scalar (a : Series) (x : xnum) (h : nat) :
  h < length a → sdiv_scalar a x !!! h = xdiv (a !!! h) x.
Proof. intros. unfold sdiv_scalar. by rewrite lookup_total_fmap_lt. Qed.

Lemma lookup_total_scalar_mul (x : xnum) (a : Series) (h : nat) :
  h < length a → scalar_mul x a !!! h = xmul x (a !!! h).
Proof. intros. unfold scalar_mul. by rewrite lookup_total_fmap_lt. Qed.

(** What one update of the loop of lines 267-273 does to an hour. *)
Lemma per_unit_step_hour (sector_lu : Frame) (landuse_types : list string)
    (stat : Frame) (df : TimeFrame (string * string)) (c : string) (h : nat)
    st (cur v : Series) :
  st ∈ per_unit_steps sector_lu landuse_types stat df c →
  length cur = hours df → h < hours df → st.2 cur = Ok v →
  length v = hours df ∧ ∃ t, v !!! h = xadd (cur !!! h) t.
Proof.
  intros Hst Hlen Hh Hv. unfold per_unit_steps in Hst.
  apply elem_of_cons in Hst as [->|Hst]; simpl in Hv.
  - apply add_residential_Ok in Hv as (_ & _ & _ & ->).
    split; [apply length_sadd; [done|by rewrite length_sdiv_scalar, length_col]|].
    eexists. apply (lookup_total_sadd _ _ (hours df)); [done| |done].
    by rewrite length_sdiv_scalar, length_col.
  - apply list_elem_of_bind in Hst as (lu & Hst & _).
    apply list_elem_of_fmap in Hst as (s & -> & _). simpl in Hv.
    apply add_sector_Ok in Hv as (_ & _ & _ & ->).
    assert (length (sdiv_scalar (scalar_mul (cell sector_lu s lu) (col df (c, s)))
                      (cell stat c s)) = hours df) as Hl
      by by rewrite length_sdiv_scalar, length_scalar_mul, length_col.
    split; [by apply length_sadd|].
    eexists. by apply (lookup_total_sadd _ _ (hours df)).
Qed.

(** The table of the loads per unit, label by label. *)
Lemma per_unit_load_col (df_load_countries : TimeFrame string)
    (sector_lu : Frame) (landuse_types : list string) (stat : Frame)
    (df per_unit : TimeFrame (string * string)) :
  per_unit_load df_load_countries sector_lu landuse_types stat df = Ok per_unit →
  hours per_unit = hours df
  ∧ keys per_unit
    = list_prod (countries df_load_countries stat) (landuse_types ++ [RES])
  ∧ ∀ k, chain (hours df) k
           (countries df_load_countries stat
              ≫= per_unit_steps sector_lu landuse_types stat df)
           (zeros (hours df))
         = Ok (col per_unit k) ∨ k ∉ keys per_unit.
Proof.
  rewrite per_unit_load_steps. intros Hrun.
  apply run_steps_col in Hrun as (Hh & Hk & Hcol). simpl in Hh, Hk, Hcol.
  split_and!; [done..|]. intros k.
  destruct (decide (k ∈ keys per_unit)) as [Hin|]; [left|by right].
  rewrite <-Hcol, col_tzeros; [done|]. by rewrite <-Hk.
Qed.

(** C3, as amended: the divisions of lines 268 and 271 are not guarded.  For
    a country whose count of residents is zero, the residential load per unit
    is at every hour an infinity or NaN, never a finite number (so never
    zero); for a country whose weighted count for some sector is zero, so is
    the load per unit of every land-use category. *)
Theorem C3_zero_counts_are_not_guarded (df_load_countries : TimeFrame string)
    (sector_lu : Frame) (landuse_types : list string) (stat : Frame)
    (df per_unit : TimeFrame (string * string)) (c : string) (h : nat) :
  per_unit_load df_load_countries sector_lu landuse_types stat df = Ok per_unit →
  c ∈ countries df_load_countries stat → h < hours df →
  (cell stat c RES = zero → is_fin (col per_unit (c, RES) !!! h) = false)
  ∧ (∀ s lu, s ∈ sec sector_lu → lu ∈ landuse_types → cell stat c s = zero →
       is_fin (col per_unit (c, lu) !!! h) = false).
Proof.
  intros Hrun Hc Hh.
  apply per_unit_load_col in Hrun as (Hhours & Hkeys & Hcol).
  set (steps := countries df_load_countries stat
                  ≫= per_unit_steps sector_lu landuse_types stat df) in *.
  assert (∀ st cur v k, st ∈ steps → st.1 = k → length cur = hours df →
            st.2 cur = Ok v →
            length v = hours df
            ∧ (is_fin (cur !!! h) = false → is_fin (v !!! h) = false)) as Hstep.
  { intros st cur v k (c' & Hst & _)%list_elem_of_bind _ Hlen Hv.
    destruct (per_unit_step_hour _ _ _ _ _ h _ _ _ Hst Hlen Hh Hv) as [? [t ->]].
    split; [done|]. apply xadd_not_fin_l. }
  assert (length (zeros (hours df)) = hours df) as Hz by apply length_replicate.
  split.
  - intros Hzero.
    destruct (Hcol (c, RES)) as [Hchain|Hout].
    2:{ exfalso. apply Hout. rewrite Hkeys. apply elem_of_list_prod.
        split; [done|]. apply elem_of_app. right. left. }
    eapply (chain_poisoned (hours df) h (c, RES) (add_residential stat df c));
      [|intros; by eapply Hstep| |exact Hz|exact Hchain].
    + apply list_elem_of_bind. exists c. split; [left|done].
    + intros cur v Hlen (_ & _ & _ & ->)%add_residential_Ok.
      rewrite (lookup_total_sadd _ _ (hours df)); [|done| |done].
      2:{ by rewrite length_sdiv_scalar, length_col. }
      apply xadd_not_fin_r. rewrite lookup_total_sdiv_scalar, Hzero
        by by rewrite length_col.
      apply xdiv_zero_not_fin.
  - intros s lu Hs Hlu Hzero.
    destruct (Hcol (c, lu)) as [Hchain|Hout].
    2:{ exfalso. apply Hout. rewrite Hkeys. apply elem_of_list_prod.
        split; [done|]. apply elem_of_app. by left. }
    eapply (chain_poisoned (hours df) h (c, lu)
              (add_sector sector_lu stat df c lu s));
      [|intros; by eapply Hstep| |exact Hz|exact Hchain].
    + apply list_elem_of_bind. exists c. split; [right|done].
      apply list_elem_of_bind. exists lu. split; [|done].
      by apply (list_elem_of_fmap_2 (λ s, ((c, lu), add_sector _ _ _ c lu s))).
    + intros cur v Hlen (_ & _ & _ & ->)%add_sector_Ok.
      assert (length (scalar_mul (cell sector_lu s lu) (col df (c, s))) = hours df)
        as Hl by by rewrite length_scalar_mul, length_col.
      rewrite (lookup_total_sadd _ _ (hours df)); [|done| |done].
      2:{ by rewrite length_sdiv_scalar. }
      apply xadd_not_fin_r. rewrite lookup_total_sdiv_scalar, Hzero by lia.
      apply xdiv_zero_not_fin.
Qed.

(** ** The load of the country parts and of the subregions *)

(** The load per unit that lines 329-335 use for an hour: the value of the
    row at that hour, and the single value of the row where the table of the
    loads per unit has one hour only, which numpy broadcasts. *)
Definition unit_load (per_unit : TimeFrame (string * string))
    (k : string * string) (h : nat) : xnum :=
  col per_unit k !!! (if decide (hours per_unit = 1) then 0 else h).

(** The terms that lines 329-335 add up for a country part at an hour: for
    the residents and for every land-use category, the count of the part
    times the load per unit of its country. *)
Definition part_terms (landuse_types : list string) (table : Frame)
    (per_unit : TimeFrame (string * string)) (cp : string) (h : nat)
  : list xnum :=
  (λ unit, xmul (cell table cp unit) (unit_load per_unit (country_of cp, unit) h))
    <$> RES :: landuse_types.

Definition part_value (landuse_types : list string) (table : Frame)
    (per_unit : TimeFrame (string * string)) (cp : string) (h : nat) : xnum :=
  xsum (part_terms landuse_types table per_unit cp h).

(** The two tokens of the identifier of a country part. *)
Definition part_key (cp : string) : string * string :=
  (region_of cp, country_of cp).

(** The country parts that are kept (lines 315-316). *)
Definition kept_parts (df_sectors : TimeFrame (string * string)) (table : Frame)
  : list string :=
  filter (λ cp, country_of cp ∈ known_countries df_sectors) (index table).

(** The sum of lines 341-343 for a subregion at an hour, written out: the
    sum, over the countries of the subregion in their sorted order, of the
    sums of the country parts of that subregion and country in the order of
    the table, both as [groupby(...).sum()] computes them. *)
Definition region_value (landuse_types : list string)
    (df_sectors per_unit : TimeFrame (string * string)) (table : Frame)
    (r : string) (h : nat) : xnum :=
  let kept := kept_parts df_sectors table in
  groupsum ((λ rc, groupsum ((λ cp, part_value landuse_types table per_unit cp h)
                               <$> filter (λ cp, part_key cp = rc) kept))
              <$> filter (λ rc, rc.1 = r)
                    (merge_sort pair_le (unique (part_key <$> kept)))).

(** The values of the country parts of a subregion at an hour, in the order
    of the table. *)
Definition region_parts (landuse_types : list string)
    (df_sectors per_unit : TimeFrame (string * string)) (table : Frame)
    (r : string) (h : nat) : list xnum :=
  (λ cp, part_value landuse_types table per_unit cp h)
    <$> filter (λ cp, region_of cp = r) (kept_parts df_sectors table).

(** The updates of one country part in the loop of lines 326-338. *)
Definition country_part_steps (landuse_types : list string)
    (per_unit : TimeFrame (string * string)) (parts : CountryParts) (cp : string)
  : list (string * (Series → result Series)) :=
  (λ unit, (cp, add_units per_unit parts cp
                  (default ""%string (Country parts !! cp)) unit))
    <$> RES :: landuse_types.

Lemma country_part_load_steps (landuse_types : list string)
    (df_sectors per_unit : TimeFrame (string * string)) (parts : CountryParts) :
  country_part_load landuse_types df_sectors per_unit parts
  = run_steps
      (index (stat_sub parts) ≫= country_part_steps landuse_types per_unit parts)
      (tzeros (hours df_sectors) (index (stat_sub parts))).
Proof.
  unfold country_part_load. rewrite <-for_each_run_steps. apply for_each_ext.
  intros cp lcp _. unfold country_part_steps, run_steps.
  rewrite fmap_cons. cbn [for_each fst snd].
  destruct (tupdate _ _ lcp) as [lcp'|e]; [|done].
  rewrite !Ok_bind. by rewrite for_each_fmap.
Qed.

Lemma vadd_Ok (a b v : Series) :
  vadd a b = Ok v ↔
  length a = length b ∧ v = sadd a b
  ∨ length a ≠ length b ∧ length b = 1 ∧ v = (λ y, xadd y (b !!! 0)) <$> a.
Proof.
  unfold vadd, sadd. case_decide as Hlen; split.
  - intros [= <-]. by left.
  - by intros [[_ ->]|[? _]].
  - destruct b as [|x [|??]]; [done| |done]. intros [= <-]. by right.
  - intros [[? _]|(_ & Hb & ->)]; [done|]. by destruct b as [|x [|??]].
Qed.

Lemma vadd_length (a b v : Series) :
  vadd a b = Ok v → length v = length a ∧ (length b = length a ∨ length b = 1).
Proof.
  intros [[Hlen ->]|(Hne & Hb & ->)]%vadd_Ok.
  - split; [by apply length_sadd|by left].
  - split; [apply length_fmap|by right].
Qed.

(** What the addition of lines 329-335 does to an hour. *)
Lemma vadd_hour (a b v : Series) (h : nat) :
  vadd a b = Ok v → h < length a →
  length v = length a
  ∧ v !!! h = xadd (a !!! h) (b !!! (if decide (length b = 1) then 0 else h)).
Proof.
  intros [[Hlen ->]|(Hne & Hb & ->)]%vadd_Ok Hh.
  - split; [by apply length_sadd|].
    rewrite (lookup_total_sadd _ _ (length a)) by done.
    case_decide as Hone; [|done]. by replace h with 0 by lia.
  - split; [apply length_fmap|].
    rewrite decide_True by done. by rewrite lookup_total_fmap_lt.
Qed.

Lemma add_units_Ok (per_unit : TimeFrame (string * string)) (parts : CountryParts)
    (cp c unit : string) (cur v : Series) :
  add_units per_unit parts cp c unit cur = Ok v ↔
  (cp ∈ index (stat_sub parts) ∧ unit ∈ columns (stat_sub parts))
  ∧ (c, unit) ∈ keys per_unit
  ∧ vadd cur (scalar_mul (cell (stat_sub parts) cp unit) (col per_unit (c, unit)))
    = Ok v.
Proof.
  unfold add_units. rewrite bind_Ok. setoid_rewrite bind_Ok.
  setoid_rewrite tget_Ok. setoid_rewrite loc_Ok. split.
  - by intros (n & (? & ? & ->) & u & [? ->] & Hv).
  - intros ([??] & ? & Hv). eauto 10.
Qed.

(** One update of the loop of lines 326-338 adds the count times the load
    per unit to every hour. *)
Lemma add_units_hour (per_unit : TimeFrame (string * string)) (parts : CountryParts)
    (cp c unit : string) (cur v : Series) (h : nat) :
  add_units per_unit parts cp c unit cur = Ok v → h < length cur →
  length v = length cur
  ∧ (hours per_unit = length cur ∨ hours per_unit = 1)
  ∧ v !!! h = xadd (cur !!! h)
                (xmul (cell (stat_sub parts) cp unit) (unit_load per_unit (c, unit) h)).
Proof.
  intros (_ & _ & Hv)%add_units_Ok Hh.
  assert (hours per_unit = length cur ∨ hours per_unit = 1) as Hhours.
  { apply vadd_Ok in Hv as [[Hlen _]|(_ & Hlen & _)];
      rewrite length_scalar_mul, length_col in Hlen; auto. }
  destruct (vadd_hour _ _ _ h Hv Hh) as [Hlen ->].
  split_and!; [done..|]. f_equal. rewrite length_scalar_mul, length_col.
  unfold unit_load. apply lookup_total_scalar_mul. rewrite length_col.
  case_decide; lia.
Qed.

(** The value of every hour of a country part after the loop of lines
    326-338. *)
Lemma country_part_load_col (landuse_types : list string)
    (df_sectors per_unit : TimeFrame (string * string)) (parts : CountryParts)
    (lcp : TimeFrame string) (cp : string) (h : nat) :
  country_part_load landuse_types df_sectors per_unit parts = Ok lcp →
  NoDup (index (stat_sub parts)) →
  cp ∈ index (stat_sub parts) → h < hours df_sectors →
  col lcp cp !!! h
  = xsum ((λ unit, xmul (cell (stat_sub parts) cp unit)
                     (unit_load per_unit
                        (default ""%string (Country parts !! cp), unit) h))
            <$> RES :: landuse_types).
Proof.
  rewrite country_part_load_steps. intros Hrun Hnd Hcp Hh.
  apply run_steps_col in Hrun as (_ & _ & Hcol). simpl in Hcol.
  specialize (Hcol cp). rewrite col_tzeros in Hcol by done.
  rewrite chain_filter in Hcol.
  pose proof (filter_bind_own (index (stat_sub parts)) id
                (country_part_steps landuse_types per_unit parts) cp) as Hown.
  unfold id in Hown. rewrite Hown in Hcol; clear Hown;
    [|by rewrite list_fmap_id|done|].
  2:{ intros y st (unit & -> & _)%list_elem_of_fmap. done. }
  unfold country_part_steps in Hcol.
  apply (chain_additive _ h _ _ _
           (λ unit, xmul (cell (stat_sub parts) cp unit)
                      (unit_load per_unit
                         (default ""%string (Country parts !! cp), unit) h)))
    in Hcol as [_ ->].
  - by rewrite lookup_total_zeros.
  - intros unit cur v _ Hlen Hv.
    destruct (add_units_hour _ _ _ _ _ _ _ h Hv) as (Hlen' & _ & Hval); [lia|].
    split; [congruence|done].
  - apply length_replicate.
Qed.

Lemma filter_filter_implies {A} (P Q : A → Prop) `{∀ x, Decision (P x)}
    `{∀ x, Decision (Q x)} (l : list A) :
  (∀ x, x ∈ l → P x → Q x) → filter P (filter Q l) = filter P l.
Proof.
  intros HPQ. rewrite list_filter_filter. apply filter_ext_in.
  intros x Hx. split; [by intros [? _]|]. intros HP. split; [done|by apply HPQ].
Qed.

(** The stage of lines 310-343, step by step. *)
Lemma subregion_stage_Ok (landuse_types : list string)
    (df_sectors per_unit : TimeFrame (string * string)) (table : Frame)
    (regions : TimeFrame string) :
  subregion_stage landuse_types df_sectors per_unit table = Ok regions →
  ∃ parts lcp,
    add_attributes (known_countries df_sectors) table = Ok parts
    ∧ country_part_load landuse_types df_sectors per_unit parts = Ok lcp
    ∧ regions = aggregate parts lcp
    ∧ index (stat_sub parts) = kept_parts df_sectors table
    ∧ keys lcp = kept_parts df_sectors table
    ∧ hours lcp = hours df_sectors
    ∧ (∀ cp, cp ∈ index table →
         region_country parts cp = part_key cp
         ∧ default ""%string (Country parts !! cp) = country_of cp)
    ∧ (∀ cp unit, cell (stat_sub parts) cp unit = cell table cp unit).
Proof.
  unfold subregion_stage. intros Hrun. inv_bind Hrun. inv_bind Hrun.
  injection Hrun as <-. exists a, a0.
  pose proof Ha as (_ & Hidx & _ & Hcells & Hattr)%add_attributes_Ok.
  pose proof Ha0 as [Hk Hh]%country_part_load_shape.
  split_and!; try done.
  - by rewrite Hk.
  - intros cp Hcp. destruct (Hattr cp Hcp) as [Hr Hc].
    unfold region_country, part_key. by rewrite Hr, Hc.
  - intros cp unit. unfold cell. by rewrite Hcells.
Qed.

(** The value of a country part that is kept. *)
Lemma country_part_value (landuse_types : list string)
    (df_sectors per_unit : TimeFrame (string * string)) (table : Frame)
    (parts : CountryParts) (lcp : TimeFrame string) (cp : string) (h : nat) :
  add_attributes (known_countries df_sectors) table = Ok parts →
  country_part_load landuse_types df_sectors per_unit parts = Ok lcp →
  NoDup (index table) → cp ∈ kept_parts df_sectors table → h < hours df_sectors →
  col lcp cp !!! h = part_value landuse_types table per_unit cp h.
Proof.
  intros Hparts Hlcp Hnd Hcp Hh.
  pose proof Hparts as (_ & Hidx & _ & Hcells & Hattr)%add_attributes_Ok.
  rewrite (country_part_load_col _ _ _ _ _ _ _ Hlcp); [| |by rewrite Hidx|done].
  2:{ rewrite Hidx. by apply NoDup_filter. }
  unfold part_value, part_terms.
  apply list_elem_of_filter in Hcp as [_ Hcp].
  destruct (Hattr cp Hcp) as [_ ->].
  change (default ""%string (Some (country_of cp))) with (country_of cp).
  unfold cell. by rewrite Hcells.
Qed.

(** The value of a subregion in terms of the values of the country parts. *)
Lemma aggregate_value (parts : CountryParts) (lcp : TimeFrame string)
    (r : string) (h : nat) :
  (∀ cp, cp ∈ keys lcp → region_country parts cp = part_key cp) →
  r ∈ keys (aggregate parts lcp) → h < hours lcp →
  col (aggregate parts lcp) r !!! h
  = groupsum ((λ rc, groupsum ((λ cp, col lcp cp !!! h)
                                 <$> filter (λ cp, part_key cp = rc) (keys lcp)))
                <$> filter (λ rc, rc.1 = r)
                      (merge_sort pair_le (unique (part_key <$> keys lcp)))).
Proof.
  intros Hkey Hr Hh. unfold aggregate in *.
  rewrite (groupby_sum_ext pair_le (region_country parts) part_key) in Hr
    by exact Hkey.
  rewrite (groupby_sum_ext pair_le (region_country parts) part_key) by exact Hkey.
  apply elem_of_keys_groupby_sum in Hr.
  rewrite lookup_total_col_groupby_sum; [|exact Hr|exact Hh].
  change (keys (groupby_sum pair_le part_key lcp))
    with (merge_sort pair_le (unique (part_key <$> keys lcp))).
  apply (f_equal groupsum), fmap_ext_in. intros rc [_ Hrc]%list_elem_of_filter.
  rewrite merge_sort_Permutation, elem_of_unique in Hrc.
  by rewrite lookup_total_col_groupby_sum.
Qed.

(** The subregions of the result are the subregion tokens of the country
    parts that are kept. *)
Lemma subregion_stage_keys (landuse_types : list string)
    (df_sectors per_unit : TimeFrame (string * string)) (table : Frame)
    (regions : TimeFrame string) :
  subregion_stage landuse_types df_sectors per_unit table = Ok regions →
  NoDup (keys regions)
  ∧ ∀ r, r ∈ keys regions ↔ ∃ cp, cp ∈ kept_parts df_sectors table ∧ region_of cp = r.
Proof.
  intros Hrun.
  destruct (subregion_stage_Ok _ _ _ _ _ Hrun)
    as (parts & lcp & Hparts & Hlcp & -> & Hidx & Hkeys & Hhours & Hattr & Hcells).
  assert (∀ cp, cp ∈ keys lcp → region_country parts cp = part_key cp) as Hkey.
  { intros cp Hcp. rewrite Hkeys in Hcp.
    apply list_elem_of_filter in Hcp as [_ Hcp]. by apply Hattr. }
  split; [apply NoDup_keys_groupby_sum|].
  intros r. unfold aggregate.
  rewrite (groupby_sum_ext pair_le (region_country parts) part_key) by done.
  rewrite elem_of_keys_groupby_sum, list_elem_of_fmap.
  setoid_rewrite elem_of_keys_groupby_sum.
  setoid_rewrite list_elem_of_fmap. rewrite Hkeys. split.
  - intros ([r' c] & -> & cp & [= -> ->] & Hcp). by exists cp.
  - intros (cp & Hcp & <-). exists (part_key cp). split; [done|]. by exists cp.
Qed.

(** The value of every hour of a subregion of the result. *)
Lemma subregion_stage_value (landuse_types : list string)
    (df_sectors per_unit : TimeFrame (string * string)) (table : Frame)
    (regions : TimeFrame string) (r : string) (h : nat) :
  subregion_stage landuse_types df_sectors per_unit table = Ok regions →
  NoDup (index table) → r ∈ keys regions → h < hours df_sectors →
  col regions r !!! h = region_value landuse_types df_sectors per_unit table r h.
Proof.
  intros Hrun Hnd Hr Hh.
  destruct (subregion_stage_Ok _ _ _ _ _ Hrun)
    as (parts & lcp & Hparts & Hlcp & -> & Hidx & Hkeys & Hhours & Hattr & Hcells).
  assert (∀ cp, cp ∈ keys lcp → region_country parts cp = part_key cp) as Hkey.
  { intros cp Hcp. rewrite Hkeys in Hcp.
    apply list_elem_of_filter in Hcp as [_ Hcp]. by apply Hattr. }
  rewrite aggregate_value by (done || by rewrite Hhours).
  unfold region_value. rewrite Hkeys. simpl.
  apply (f_equal groupsum), fmap_ext_in. intros rc _.
  apply (f_equal groupsum), fmap_ext_in. intros cp [_ Hcp]%list_elem_of_filter.
  by eapply country_part_value.
Qed.

Lemma qsum_qval_not_nan (l : list xnum) :
  qsum (qval <$> l) = qsum (qval <$> filter (λ x, is_nan x = false) l).
Proof.
  induction l as [|x l IH]; [done|]. rewrite filter_cons.
  destruct (decide (is_nan x = false)) as [Hx|Hx].
  - rewrite !fmap_cons. simpl. by rewrite IH.
  - destruct x; try done. rewrite fmap_cons. simpl. rewrite IH. ring.
Qed.

(** The sum of a group without an infinity is the sum of its finite
    values. *)
Lemma groupsum_no_infinity (l : list xnum) :
  Forall (λ x, is_fin x ∨ x = NaN) l → groupsum l = Fin (qsum (qval <$> l)).
Proof.
  intros Hall. rewrite groupsum_skips_nan.
  rewrite (qsum_qval_not_nan l).
  assert (Forall (λ x, is_fin x) (filter (λ x, is_nan x = false) l)) as Hfin.
  { apply Forall_forall. intros x [Hx Hin]%list_elem_of_filter.
    rewrite Forall_forall in Hall. destruct (Hall x Hin) as [?| ->]; done. }
  rewrite (fins_qvals _ Hfin) at 1. apply groupsum_fin.
Qed.

(** The plain sum of the values of a list that are not NaN, when none of the
    values is an infinity. *)
Lemma xsum_not_nan (l : list xnum) :
  Forall (λ x, is_fin x ∨ x = NaN) l →
  xsum (filter (λ x, is_nan x = false) l) = Fin (qsum (qval <$> l)).
Proof.
  intros Hall.
  rewrite (qsum_qval_not_nan l).
  assert (Forall (λ x, is_fin x) (filter (λ x, is_nan x = false) l)) as Hfin.
  { apply Forall_forall. intros x [Hx Hin]%list_elem_of_filter.
    rewrite Forall_forall in Hall. destruct (Hall x Hin) as [?| ->]; done. }
  rewrite (fins_qvals _ Hfin) at 1. apply xsum_fin.
Qed.

(** Where no value of the country parts of a subregion is an infinity, the
    sums of lines 341-343 give the sum of the values that are not NaN. *)
Lemma region_value_no_infinity (landuse_types : list string)
    (df_sectors per_unit : TimeFrame (string * string)) (table : Frame)
    (r : string) (h : nat) :
  Forall (λ x, is_fin x ∨ x = NaN)
    (region_parts landuse_types df_sectors per_unit table r h) →
  region_value landuse_types df_sectors per_unit table r h
  = Fin (qsum (qval <$> region_parts landuse_types df_sectors per_unit table r h)).
Proof.
  intros Hfin. unfold region_value, region_parts in *. simpl.
  set (kept := kept_parts df_sectors table) in *.
  set (f := λ cp, part_value landuse_types table per_unit cp h) in *.
  set (groups := filter (λ rc : string * string, rc.1 = r)
                   (merge_sort pair_le (unique (part_key <$> kept)))).
  assert (∀ rc, rc ∈ groups →
            filter (λ cp, part_key cp = rc) kept
            = filter (λ cp, part_key cp = rc) (filter (λ cp, region_of cp = r) kept))
    as Hgroup.
  { intros rc [Hrc _]%list_elem_of_filter. symmetry.
    apply filter_filter_implies. intros cp _ <-. done. }
  set (l := filter (λ cp, region_of cp = r) kept) in *.
  transitivity
    (groupsum (Fin <$> ((λ rc, qsum ((qval ∘ f) <$> filter (λ cp, part_key cp = rc) l))
                          <$> groups))).
  { rewrite <-list_fmap_compose. apply (f_equal groupsum), fmap_ext_in.
    intros rc Hrc. simpl. rewrite (Hgroup rc Hrc).
    rewrite groupsum_no_infinity; [by rewrite <-list_fmap_compose|].
    apply Forall_fmap, Forall_forall. intros cp [_ Hcp]%list_elem_of_filter.
    rewrite Forall_fmap, Forall_forall in Hfin. by apply Hfin. }
  rewrite groupsum_fin. f_equal. rewrite <-list_fmap_compose.
  apply (qsum_groups part_key (qval ∘ f)).
  - apply NoDup_filter. rewrite merge_sort_Permutation. apply NoDup_unique.
  - intros cp Hcp. apply list_elem_of_filter. pose proof Hcp as [? ?]%list_elem_of_filter.
    split; [done|]. rewrite merge_sort_Permutation.
    apply elem_of_unique. by apply list_elem_of_fmap_2.
Qed.



(** C4, as amended: in a run of the stage of lines 310-343 on a table whose
    row labels are distinct, the value of every hour of every country part
    with a known country is the count of its residents times the residential
    load per unit of its country plus, over the land-use categories, its
    count of the category times the load per unit of its country for the
    category (a table of loads per unit with a single hour serves every
    hour); the subregions of the result are the subregion tokens of the kept
    country parts; the value of every hour of a subregion is the sum that
    [groupby(...).sum()] computes, over the countries of the subregion in
    sorted order, of the sums it computes of the values of the country parts
    of that subregion and country; where none of these values is an
    infinity, that is the sum of the values of the country parts of the
    subregion that are not NaN, a NaN value being skipped and not
    propagated; and where all of them are finite it is their plain sum. *)
Theorem C4_country_parts_and_subregions (landuse_types : list string)
    (df_sectors per_unit : TimeFrame (string * string)) (table : Frame)
    (regions : TimeFrame string) :
  subregion_stage landuse_types df_sectors per_unit table = Ok regions →
  NoDup (index table) →
  (∀ parts lcp cp h,
     add_attributes (known_countries df_sectors) table = Ok parts →
     country_part_load landuse_types df_sectors per_unit parts = Ok lcp →
     cp ∈ index table → country_of cp ∈ known_countries df_sectors →
     h < hours df_sectors →
     cp ∈ keys lcp
     ∧ col lcp cp !!! h = part_value landuse_types table per_unit cp h)
  ∧ (∀ r, r ∈ keys regions ↔ ∃ cp, cp ∈ kept_parts df_sectors table ∧ region_of cp = r)
  ∧ (∀ r h, r ∈ keys regions → h < hours df_sectors →
       col regions r !!! h
       = region_value landuse_types df_sectors per_unit table r h)
  ∧ (∀ r h, r ∈ keys regions → h < hours df_sectors →
       Forall (λ x, is_fin x ∨ x = NaN)
         (region_parts landuse_types df_sectors per_unit table r h) →
       col regions r !!! h
       = xsum (filter (λ x, is_nan x = false)
                 (region_parts landuse_types df_sectors per_unit table r h)))
  ∧ (∀ r h, r ∈ keys regions → h < hours df_sectors →
       (∀ cp, cp ∈ kept_parts df_sectors table → region_of cp = r →
          is_fin (part_value landuse_types table per_unit cp h)) →
       col regions r !!! h
       = xsum ((λ cp, part_value landuse_types table per_unit cp h)
                 <$> filter (λ cp, region_of cp = r) (kept_parts df_sectors table))).
Proof.
  intros Hrun Hnd. split_and!.
  - intros parts lcp cp h Hparts Hlcp Hcp Hknown Hh.
    assert (cp ∈ kept_parts df_sectors table) as Hkept
      by by apply list_elem_of_filter.
    split; [|by eapply country_part_value].
    apply country_part_load_shape in Hlcp as [-> _].
    by apply add_attributes_Ok in Hparts as (_ & -> & _).
  - by apply subregion_stage_keys in Hrun as [_ ?].
  - intros r h Hr Hh. by apply subregion_stage_value.
  - intros r h Hr Hh Hfin.
    rewrite (subregion_stage_value _ _ _ _ _ _ _ Hrun) by done.
    by rewrite region_value_no_infinity, xsum_not_nan.
  - intros r h Hr Hh Hfin.
    rewrite (subregion_stage_value _ _ _ _ _ _ _ Hrun) by done.
    assert (Forall (λ x, is_fin x)
              (region_parts landuse_types df_sectors per_unit table r h)) as Hall.
    { apply Forall_fmap, Forall_forall. intros cp [? ?]%list_elem_of_filter.
      by apply Hfin. }
    rewrite region_value_no_infinity.
    + fold (region_parts landuse_types df_sectors per_unit table r h).
      rewrite (fins_qvals _ Hall) at 2. by rewrite xsum_fin.
    + eapply Forall_impl; [exact Hall|]. by left.
Qed.

Module Zero_count.

(** Two countries in one subregion; no resident is counted in the first
    country. *)
Definition inp : Inputs :=
  {| load := {| sectors := ["IND"; "RES"]; default_sec_shares := "DE" |};
     assumptions_landuse := Example.frame ["IND"] [("1", [int 1])];
     sector_shares_clean := Example.frame ["IND"; "RES"] [("DE", [frac 1 2; frac 1 2])];
     load_ts_clean := Example.timeframe 1 [("AT", [int 100]); ("DE", [int 50])];
     sectoral_profiles := Example.timeframe 1 [("IND", [int 1]); ("RES", [int 1])];
     zonal_stats_countries :=
       Example.frame ["RES"; "1"] [("AT", [int 0; int 10]); ("DE", [int 100; int 10])];
     zonal_stats_country_parts :=
       Example.frame ["RES"; "1"]
         [("N_AT", [int 0; int 10]); ("N_DE", [int 100; int 10])] |}.

(** The tables of the run on these inputs that the later stages read. *)
Definition sector_lu : Frame := sector_landuse (assumptions_landuse inp) (load inp).

Definition stat : Frame :=
  Example.frame ["RES"; "1"; "IND"]
    [("AT", [int 0; int 10; int 10]); ("DE", [int 100; int 10; int 10])].

Definition df_sectors : TimeFrame (string * string) :=
  Example.timeframe 1
    [(("AT", "IND"), [int 50]); (("AT", "RES"), [int 50]);
     (("DE", "IND"), [int 25]); (("DE", "RES"), [int 25])].

Definition per_unit : TimeFrame (string * string) :=
  Example.timeframe 1
    [(("AT", "1"), [int 5]); (("AT", "RES"), [PInf]);
     (("DE", "1"), [frac 5 2]); (("DE", "RES"), [frac 1 4])].

End Zero_count.

Lemma C3_zero_counts_are_not_guarded_witness :
  ∃ t, per_unit_load (load_ts_clean Zero_count.inp) Zero_count.sector_lu ["1"]
         Zero_count.stat Zero_count.df_sectors = Ok t
       ∧ is_fin (col t ("AT", RES) !!! 0) = false.
Proof.
  destruct (per_unit_load (load_ts_clean Zero_count.inp) Zero_count.sector_lu ["1"]
              Zero_count.stat Zero_count.df_sectors) as [t|e] eqn:Hrun.
  - exists t. split; [done|].
    pose proof (C3_zero_counts_are_not_guarded (load_ts_clean Zero_count.inp)
                  Zero_count.sector_lu ["1"] Zero_count.stat Zero_count.df_sectors
                  t "AT" 0 Hrun) as HC.
    clear Hrun. apply HC.
    + by_evaluation.
    + simpl. lia.
    + by_evaluation.
  - run_completes Hrun.
Defined.

(** C3 as stated fails for a country without residents: the run completes,
    the residential load per unit of the country is the infinity 50/0 and not
    zero, and the value of the part of that country, 0 times that infinity
    plus a finite term, is NaN. *)
Lemma C3_zero_count_counterexample :
  cell (zonal_stats_countries Zero_count.inp) "AT" RES = zero
  ∧ (r ← generate_load_timeseries Zero_count.inp no_files;
     Ok (hourly (load_landuse r.1) ("AT", RES) 0)) = Ok PInf
  ∧ PInf ≠ zero
  ∧ (r ← generate_load_timeseries Zero_count.inp no_files;
     per_unit ← read_csv (load_landuse r.1);
     Ok (part_value ["1"] (zonal_stats_country_parts Zero_count.inp) per_unit
           "N_AT" 0)) = Ok NaN.
Proof. split_and!; by_evaluation. Qed.

Lemma C4_country_parts_and_subregions_witness :
  ∃ regions,
    subregion_stage ["1"] Zero_count.df_sectors Zero_count.per_unit
      (zonal_stats_country_parts Zero_count.inp) = Ok regions
    ∧ col regions "N" !!! 0
      = region_value ["1"] Zero_count.df_sectors Zero_count.per_unit
          (zonal_stats_country_parts Zero_count.inp) "N" 0
    ∧ col regions "N" !!! 0
      = xsum (filter (λ x, is_nan x = false)
                (region_parts ["1"] Zero_count.df_sectors Zero_count.per_unit
                   (zonal_stats_country_parts Zero_count.inp) "N" 0)).
Proof.
  destruct (subregion_stage ["1"] Zero_count.df_sectors Zero_count.per_unit
              (zonal_stats_country_parts Zero_count.inp)) as [regions|e] eqn:Hrun.
  - exists regions. split; [done|].
    assert (NoDup (index (zonal_stats_country_parts Zero_count.inp))) as Hnd
      by by_evaluation.
    pose proof (C4_country_parts_and_subregions ["1"] Zero_count.df_sectors
                  Zero_count.per_unit (zonal_stats_country_parts Zero_count.inp)
                  regions Hrun Hnd) as (_ & Hkeys & Hvalue & Hskip & _).
    clear Hrun.
    assert ("N" ∈ keys regions) as Hr.
    { apply Hkeys. exists "N_AT". split; by_evaluation. }
    split.
    + apply Hvalue; [exact Hr|simpl; lia].
    + apply Hskip; [exact Hr|simpl; lia|by_evaluation].
  - run_completes Hrun.
Defined.

(** C4 as stated fails when the value of a country part is NaN: the sum of
    line 341 skips it, so the subregion gets 50, which is not the sum
    NaN + 50 = NaN of the values of its two country parts. *)
Lemma C4_nan_is_skipped_counterexample :
  (regions ← subregion_stage ["1"] Zero_count.df_sectors Zero_count.per_unit
               (zonal_stats_country_parts Zero_count.inp);
   Ok (col regions "N" !!! 0)) = Ok (int 50)
  ∧ (λ cp, part_value ["1"] (zonal_stats_country_parts Zero_count.inp)
             Zero_count.per_unit cp 0)
      <$> filter (λ cp, region_of cp = "N")
            (kept_parts Zero_count.df_sectors
               (zonal_stats_country_parts Zero_count.inp))
    = [NaN; int 50]
  ∧ xsum [NaN; int 50] ≠ int 50.
Proof. split_and!; by_evaluation. Qed.

(** For the record: an infinity is not skipped, and the compensated sum of
    line 343 turns an infinity that is followed by the value of another
    country into NaN.  With one resident counted in the part of the first
    country, the values of the two country parts are an infinity and 50, and
    the subregion gets NaN. *)
Lemma infinity_then_value_is_nan :
  let table := Example.frame ["RES"; "1"]
                 [("N_AT", [int 1; int 10]); ("N_DE", [int 100; int 10])] in
  region_parts ["1"] Zero_count.df_sectors Zero_count.per_unit table "N" 0
  = [PInf; int 50]
  ∧ (regions ← subregion_stage ["1"] Zero_count.df_sectors Zero_count.per_unit table;
     Ok (col regions "N" !!! 0)) = Ok NaN.
Proof. split; by_evaluation. Qed.

(** The tables of the example are those of the run on its inputs. *)
Lemma Zero_count_tables :
  (r ← generate_load_timeseries Zero_count.inp no_files;
   df ← read_csv (df_sector r.1);
   per_unit ← read_csv (load_landuse r.1);
   Ok ((λ k, (k, col df k)) <$> keys df,
       (λ k, (k, col per_unit k)) <$> keys per_unit))
  = Ok ((λ k, (k, col Zero_count.df_sectors k)) <$> keys Zero_count.df_sectors,
        (λ k, (k, col Zero_count.per_unit k)) <$> keys Zero_count.per_unit).
Proof. by_evaluation. Qed.

(** ** The weighted counts and the loads per unit *)

Lemma cell_set_column (f : Frame) (c : string) (g : string → xnum) (r c' : string) :
  cell (set_column f c g) r c'
  = if decide (c' = c ∧ r ∈ index f) then g r else cell f r c'.
Proof.
  unfold cell, set_column; simpl. generalize (cells f). intros m.
  induction (index f) as [|r0 l IH]; simpl.
  - rewrite decide_False; [done|]. by intros [_ ?%elem_of_nil].
  - destruct (decide ((r0, c) = (r, c'))) as [[= -> ->]|Hne].
    + rewrite lookup_insert_eq, decide_True; [done|]. split; [done|left].
    + rewrite lookup_insert_ne, IH by done.
      destruct (decide (c' = c ∧ r ∈ l)) as [[-> ?]|Hn].
      * rewrite decide_True; [done|]. split; [done|by right].
      * rewrite decide_False; [done|].
        intros [-> [->|?]%elem_of_cons]; [done|]. by apply Hn.
Qed.

Lemma zip_with_fmap_same {A} (f g : A → xnum) (op : xnum → xnum → xnum)
    (l : list A) :
  zip_with op (f <$> l) (g <$> l) = (λ x, op (f x) (g x)) <$> l.
Proof. induction l as [|x l IH]; csimpl; [done|]. by rewrite IH. Qed.

(** The table of counts after the loop of lines 219-220, when no sector has
    the label of a land-use category: the old columns are as they were, and
    the column of a sector holds the counts of the categories weighted by the
    sector's coefficients. *)
Lemma weighted_stat (sector_lu : Frame) (landuse_types : list string)
    (stat0 stat : Frame) :
  for_each (sec sector_lu) (weight_by_sector sector_lu landuse_types) stat0
  = Ok stat →
  columns sector_lu = landuse_types →
  (∀ s, s ∈ sec sector_lu → s ∉ landuse_types) →
  index stat = index stat0
  ∧ (∀ c u, u ∉ sec sector_lu → cell stat c u = cell stat0 c u)
  ∧ (∀ c s, c ∈ index stat0 → s ∈ sec sector_lu →
       cell stat c s
       = xsum ((λ lu, xmul (cell stat0 c lu) (cell sector_lu s lu))
                 <$> landuse_types)).
Proof.
  intros Hrun Hcols Hdisj.
  pose (P := λ (past : list string) (st : Frame),
    (∀ s, s ∈ past → s ∈ sec sector_lu)
    ∧ index st = index stat0
    ∧ (∀ c u, u ∉ past → cell st c u = cell stat0 c u)
    ∧ (∀ c s, c ∈ index stat0 → s ∈ past →
         cell st c s
         = xsum ((λ lu, xmul (cell stat0 c lu) (cell sector_lu s lu))
                   <$> landuse_types))).
  cut (P (sec sector_lu) stat); [by intros (_ & ? & ? & ?)|].
  eapply (for_each_invariant P); [| |exact Hrun].
  { split_and!; [by intros s ?%elem_of_nil|done..|]. by intros c s _ ?%elem_of_nil. }
  clear stat Hrun. intros past s st st' Hs (Hsub & Hidx & Hold & Hnew) Hstep.
  unfold weight_by_sector in Hstep. case_decide; [|done].
  inv_bind Hstep. injection Hstep as <-.
  unfold row in Ha. case_decide; [|done]. injection Ha as <-.
  assert (∀ c, np_dot st landuse_types (cell sector_lu s <$> columns sector_lu) c
               = xsum ((λ lu, xmul (cell stat0 c lu) (cell sector_lu s lu))
                         <$> landuse_types)) as Hdot.
  { intros c. unfold np_dot. rewrite Hcols, zip_with_fmap_same. f_equal.
    apply fmap_ext_in. intros lu Hlu. rewrite Hold; [done|].
    intros Hpast. by apply (Hdisj lu); [apply Hsub|]. }
  assert (∀ u, u ∈ past ++ [s] ↔ u ∈ past ∨ u = s) as Hsnoc.
  { intros u. by rewrite elem_of_app, list_elem_of_singleton. }
  split_and!.
  - intros u [?| ->]%Hsnoc; auto.
  - done.
  - intros c u Hu. rewrite cell_set_column, decide_False.
    + apply Hold. intros ?. apply Hu, Hsnoc. by left.
    + intros [-> _]. apply Hu, Hsnoc. by right.
  - intros c u Hc Hu. rewrite cell_set_column.
    case_decide as Hd; [by destruct Hd as [-> _]|].
    apply Hsnoc in Hu as [Hu| ->]; [by apply Hnew|].
    exfalso. apply Hd. by rewrite Hidx.
Qed.

(** The steps on one label in a loop whose rounds work on the labels of
    their own item. *)
Lemma filter_bind_fst {A B V} `{EqDecision A} `{EqDecision B} (l : list A)
    (g : A → list (A * B * V)) (x : A) (y : B) :
  NoDup l → x ∈ l → (∀ a st, st ∈ g a → st.1.1 = a) →
  filter (λ st, st.1 = (x, y)) (l ≫= g) = filter (λ st, st.1 = (x, y)) (g x).
Proof.
  intros Hnd Hx Hown. induction Hnd as [|a l Ha Hnd IH]; [by apply elem_of_nil in Hx|].
  rewrite bind_cons, filter_app. destruct (decide (a = x)) as [->|Hne].
  - rewrite (filter_none _ (l ≫= g)); [apply app_nil_r|].
    intros st (z & Hst & Hz)%list_elem_of_bind Hk. apply Ha.
    apply Hown in Hst. rewrite Hk in Hst. simpl in Hst. by subst.
  - apply elem_of_cons in Hx as [?|Hx]; [by subst|]. rewrite IH by done.
    rewrite filter_none; [done|]. intros st Hst Hk. apply Hne.
    apply Hown in Hst. by rewrite Hk in Hst.
Qed.

Lemma NoDup_countries (df_load_countries : TimeFrame string) (stat : Frame) :
  NoDup (countries df_load_countries stat).
Proof. apply NoDup_sorted, NoDup_elements. Qed.

Lemma elem_of_countries (df_load_countries : TimeFrame string) (stat : Frame)
    (c : string) :
  c ∈ countries df_load_countries stat ↔ c ∈ index stat ∧ c ∈ keys df_load_countries.
Proof.
  unfold countries. rewrite elem_of_sorted, elem_of_elements, elem_of_intersection.
  by rewrite !elem_of_list_to_set.
Qed.

(** The steps of the loop of lines 267-273 on the residential row of a
    country and on its row of a land-use category. *)
Lemma per_unit_steps_RES (sector_lu : Frame) (landuse_types : list string)
    (stat : Frame) (df : TimeFrame (string * string)) (c : string) :
  RES ∉ landuse_types →
  filter (λ st, st.1 = (c, RES)) (per_unit_steps sector_lu landuse_types stat df c)
  = [((c, RES), add_residential stat df c)].
Proof.
  intros Hres. unfold per_unit_steps. rewrite filter_cons_True by done.
  f_equal. apply filter_none.
  intros st (lu & (s & -> & _)%list_elem_of_fmap & Hlu)%list_elem_of_bind [= Heq].
  by rewrite Heq in Hlu.
Qed.

Lemma per_unit_steps_lu (sector_lu : Frame) (landuse_types : list string)
    (stat : Frame) (df : TimeFrame (string * string)) (c lu : string) :
  NoDup landuse_types → RES ∉ landuse_types → lu ∈ landuse_types →
  filter (λ st, st.1 = (c, lu)) (per_unit_steps sector_lu landuse_types stat df c)
  = (λ s, ((c, lu), add_sector sector_lu stat df c lu s)) <$> sec sector_lu.
Proof.
  intros Hnd Hres Hlu. unfold per_unit_steps.
  rewrite filter_cons_False by (intros [= Heq]; by rewrite <-Heq in Hlu).
  apply (filter_bind_own landuse_types (λ lu, (c, lu))
           (λ lu, (λ s, ((c, lu), add_sector sector_lu stat df c lu s))
                    <$> sec sector_lu)); [|done|].
  - apply NoDup_fmap_2; [|done]. by intros ?? [=].
  - by intros y st (s & -> & _)%list_elem_of_fmap.
Qed.

(** The loads per unit of a country at an hour. *)
Lemma per_unit_values (df_load_countries : TimeFrame string)
    (sector_lu : Frame) (landuse_types : list string) (stat : Frame)
    (df per_unit : TimeFrame (string * string)) (c : string) (h : nat) :
  per_unit_load df_load_countries sector_lu landuse_types stat df = Ok per_unit →
  NoDup landuse_types → RES ∉ landuse_types →
  c ∈ countries df_load_countries stat → h < hours df →
  col per_unit (c, RES) !!! h
  = xadd zero (xdiv (col df (c, RES) !!! h) (cell stat c RES))
  ∧ ∀ lu, lu ∈ landuse_types →
      col per_unit (c, lu) !!! h
      = xsum ((λ s, xdiv (xmul (cell sector_lu s lu) (col df (c, s) !!! h))
                      (cell stat c s)) <$> sec sector_lu).
Proof.
  intros Hrun Hnd Hres Hc Hh.
  apply per_unit_load_col in Hrun as (Hhours & Hkeys & Hcol).
  assert (∀ unit, unit ∈ landuse_types ++ [RES] →
            chain (hours df) (c, unit)
              (filter (λ st, st.1 = (c, unit))
                 (per_unit_steps sector_lu landuse_types stat df c))
              (zeros (hours df)) = Ok (col per_unit (c, unit))) as Hchain.
  { intros unit Hunit. destruct (Hcol (c, unit)) as [Hk|Hout].
    - rewrite chain_filter in Hk. rewrite filter_bind_fst in Hk; [done| |done|].
      + apply NoDup_countries.
      + intros a st [->|(lu & (s & -> & _)%list_elem_of_fmap & _)%list_elem_of_bind]%elem_of_cons;
          done.
    - exfalso. apply Hout. rewrite Hkeys. by apply elem_of_list_prod. }
  assert (length (zeros (hours df)) = hours df) as Hz by apply length_replicate.
  split.
  - specialize (Hchain RES). rewrite per_unit_steps_RES in Hchain by done.
    simpl in Hchain. rewrite decide_True in Hchain by done.
    rewrite bind_Ok in Hchain. destruct Hchain as (v & Hv & [= <-]); [set_solver|].
    apply add_residential_Ok in Hv as (_ & _ & _ & ->).
    assert (length (sdiv_scalar (col df (c, RES)) (cell stat c RES)) = hours df) as Hl
      by by rewrite length_sdiv_scalar, length_col.
    rewrite resize_same by by apply length_sadd.
    rewrite (lookup_total_sadd _ _ (hours df)) by done.
    rewrite lookup_total_zeros, lookup_total_sdiv_scalar by (by rewrite ?length_col).
    done.
  - intros lu Hlu. specialize (Hchain lu).
    rewrite per_unit_steps_lu in Hchain by done.
    apply (chain_additive _ h _ _ _
             (λ s, xdiv (xmul (cell sector_lu s lu) (col df (c, s) !!! h))
                     (cell stat c s))) in Hchain as [_ ->]; [| |done|set_solver].
    + by rewrite lookup_total_zeros.
    + intros s cur v _ Hlen (_ & _ & _ & ->)%add_sector_Ok.
      assert (length (scalar_mul (cell sector_lu s lu) (col df (c, s))) = hours df)
        as Hl by by rewrite length_scalar_mul, length_col.
      split; [apply length_sadd; [done|by rewrite length_sdiv_scalar]|].
      rewrite (lookup_total_sadd _ _ (hours df)); [|done|by rewrite length_sdiv_scalar|done].
      rewrite lookup_total_sdiv_scalar, lookup_total_scalar_mul;
        [done|by rewrite length_col|lia].
Qed.

(** ** Conservation of the load *)

Lemma xsum_fin_map {A} (f : A → Qc) (l : list A) :
  xsum ((λ x, Fin (f x)) <$> l) = Fin (qsum (f <$> l)).
Proof.
  change ((λ x, Fin (f x)) <$> l) with ((Fin ∘ f) <$> l).
  rewrite list_fmap_compose. apply xsum_fin.
Qed.







(** Quantification over the members of a list is decidable. *)
#[global] Instance forall_elem_of_dec {A} (P : A → Prop) `{∀ x, Decision (P x)}
    (l : list A) : Decision (∀ x, x ∈ l → P x).
Proof.
  refine (cast_if (decide (Forall P l))); by rewrite Forall_forall in *.
Defined.




Module Closed_system.

(** The worked example without the country part of an unknown country: the
    counts of the two parts of the country add up to its counts. *)
Definition inp : Inputs :=
  {| load := load Example.inp;
     assumptions_landuse := assumptions_landuse Example.inp;
     sector_shares_clean := sector_shares_clean Example.inp;
     load_ts_clean := load_ts_clean Example.inp;
     sectoral_profiles := sectoral_profiles Example.inp;
     zonal_stats_countries := zonal_stats_countries Example.inp;
     zonal_stats_country_parts :=
       Example.frame ["RES"; "1"; "2"]
         [("N_AT", [int 600; int 4; int 5]); ("S_AT", [int 400; int 6; int 0])] |}.

End Closed_system.



(** * Further properties of [generate_load_timeseries] *)

(** ** Weighting by sector (lines 218-220) *)

(** X1: after the loop of lines 219-220, when no configured sector is named
    like a land-use category, the table of counts has its old rows and
    columns unchanged, and the column of every sector that the configuration
    shares with the assumptions table holds, for every country, the counts of
    the land-use categories weighted by the normalized coefficients of the
    sector. *)
Theorem X1_weighted_counts (a : Frame) (p : LoadParam) (stat0 stat : Frame) :
  let sector_lu := sector_landuse a p in
  let landuse_types := landuse_types_of (restricted_assumptions a p) in
  for_each (sec sector_lu) (weight_by_sector sector_lu landuse_types) stat0
  = Ok stat →
  (∀ s, s ∈ sectors p → s ∉ landuse_types) →
  index stat = index stat0
  ∧ (∀ c u, u ∉ sec sector_lu → cell stat c u = cell stat0 c u)
  ∧ (∀ c s, c ∈ index stat0 → s ∈ sec sector_lu →
       cell stat c s
       = xsum ((λ lu, xmul (cell stat0 c lu) (cell sector_lu s lu))
                 <$> landuse_types)).
Proof.
  intros sector_lu landuse_types Hrun Hdisj.
  apply (weighted_stat sector_lu landuse_types); [done|done|].
  intros s [_ Hs]%elem_of_sec_sector_landuse. by apply Hdisj.
Qed.

Lemma X1_weighted_counts_witness :
  ∃ stat,
    for_each (sec (sector_landuse (assumptions_landuse Example.inp) (load Example.inp)))
      (weight_by_sector
         (sector_landuse (assumptions_landuse Example.inp) (load Example.inp))
         ["1"; "2"])
      (zonal_stats_countries Example.inp) = Ok stat
    ∧ index stat = ["AT"].
Proof.
  destruct (for_each _ _ _) as [stat|e] eqn:Hrun.
  - exists stat. split; [done|].
    pose proof (X1_weighted_counts (assumptions_landuse Example.inp) (load Example.inp)
                  (zonal_stats_countries Example.inp) stat Hrun) as HC.
    clear Hrun. cbv zeta in HC. destruct HC as (HC & _); [by_evaluation|].
    by rewrite HC.
  - run_completes Hrun.
Defined.

(** X2: when the configuration shares a sector with the assumptions table
    and a land-use category of that table is no column of the table of
    counts, the selection [stat.loc[:, landuse_types]] of line 220 raises
    [KeyError] and the run ends there, before any file but the counts is
    written. *)
Theorem X2_missing_landuse_column (inp : Inputs) (fs : Files) (s lu : string) :
  let stat0 := cached (stats_countries fs) (zonal_stats_countries inp) in
  s ∈ columns (assumptions_landuse inp) → s ∈ sectors (load inp) →
  lu ∈ index (assumptions_landuse inp) → lu ∉ columns stat0 →
  generate_load_timeseries inp fs = Raise KeyError.
Proof.
  intros stat0 Hs1 Hs2 Hlu Hcol. unfold generate_load_timeseries.
  fold stat0.
  set (sector_lu := sector_landuse (assumptions_landuse inp) (load inp)).
  set (landuse_types :=
         landuse_types_of (restricted_assumptions (assumptions_landuse inp) (load inp))).
  assert (s ∈ sec sector_lu) as Hsec by by apply elem_of_sec_sector_landuse.
  assert (∀ x st, columns st = columns stat0 →
            weight_by_sector sector_lu landuse_types x st = Raise KeyError) as Hw.
  { intros x st Hst. unfold weight_by_sector. rewrite decide_False; [done|].
    intros Hall. rewrite Forall_forall in Hall. apply Hcol.
    rewrite <-Hst. by apply Hall. }
  destruct (sec sector_lu) as [|x l] eqn:Hl; [by apply elem_of_nil in Hsec|].
  cbn [for_each]. by rewrite Hw.
Qed.

Lemma X2_missing_landuse_column_witness :
  generate_load_timeseries
    {| load := load Example.inp;
       assumptions_landuse := assumptions_landuse Example.inp;
       sector_shares_clean := sector_shares_clean Example.inp;
       load_ts_clean := load_ts_clean Example.inp;
       sectoral_profiles := sectoral_profiles Example.inp;
       zonal_stats_countries := Example.frame ["RES"; "1"] [("AT", [int 1000; int 10])];
       zonal_stats_country_parts := zonal_stats_country_parts Example.inp |}
    no_files
  = Raise KeyError.
Proof.
  apply (X2_missing_landuse_column _ no_files "IND" "2"); by_evaluation.
Defined.

(** ** The loads per unit (lines 258-273) *)

(** X3: the table of the loads per unit has one row for every country that
    has both counts and a load and for every land-use category and [RES], has
    the hours of the sectoral table, and holds, when the categories are
    distinct and none is named [RES]: in the residential row of a country,
    its residential load divided by its count of residents; in the row of a
    land-use category, the sum over the shared sectors of the coefficient of
    the sector for the category times the load of the sector divided by the
    weighted count of the sector. *)
Theorem X3_load_per_unit (df_load_countries : TimeFrame string)
    (sector_lu : Frame) (landuse_types : list string) (stat : Frame)
    (df per_unit : TimeFrame (string * string)) :
  per_unit_load df_load_countries sector_lu landuse_types stat df = Ok per_unit →
  NoDup landuse_types → RES ∉ landuse_types →
  hours per_unit = hours df
  ∧ keys per_unit
    = list_prod (countries df_load_countries stat) (landuse_types ++ [RES])
  ∧ (∀ c, c ∈ countries df_load_countries stat ↔
          c ∈ index stat ∧ c ∈ keys df_load_countries)
  ∧ ∀ c h, c ∈ countries df_load_countries stat → h < hours df →
      col per_unit (c, RES) !!! h
      = xadd zero (xdiv (col df (c, RES) !!! h) (cell stat c RES))
      ∧ ∀ lu, lu ∈ landuse_types →
          col per_unit (c, lu) !!! h
          = xsum ((λ s, xdiv (xmul (cell sector_lu s lu) (col df (c, s) !!! h))
                          (cell stat c s)) <$> sec sector_lu).
Proof.
  intros Hrun Hnd Hres.
  pose proof Hrun as (Hh & Hk & _)%per_unit_load_col.
  split_and!; [done|done|apply elem_of_countries|].
  intros c h Hc Hlt. by eapply per_unit_values.
Qed.

Lemma X3_load_per_unit_witness :
  ∃ t, per_unit_load (load_ts_clean Zero_count.inp) Zero_count.sector_lu ["1"]
         Zero_count.stat Zero_count.df_sectors = Ok t
       ∧ hours t = 1.
Proof.
  destruct (per_unit_load (load_ts_clean Zero_count.inp) Zero_count.sector_lu ["1"]
              Zero_count.stat Zero_count.df_sectors) as [t|e] eqn:Hrun.
  - exists t. split; [done|].
    pose proof (X3_load_per_unit _ _ _ _ _ _ Hrun) as HC. clear Hrun.
    destruct HC as (HC & _); [by_evaluation..|]. by rewrite HC.
  - run_completes Hrun.
Defined.

(** ** Sectors that are not rescaled (lines 249-252) *)

(** X4: a configured sector that is neither [RES] nor a column of the
    assumptions table is copied by the loop of lines 240-245 but not rescaled
    by the loop of lines 250-252: in the saved sectoral table its column
    still holds the profile of the sector times the share, not a part of the
    load of the country. *)
Theorem X4_missing_sector_is_not_rescaled (inp : Inputs) (fs fs' : Files)
    (log : list event) (c s : string) (h : nat) :
  generate_load_timeseries inp fs = Ok (fs', log) →
  sectoral_files_exist fs = false →
  NoDup (keys (load_ts_clean inp)) → RES ∉ columns (assumptions_landuse inp) →
  s ∉ columns (assumptions_landuse inp) → s ≠ RES →
  hourly (df_sector fs') (c, s) h = raw_sector_load inp c s h.
Proof.
  intros Hrun Hex Hcs Hnres Hs Hne.
  apply generate_computes in Hrun
    as (stat & raw & df & per_unit & regions & _ & Hraw & Hdf & _ & _ & -> & _);
    [|done].
  unfold raw_sector_load. rewrite Hraw. cbn [hourly].
  apply rescale_col in Hdf as (_ & _ & _ & Hkeep); [| done |].
  - rewrite Hkeep; [done|]. intros [_ Hin]. apply elem_of_app in Hin as [Hin|Hin].
    + by apply elem_of_sec_sector_landuse in Hin as [? _].
    + by apply list_elem_of_singleton in Hin.
  - apply NoDup_app. split_and!.
    + apply NoDup_sec_sector_landuse.
    + intros x [Hx _]%elem_of_sec_sector_landuse ->%list_elem_of_singleton. done.
    + apply NoDup_singleton.
Qed.

Lemma X4_missing_sector_is_not_rescaled_witness :
  ∃ fs', (∃ log, generate_load_timeseries C7_example.inp no_files = Ok (fs', log))
    ∧ hourly (df_sector fs') ("AT", "TRA") 0
      = raw_sector_load C7_example.inp "AT" "TRA" 0.
Proof.
  destruct (generate_load_timeseries C7_example.inp no_files)
    as [[fs' log]|e] eqn:Hgen.
  - exists fs'. split; [by eexists|].
    pose proof (X4_missing_sector_is_not_rescaled C7_example.inp no_files fs' log
                  "AT" "TRA" 0 Hgen) as HC.
    clear Hgen. apply HC; by_evaluation.
  - run_completes Hgen.
Defined.

(** ** Missing profiles and shares (lines 240-245) *)

Lemma for_each_Raise {A S} (l : list A) (body : A → S → result S) (s : S) (e : exn) :
  for_each l body s = Raise e → ∃ x s', x ∈ l ∧ body x s' = Raise e.
Proof.
  revert s. induction l as [|x l IH]; intros s Hrun; simpl in Hrun; [done|].
  destruct (body x s) as [s'|e'] eqn:Hx.
  - rewrite Ok_bind in Hrun. destruct (IH _ Hrun) as (y & s'' & ? & ?).
    exists y, s''. split; [by right|done].
  - injection Hrun as ->. exists x, s. split; [left|done].
Qed.

Lemma sector_profile_Raise (p : LoadParam) (sec_share : Frame)
    (profiles : TimeFrame string) (c s : string) (e : exn) :
  sector_profile p sec_share profiles c s = Raise e → e = KeyError.
Proof.
  unfold sector_profile.
  destruct (tget profiles s) as [prof|e'] eqn:Hprof; simpl.
  - destruct (loc sec_share c s) as [x|e1] eqn:H1; simpl; [done|].
    apply loc_KeyError in H1 as [-> _].
    destruct (loc sec_share (default_sec_shares p) s) as [x|e2] eqn:H2; simpl;
      [done|].
    apply loc_KeyError in H2 as [-> _]. by intros [= <-].
  - apply tget_Raise in Hprof as [-> _]. by intros [= <-].
Qed.

(** X5: the handler of lines 244-245 catches the [KeyError] of a missing
    row of shares, not that of a missing profile or of a missing default: for
    a sector without a profile, and for a country and a default country that
    both have no share of the sector, the assignment raises [KeyError]; the
    loop of lines 240-245 raises nothing but [KeyError], and it does so when
    the load table has a country and a configured sector has no profile. *)
Theorem X5_missing_profile_or_default (p : LoadParam) (sec_share : Frame)
    (df_load_countries profiles : TimeFrame string) :
  (∀ c s, s ∉ keys profiles →
     sector_profile p sec_share profiles c s = Raise KeyError)
  ∧ (∀ c s, (c ∉ index sec_share ∨ s ∉ columns sec_share) →
       (default_sec_shares p ∉ index sec_share ∨ s ∉ columns sec_share) →
       sector_profile p sec_share profiles c s = Raise KeyError)
  ∧ (∀ e, copy_profiles p sec_share df_load_countries profiles = Raise e →
       e = KeyError)
  ∧ (∀ c s, c ∈ keys df_load_countries → s ∈ sectors p → s ∉ keys profiles →
       copy_profiles p sec_share df_load_countries profiles = Raise KeyError).
Proof.
  assert (∀ c s, s ∉ keys profiles →
            sector_profile p sec_share profiles c s = Raise KeyError) as Hprof.
  { intros c s Hs. unfold sector_profile, tget. by rewrite decide_False. }
  assert (∀ e, copy_profiles p sec_share df_load_countries profiles = Raise e →
            e = KeyError) as Hexn.
  { intros e Hrun. unfold copy_profiles in Hrun.
    apply for_each_Raise in Hrun as (c & t & _ & Hrun).
    apply for_each_Raise in Hrun as (s & t' & _ & Hrun).
    destruct (sector_profile p sec_share profiles c s) as [v|e'] eqn:Hv; [done|].
    injection Hrun as <-. by eapply sector_profile_Raise. }
  split_and!; [done| |done|].
  - intros c s H1 H2. unfold sector_profile.
    destruct (decide (s ∈ keys profiles)) as [Hs|Hs].
    + rewrite tget_elem by done. simpl.
      assert (∀ r, (r ∉ index sec_share ∨ s ∉ columns sec_share) →
                loc sec_share r s = Raise KeyError) as Hloc.
      { intros r Hr. unfold loc. repeat case_decide; tauto. }
      by rewrite !Hloc.
    + unfold tget. by rewrite decide_False.
  - intros c s Hc Hs Hmiss.
    destruct (copy_profiles p sec_share df_load_countries profiles) as [df|e] eqn:Hrun.
    + apply copy_profiles_col in Hrun as (_ & _ & Hcol).
      destruct (Hcol c s Hc Hs) as (v & Hv & _). by rewrite Hprof in Hv.
    + f_equal. by apply Hexn.
Qed.

(** ** The three sectoral files (line 222) *)

(** The files of the sectoral stage, removed. *)
Definition clear_sectoral (fs : Files) : Files :=
  mkFiles (stats_countries fs) None None None (stats_country_parts fs)
    (load_regions fs).

(** X6: the sectoral stage is skipped only when all three of its files
    exist.  When one of them is missing, those that exist are not read: the
    run is the one that starts without any of the three, and it writes all
    three anew. *)
Theorem X6_partial_cache_is_recomputed (inp : Inputs) (fs : Files) :
  sectoral_files_exist fs = false →
  generate_load_timeseries inp fs
  = generate_load_timeseries inp (clear_sectoral fs)
  ∧ ∀ fs' log, generate_load_timeseries inp fs = Ok (fs', log) →
      Printed "df_sector" ∈ log ∧ Printed "load_sector" ∈ log
      ∧ Printed "load_landuse" ∈ log.
Proof.
  intros Hex. split.
  - unfold generate_load_timeseries. cbn [clear_sectoral stats_countries].
    destruct (for_each _ _ _) as [stat|e]; [|done]. rewrite !Ok_bind.
    unfold sectoral_files.
    assert (∀ t, sectoral_files_exist (save_stats_countries t fs) = false) as ->
      by (intros t; exact Hex).
    assert (∀ t, sectoral_files_exist (save_stats_countries t (clear_sectoral fs))
                 = false) as -> by done.
    destruct (sectoral_stage _ _ _ _ _ _ _) as [tables|e]; [|done].
    rewrite !Ok_bind. done.
  - intros fs' log Hrun.
    apply generate_Ok in Hrun
      as (stat & fs1 & printed & df & yearly & per_unit & regions
          & _ & Hfiles & _ & _ & _ & _ & _ & ->).
    apply sectoral_files_Ok in Hfiles as [(Hex' & _)|(_ & tables & _ & _ & ->)].
    { change (sectoral_files_exist fs = true) in Hex'. congruence. }
    rewrite !elem_of_app, !elem_of_cons. tauto.
Qed.

Lemma X6_partial_cache_is_recomputed_witness :
  let stale := mkFiles None (Some (tzeros 0 [])) None None None None in
  generate_load_timeseries Example.inp stale
  = generate_load_timeseries Example.inp (clear_sectoral stale).
Proof.
  cbv zeta.
  apply (X6_partial_cache_is_recomputed Example.inp
           (mkFiles None (Some (tzeros 0 [])) None None None None)).
  by_evaluation.
Defined.

(** ** What the loop over the country parts needs (lines 326-338) *)

Lemma chain_steps_Ok `{Countable K} {A} n (k : K) (l : list A)
    (f : A → Series → result Series) cur v :
  (∀ x cur v, x ∈ l → length cur = n → f x cur = Ok v → length v = n) →
  length cur = n → chain n k ((λ x, (k, f x)) <$> l) cur = Ok v →
  ∀ x, x ∈ l → ∃ cur' v', length cur' = n ∧ f x cur' = Ok v'.
Proof.
  revert cur. induction l as [|y l IH]; intros cur Hlen Hcur Hrun x Hx;
    [by apply elem_of_nil in Hx|].
  rewrite fmap_cons in Hrun. simpl in Hrun. rewrite decide_True in Hrun by done.
  inv_bind Hrun.
  assert (length a = n) as Ha' by (eapply Hlen; [left|done..]).
  apply elem_of_cons in Hx as [->|Hx]; [by eauto|].
  rewrite resize_same in Hrun by done.
  eapply (IH a); [|done..]. intros ??? ?. apply Hlen. by right.
Qed.

(** X7: the loop of lines 326-338 completes only if every country part that
    is kept finds what it reads: a column of the table of the country parts
    for the residents and for each land-use category, the row of its country
    in the table of the loads per unit for each of them, and there either as
    many hours as in the sectoral table or a single hour, which numpy
    broadcasts.  A kept country part whose country has no such row ends the
    run with an exception. *)
Theorem X7_kept_parts_need_their_rows (landuse_types : list string)
    (df_sectors per_unit : TimeFrame (string * string)) (table : Frame)
    (regions : TimeFrame string) :
  subregion_stage landuse_types df_sectors per_unit table = Ok regions →
  NoDup (index table) →
  ∀ cp, cp ∈ kept_parts df_sectors table → ∀ u, u ∈ RES :: landuse_types →
    u ∈ columns table ∧ (country_of cp, u) ∈ keys per_unit
    ∧ (hours per_unit = hours df_sectors ∨ hours per_unit = 1).
Proof.
  intros Hrun Hnd cp Hcp u Hu.
  destruct (subregion_stage_Ok _ _ _ _ _ Hrun)
    as (parts & lcp & Hparts & Hlcp & _ & Hidx & _ & _ & Hattr & _).
  pose proof Hparts as (_ & _ & Hcols & _)%add_attributes_Ok.
  rewrite country_part_load_steps in Hlcp.
  apply run_steps_col in Hlcp as (_ & _ & Hcol). simpl in Hcol.
  specialize (Hcol cp). rewrite col_tzeros in Hcol by by rewrite Hidx.
  rewrite chain_filter in Hcol.
  pose proof (filter_bind_own (index (stat_sub parts)) id
                (country_part_steps landuse_types per_unit parts) cp) as Hown.
  unfold id in Hown. rewrite Hown in Hcol; clear Hown.
  - unfold country_part_steps in Hcol.
    eapply chain_steps_Ok in Hcol as (cur & v & Hlen & Hv); [| |apply length_replicate|exact Hu].
    + apply add_units_Ok in Hv as ([_ Hc] & Hk & Hv).
      apply vadd_length in Hv as [_ Hh].
      rewrite length_scalar_mul, length_col, Hlen in Hh.
      rewrite Hcols in Hc.
      assert (cp ∈ index table) as Hin by by apply list_elem_of_filter in Hcp as [_ ?].
      destruct (Hattr cp Hin) as [_ Hco]. rewrite Hco in Hk. by split_and!.
    + intros x cur v _ Hlen (_ & _ & Hv)%add_units_Ok.
      apply vadd_length in Hv as [-> _]. done.
  - rewrite list_fmap_id, Hidx. by apply NoDup_filter.
  - by rewrite Hidx.
  - intros y st (unit & -> & _)%list_elem_of_fmap. done.
Qed.

Lemma X7_kept_parts_need_their_rows_witness :
  ∃ regions,
    subregion_stage ["1"] Zero_count.df_sectors Zero_count.per_unit
      (zonal_stats_country_parts Zero_count.inp) = Ok regions
    ∧ "1" ∈ columns (zonal_stats_country_parts Zero_count.inp)
    ∧ (country_of "N_AT", "1") ∈ keys Zero_count.per_unit
    ∧ (hours Zero_count.per_unit = hours Zero_count.df_sectors
       ∨ hours Zero_count.per_unit = 1).
Proof.
  destruct (subregion_stage ["1"] Zero_count.df_sectors Zero_count.per_unit
              (zonal_stats_country_parts Zero_count.inp)) as [regions|e] eqn:Hrun.
  - exists regions. split; [done|].
    assert (NoDup (index (zonal_stats_country_parts Zero_count.inp))) as Hnd
      by by_evaluation.
    pose proof (X7_kept_parts_need_their_rows ["1"] Zero_count.df_sectors
                  Zero_count.per_unit (zonal_stats_country_parts Zero_count.inp)
                  regions Hrun Hnd "N_AT") as HC.
    clear Hrun. exact (HC ltac:(by_evaluation) "1" ltac:(by_evaluation)).
  - run_completes Hrun.
Defined.

(** ** The yearly load (line 255) *)

(** An entry of the saved table of yearly loads. *)
Definition yearly (file : option (list (string * string * xnum)))
    (k : string * string) : xnum :=
  match file with
  | Some l => default NaN ((list_to_map l : gmap (string * string) xnum) !! k)
  | None => NaN
  end.

Lemma generate_yearly (inp : Inputs) (fs fs' : Files) (log : list event) :
  generate_load_timeseries inp fs = Ok (fs', log) →
  sectoral_files_exist fs = false →
  ∃ df_sectors,
    df_sector fs' = Some df_sectors
    ∧ load_sector fs' = Some (yearly_load df_sectors).
Proof.
  intros Hrun Hex.
  apply generate_Ok in Hrun
    as (stat & fs1 & printed & df & yl & per_unit & regions
        & Hstat & Hfiles & Hdf & Hyearly & Hunit & Hsub & -> & ->).
  apply sectoral_files_Ok in Hfiles as [(Hex' & _)|(_ & tables & Hstage & -> & _)].
  { change (sectoral_files_exist fs = true) in Hex'. congruence. }
  unfold sectoral_stage in Hstage. do 3 inv_bind Hstage. injection Hstage as <-.
  simpl in Hdf, Hyearly. simplify_eq. by eexists.
Qed.

Lemma yearly_load_lookup (df : TimeFrame (string * string)) (k : string * string) :
  k ∈ keys df → yearly (Some (yearly_load df)) k = nansum (col df k).
Proof.
  intros Hk. unfold yearly, yearly_load.
  change (list_to_map ((λ k, (k, nansum (col df k))) <$> keys df))
    with (tabulate (λ k, nansum (col df k)) (keys df)).
  by rewrite lookup_tabulate, decide_True.
Qed.

Lemma list_tabulated {A} `{Inhabited A} (l : list A) (f : nat → A) :
  (∀ h, h < length l → l !!! h = f h) → l = f <$> seq 0 (length l).
Proof.
  intros Hf. apply list_eq. intros i.
  rewrite list_lookup_fmap. destruct (decide (i < length l)) as [Hi|Hi].
  - rewrite lookup_seq_lt by done. simpl. rewrite <-Hf by done.
    by apply list_lookup_lookup_total_lt.
  - rewrite lookup_seq_ge by lia. simpl. apply lookup_ge_None. lia.
Qed.

(** X8: in a run that computes the sectoral tables, with distinct countries
    in the load table and distinct configured sectors, [RES] configured, no
    column [RES] in the assumptions table and every other configured sector
    a column of it: for a country of the load table for which at every hour
    the values of the first loop (profile times share) are finite and do not
    sum to zero and the load is finite, the yearly loads of the configured
    sectors that line 255 saves for the country add up to the sum of the
    hourly loads of the country. *)
Theorem X8_yearly_loads_sum_to_total (inp : Inputs) (fs fs' : Files)
    (log : list event) (c : string) :
  let p := load inp in
  let df_load_countries := load_ts_clean inp in
  generate_load_timeseries inp fs = Ok (fs', log) →
  sectoral_files_exist fs = false →
  NoDup (keys df_load_countries) → NoDup (sectors p) →
  RES ∈ sectors p → RES ∉ columns (assumptions_landuse inp) →
  (∀ s, s ∈ sectors p → s ≠ RES → s ∈ columns (assumptions_landuse inp)) →
  c ∈ keys df_load_countries →
  (∀ h, h < hours df_load_countries →
     (∀ s, s ∈ sectors p → is_fin (raw_sector_load inp c s h))
     ∧ xsum ((λ s, raw_sector_load inp c s h) <$> sectors p) ≠ zero
     ∧ is_fin (col df_load_countries c !!! h)) →
  xsum ((λ s, yearly (load_sector fs') (c, s)) <$> sectors p)
  = xsum (col df_load_countries c).
Proof.
  intros p df_load_countries. subst p df_load_countries.
  intros Hrun Hex Hcs Hss Hres Hnres Hcols Hc Hhours.
  pose proof (generate_yearly _ _ _ _ Hrun Hex) as (df' & Hdf' & ->).
  apply generate_computes in Hrun
    as (stat & raw & df & per_unit & regions & _ & Hraw & Hdf & _ & _ & Hfile & _);
    [|done].
  rewrite Hfile in Hdf'. injection Hdf' as <-.
  destruct (rescaled_sectors (assumptions_landuse inp) (load inp) Hres Hnres Hcols)
    as [Hnd Hsec].
  pose proof Hraw as (Hh1 & Hk1 & _)%copy_profiles_col.
  pose proof Hdf as (Hh2 & Hk2 & _)%rescale_col; [|done..].
  set (n := hours (load_ts_clean inp)) in *.
  set (q := λ s h, qval (col df (c, s) !!! h)).
  set (T := λ h, qval (col (load_ts_clean inp) c !!! h)).
  assert (∀ h, h < n →
            (∀ s, s ∈ sectors (load inp) → col df (c, s) !!! h = Fin (q s h))
            ∧ col (load_ts_clean inp) c !!! h = Fin (T h)
            ∧ qsum ((λ s, q s h) <$> sectors (load inp)) = T h) as Hhour.
  { intros h Hh. destruct (Hhours h Hh) as (Hfin & Hsum & Htot).
    unfold raw_sector_load in Hfin, Hsum. rewrite Hraw in Hfin, Hsum.
    destruct (rescale_conserves _ _ _ _ _ raw df c h Hraw Hdf Hcs Hnd Hsec Hc Hh
                Hfin Hsum Htot) as [Hval Hcons].
    assert (∀ s, s ∈ sectors (load inp) → col df (c, s) !!! h = Fin (q s h)) as Hq.
    { intros s Hs. unfold q. by rewrite (Hval s Hs). }
    split_and!; [done|by apply fin_qval|].
    rewrite (fmap_ext_in _ (λ s, Fin (q s h)) (sectors (load inp))) in Hcons by done.
    rewrite xsum_fin_map, (fin_qval _ Htot) in Hcons. by injection Hcons. }
  assert (∀ s, s ∈ sectors (load inp) →
            col df (c, s) = (λ h, Fin (q s h)) <$> seq 0 n) as Hcol.
  { intros s Hs.
    assert (length (col df (c, s)) = n) as Hlen by (rewrite length_col; congruence).
    rewrite <-Hlen. apply list_tabulated. rewrite Hlen.
    intros h Hh. by apply Hhour. }
  rewrite (fmap_ext_in _ (λ s, Fin (qsum (q s <$> seq 0 n))) (sectors (load inp))).
  2:{ intros s Hs. rewrite yearly_load_lookup.
      - rewrite Hcol by done.
        change ((λ h, Fin (q s h)) <$> seq 0 n) with ((Fin ∘ q s) <$> seq 0 n).
        by rewrite list_fmap_compose, nansum_fin.
      - rewrite Hk2, Hk1. by apply elem_of_list_prod. }
  rewrite xsum_fin_map.
  assert (col (load_ts_clean inp) c = (λ h, Fin (T h)) <$> seq 0 n) as ->.
  { assert (length (col (load_ts_clean inp) c) = n) as Hlen by apply length_col.
    rewrite <-Hlen. apply list_tabulated. rewrite Hlen.
    intros h Hh. by apply Hhour. }
  rewrite xsum_fin_map. f_equal.
  rewrite (qsum_swap (λ s h, q s h)).
  apply qsum_ext. intros h Hh%elem_of_seq. apply Hhour. lia.
Qed.

Lemma X8_yearly_loads_sum_to_total_witness :
  ∃ fs', (∃ log, generate_load_timeseries Example.inp no_files = Ok (fs', log))
    ∧ xsum ((λ s, yearly (load_sector fs') ("AT", s)) <$> sectors (load Example.inp))
      = xsum (col (load_ts_clean Example.inp) "AT").
Proof.
  destruct (generate_load_timeseries Example.inp no_files) as [[fs' log]|e] eqn:Hgen.
  - exists fs'. split; [by eexists|].
    pose proof (X8_yearly_loads_sum_to_total Example.inp no_files fs' log "AT" Hgen)
      as HC.
    clear Hgen. cbv zeta in HC. apply HC; clear HC; try by_evaluation.
    intros h Hh. change (h < 2) in Hh.
    destruct h as [|[|h]]; [by_evaluation..|lia].
  - run_completes Hgen.
Defined.

(** * The other generators of the file *)

(** The exceptions that the other functions of the file can raise, and
    the results of their fallible steps. *)
Inductive pyexn : Type := PyKeyError | PyIndexError | PyTypeError.

#[global] Instance pyexn_eq_dec : EqDecision pyexn.
Proof. solve_decision. Defined.

Inductive outcome (A : Type) : Type :=
  | Done (a : A)
  | Fail (e : pyexn).
Arguments Done {A} a.
Arguments Fail {A} e.

#[global] Instance outcome_eq_dec {A} `{EqDecision A} : EqDecision (outcome A).
Proof. solve_decision. Defined.

#[global] Instance outcome_bind : MBind outcome := λ A B k m,
  match m with Done a => k a | Fail e => Fail e end.
#[global] Instance outcome_ret : MRet outcome := λ A a, Done a.

(** A [for] loop over a list that threads an accumulator. *)
Fixpoint loop {A S} (l : list A) (body : A → S → outcome S) (s : S) : outcome S :=
  match l with
  | [] => Done s
  | x :: l' => s' ← body x s; loop l' body s'
  end.

(** [dict(zip(keys, values))]: the pairs are inserted in order, a later pair
    replaces an earlier one with the same key. *)
Definition dict_zip {A V} (key : A → string) (val : A → V) (rows : list A)
  : gmap string V :=
  foldl (λ d r, <[key r := val r]> d) ∅ rows.

(** [d[k]] *)
Definition getitem {V} (d : gmap string V) (k : string) : outcome V :=
  match d !! k with Some v => Done v | None => Fail PyKeyError end.

(** ** [generate_commodity] (lines 497-571) *)

Module Commodity.

(** A row of the sheet [Commodity] of the assumptions. *)
Record Assumption : Type := mkAssumption {
  name : string;
  price_mid : xnum;
  price_out_of_state : xnum;
  Type_evrys : string;
  Type_urbs : string;
  annual_demand : xnum;
  co_max : xnum;
  maxperstep : xnum
}.

(** The rows of the two outputs. *)
Record Evrys : Type := mkEvrys {
  e_Site : string; e_Co : string; e_price : xnum; e_annual : xnum;
  e_losses : xnum; e_type : string
}.

Record Urbs : Type := mkUrbs {
  u_Site : string; u_Commodity : string; u_Type : string; u_price : xnum;
  u_max : xnum; u_maxperhour : xnum
}.

Section generate.
(** The sheet, the column [Site] of the list of sites, and the table of the
    annual load: its index [sit] and the cells of each row. *)
Variable assumptions : list Assumption.
Variable sites : list string.
Variable load : list (string * list xnum).

(** Line 502: [list(assumptions["Commodity"].unique())] *)
Definition commodity : list string := unique (name <$> assumptions).

(** Lines 504-510 *)
Definition dict_price_instate := dict_zip name price_mid assumptions.
Definition dict_price_outofstate := dict_zip name price_out_of_state assumptions.
Definition dict_type_evrys := dict_zip name Type_evrys assumptions.
Definition dict_type_urbs := dict_zip name Type_urbs assumptions.
Definition dict_annual := dict_zip name annual_demand assumptions.
Definition dict_co_max := dict_zip name co_max assumptions.
Definition dict_maxperstep := dict_zip name maxperstep assumptions.

(** Line 528, [load.loc[s][0]]: with one row labelled [s] the first cell of
    the row ([IndexError] when the table has no column); with several such
    rows [load.loc[s]] is a table, which has no column [0]. *)
Definition first_cell (s : string) : outcome xnum :=
  match filter (λ r, r.1 = s) load with
  | [r] => match r.2 with v :: _ => Done v | [] => Fail PyIndexError end
  | _ => Fail PyKeyError
  end.

(** Lines 526-532 *)
Definition annual_of (s c : string) : outcome xnum :=
  if decide (c = "Elec") then
    if decide (s ∈ load.*1) then first_cell s else Done zero
  else getitem dict_annual c.

(** Lines 533-563: the two rows that are appended for a site and a
    commodity.  (Site names are taken to be ASCII, so that the length of the
    string is Python's [len].) *)
Definition rows_of (s c : string) : outcome (Evrys * Urbs) :=
  annual ← annual_of s c;
  if decide (2 ≤ String.length s) then
    price ← getitem dict_price_instate c;
    ty ← getitem dict_type_evrys c;
    tu ← getitem dict_type_urbs c;
    mx ← getitem dict_co_max c;
    mps ← getitem dict_maxperstep c;
    Done (mkEvrys s c price annual zero ty, mkUrbs s c tu price mx mps)
  else
    price ← getitem dict_price_outofstate c;
    ty ← getitem dict_type_evrys c;
    tu ← getitem dict_type_urbs c;
    mx ← getitem dict_co_max c;
    mps ← getitem dict_maxperstep c;
    Done (mkEvrys s c price annual zero ty, mkUrbs s c tu price mx mps).

(** Lines 520-563: the tables [output_evrys] and [output_urbs]. *)
Definition generate_commodity : outcome (list Evrys * list Urbs) :=
  loop sites (λ s out,
    loop commodity (λ c out,
      '(e, u) ← rows_of s c;
      Done (out.1 ++ [e], out.2 ++ [u])) out)
  ([], []).

End generate.

End Commodity.

(** ** Facts about the new results and loops *)

Lemma outcome_bind_Done {A B} (m : outcome A) (k : A → outcome B) (b : B) :
  (x ← m; k x) = Done b ↔ ∃ a, m = Done a ∧ k a = Done b.
Proof.
  destruct m as [a|e]; simpl; split.
  - intros. by exists a.
  - by intros (a' & [= <-] & ?).
  - done.
  - by intros (? & ? & _).
Qed.

Lemma loop_app {A S} (l1 l2 : list A) (body : A → S → outcome S) (s : S) :
  loop (l1 ++ l2) body s = (s' ← loop l1 body s; loop l2 body s').
Proof.
  revert s. induction l1 as [|x l1 IH]; intros s; simpl; [done|].
  destruct (body x s) as [s'|e]; simpl; [apply IH|done].
Qed.

Lemma loop_fmap {A B S} (g : A → B) (l : list A) (body : B → S → outcome S) (s : S) :
  loop (g <$> l) body s = loop l (λ x, body (g x)) s.
Proof.
  revert s. induction l as [|x l IH]; intros s; simpl; [done|].
  destruct (body (g x) s); simpl; [apply IH|done].
Qed.

(** Two nested loops are one loop over the pairs, the outer variable
    changing slowest. *)
Lemma loop_prod {A B S} (l : list A) (k : list B) (body : A → B → S → outcome S)
    (s : S) :
  loop l (λ x s, loop k (body x) s) s
  = loop (list_prod l k) (λ p, body p.1 p.2) s.
Proof.
  revert s. induction l as [|x l IH]; intros s; simpl; [done|].
  rewrite loop_app.
  change (map (λ y, (x, y)) k) with (pair x <$> k). rewrite loop_fmap. simpl.
  destruct (loop k (body x) s); simpl; [apply IH|done].
Qed.

(** A loop that appends one pair of rows per element. *)
Lemma loop_rows_Done {A E U} (f : A → outcome (E * U)) (l : list A)
    (out out' : list E * list U) :
  loop l (λ x out, '(e, u) ← f x; Done (out.1 ++ [e], out.2 ++ [u])) out = Done out'
  ↔ ∃ rows, Forall2 (λ x r, f x = Done r) l rows
            ∧ out' = (out.1 ++ rows.*1, out.2 ++ rows.*2).
Proof.
  revert out. induction l as [|x l IH]; intros [ev ur]; simpl.
  - split.
    + intros [= <-]. exists []. split; [constructor|]. by rewrite !app_nil_r.
    + intros (rows & ->%Forall2_nil_inv_l & ->). simpl. by rewrite !app_nil_r.
  - rewrite outcome_bind_Done. split.
    + intros (out1 & Hx & Hrest). apply outcome_bind_Done in Hx as ([e u] & Hf & [= <-]).
      apply IH in Hrest as (rows & Hrows & ->). exists ((e, u) :: rows).
      split; [by constructor|]. simpl. by rewrite <-!app_assoc.
    + intros (rows & Hrows & ->).
      apply Forall2_cons_inv_l in Hrows as ([e u] & rows' & Hf & Hrows & ->).
      exists (ev ++ [e], ur ++ [u]). rewrite Hf. split; [done|].
      apply IH. exists rows'. split; [done|]. simpl. by rewrite <-!app_assoc.
Qed.

Lemma loop_rows_Fail {A E U} (f : A → outcome (E * U)) (pre post : list A) (x : A)
    (err : pyexn) (out : list E * list U) :
  (∀ y, y ∈ pre → ∃ r, f y = Done r) → f x = Fail err →
  loop (pre ++ x :: post)
       (λ x out, '(e, u) ← f x; Done (out.1 ++ [e], out.2 ++ [u])) out = Fail err.
Proof.
  revert out. induction pre as [|y pre IH]; intros out Hpre Hx; simpl.
  - by rewrite Hx.
  - destruct (Hpre y) as [[e u] ->]; [left|]. simpl. apply IH; [|done].
    intros z Hz. apply Hpre. by right.
Qed.

(** The dictionaries of lines 504-510: the value under a key is that of the
    last row with the key. *)
Lemma dict_zip_lookup {A V} (key : A → string) (val : A → V) (rows : list A)
    (k : string) :
  dict_zip key val rows !! k = val <$> last (filter (λ r, key r = k) rows).
Proof.
  unfold dict_zip. induction rows as [|r rows IH] using rev_ind; [done|].
  rewrite foldl_app, filter_app. simpl. rewrite filter_cons, filter_nil.
  case_decide as Hk.
  - rewrite last_snoc. simpl. by rewrite <-Hk, lookup_insert_eq.
  - rewrite app_nil_r, lookup_insert_ne by done. apply IH.
Qed.

Lemma last_filter_is_Some {A} (P : A → Prop) `{∀ x, Decision (P x)} (l : list A) (x : A) :
  x ∈ l → P x → is_Some (last (filter P l)).
Proof.
  intros Hx HP. assert (x ∈ filter P l) as Hin by by apply list_elem_of_filter.
  destruct (filter P l) as [|y t] using rev_ind; [by apply not_elem_of_nil in Hin|].
  rewrite last_snoc. by eexists.
Qed.

Lemma getitem_dict_zip {A V} (key : A → string) (val : A → V) (rows : list A)
    (k : string) (v : V) :
  getitem (dict_zip key val rows) k = Done v
  ↔ ∃ a, last (filter (λ r, key r = k) rows) = Some a ∧ v = val a.
Proof.
  unfold getitem. rewrite dict_zip_lookup.
  destruct (last _) as [a|]; simpl; split.
  - intros [= <-]. by exists a.
  - by intros (? & [= <-] & ->).
  - done.
  - by intros (? & ? & _).
Qed.

(** The rows of a table with distinct labels that carry a given label. *)
Lemma filter_label_NoDup {V} (l : list (string * V)) (s : string) (v : V) :
  NoDup l.*1 → (s, v) ∈ l → filter (λ r, r.1 = s) l = [(s, v)].
Proof.
  induction l as [|[s' v'] l IH]; intros Hnd Hin; [by apply not_elem_of_nil in Hin|].
  apply NoDup_cons in Hnd as [Hs' Hnd]. rewrite filter_cons. simpl.
  apply elem_of_cons in Hin as [[= <- <-]|Hin].
  - rewrite decide_True by done. f_equal.
    apply filter_none. intros [s'' v''] Hr. simpl. intros ->.
    apply Hs', list_elem_of_fmap. by exists (s, v'').
  - rewrite decide_False; [by apply IH|]. intros ->.
    apply Hs', list_elem_of_fmap. by exists (s, v).
Qed.

(** ** [generate_commodity] *)

Section commodity_facts.
Import Commodity.
Variable assumptions : list Assumption.
Variable sites : list string.
Variable load : list (string * list xnum).

(** The row of the sheet that the dictionaries hold for a commodity. *)
Definition held (c : string) : option Assumption :=
  last (filter (λ r, name r = c) assumptions).

Lemma held_is_Some (c : string) :
  c ∈ commodity assumptions → is_Some (held c).
Proof.
  unfold commodity. rewrite elem_of_unique.
  intros (a & -> & Ha)%list_elem_of_fmap. unfold held.
  by apply (last_filter_is_Some _ _ a).
Qed.

Lemma rows_of_Done (s c : string) (e : Evrys) (u : Urbs) :
  rows_of assumptions load s c = Done (e, u) ↔
  ∃ a ann, held c = Some a ∧ annual_of assumptions load s c = Done ann
    ∧ let price := if decide (2 ≤ String.length s) then price_mid a
                   else price_out_of_state a in
      e = mkEvrys s c price ann zero (Type_evrys a)
      ∧ u = mkUrbs s c (Type_urbs a) price (co_max a) (maxperstep a).
Proof.
  unfold rows_of. rewrite outcome_bind_Done. split.
  - intros (ann & Hann & Hrow). case_decide.
    all: repeat (apply outcome_bind_Done in Hrow as (? & (? & ? & ->)%getitem_dict_zip & Hrow)).
    all: injection Hrow as <- <-; simplify_eq.
    all: eexists _, ann; split; [done|]; split; [done|].
    all: cbn zeta; by rewrite ?decide_True, ?decide_False by done.
  - intros (a & ann & Ha & Hann & He & Hu). exists ann. split; [done|].
    unfold dict_price_instate, dict_price_outofstate, dict_type_evrys,
      dict_type_urbs, dict_co_max, dict_maxperstep.
    assert (∀ V (val : Assumption → V),
              getitem (dict_zip name val assumptions) c = Done (val a)) as Hget.
    { intros V val. apply getitem_dict_zip. by exists a. }
    rewrite !Hget. simpl. rewrite He, Hu. by case_decide.
Qed.

Lemma generate_commodity_Done (ev : list Evrys) (ur : list Urbs) :
  generate_commodity assumptions sites load = Done (ev, ur) ↔
  ∃ rows, Forall2 (λ p r, rows_of assumptions load p.1 p.2 = Done r)
            (list_prod sites (commodity assumptions)) rows
          ∧ ev = rows.*1 ∧ ur = rows.*2.
Proof.
  unfold generate_commodity.
  rewrite (loop_prod sites (commodity assumptions)
             (λ s c out, '(e, u) ← rows_of assumptions load s c;
                         Done (out.1 ++ [e], out.2 ++ [u]))).
  rewrite (loop_rows_Done (λ p, rows_of assumptions load p.1 p.2)). simpl.
  split; intros (rows & ? & Heq); exists rows; (split; [done|]).
  - by injection Heq.
  - by destruct Heq as [-> ->].
Qed.

(** The row of a position of the output. *)
Lemma generate_commodity_row (ev : list Evrys) (ur : list Urbs) (i : nat) (e : Evrys) :
  generate_commodity assumptions sites load = Done (ev, ur) →
  ev !! i = Some e →
  ∃ s c u, list_prod sites (commodity assumptions) !! i = Some (s, c)
    ∧ ur !! i = Some u ∧ rows_of assumptions load s c = Done (e, u).
Proof.
  intros (rows & Hrows & -> & ->)%generate_commodity_Done Hi.
  rewrite list_lookup_fmap in Hi.
  destruct (rows !! i) as [[e' u]|] eqn:Hr; [|done]. injection Hi as ->.
  destruct (Forall2_lookup_r _ _ _ _ _ Hrows Hr) as ([s c] & Hp & Hrow).
  exists s, c, u. split; [done|]. split; [|done].
  by rewrite list_lookup_fmap, Hr.
Qed.

Lemma first_cell_Done (s : string) (v : xnum) :
  first_cell load s = Done v ↔ ∃ vs, filter (λ r, r.1 = s) load = [(s, v :: vs)].
Proof.
  unfold first_cell.
  destruct (filter _ load) as [|[s' cells] [|??]] eqn:Hf; split;
    try done; try by intros [? ?].
  - assert ((s', cells) ∈ filter (λ r, r.1 = s) load)
      as [Hs _]%list_elem_of_filter by (rewrite Hf; left).
    simpl in *. subst s'. destruct cells as [|v' vs]; [done|].
    intros [= <-]. by exists vs.
  - by intros [vs [= -> ->]].
Qed.

End commodity_facts.

Lemma loop_rows_raises {A E U} (f : A → outcome (E * U)) (l : list A) (x : A)
    (err : pyexn) (out : list E * list U) :
  (∀ y e, y ∈ l → f y = Fail e → e = err) →
  x ∈ l → (∀ r, f x ≠ Done r) →
  loop l (λ x out, '(e, u) ← f x; Done (out.1 ++ [e], out.2 ++ [u])) out = Fail err.
Proof.
  revert out. induction l as [|y l IH]; intros out Honly Hx Hfail;
    [by apply not_elem_of_nil in Hx|].
  simpl. destruct (f y) as [[e u]|e] eqn:Hy; simpl.
  - apply IH; [|by apply elem_of_cons in Hx as [->|?]; [destruct (Hfail (e, u))|]|done].
    intros z e' Hz. apply Honly. by right.
  - f_equal. apply (Honly y); [left|done].
Qed.

Lemma Forall2_fmap_eq {A B} (g : B → A) (l : list A) (rows : list B) :
  Forall2 (λ p r, g r = p) l rows → g <$> rows = l.
Proof.
  induction 1 as [|p r l' rows' Hp _ IH]; [done|]. rewrite fmap_cons. by f_equal.
Qed.

Module Commodity_example.
Import Commodity.

Definition assumptions : list Assumption :=
  [ mkAssumption "Elec" (int 0) (int 0) "Demand" "Demand" (int 0) PInf PInf;
    mkAssumption "Coal" (int 7) (int 9) "Stock" "Stock" (int 50) PInf PInf;
    mkAssumption "Solar" (int 0) (int 0) "SupIm" "SupIm" (int 0) PInf PInf;
    mkAssumption "Coal" (int 8) (int 11) "Stock" "Stock" (int 60) (int 1000) (int 10) ].

Definition sites : list string := ["AB"; "X"; "CD"].

Definition load : list (string * list xnum) :=
  [("AB", [int 120; int 3]); ("ZZ", [int 40; int 1])].

(** A table of the annual load with a label that occurs twice. *)
Definition load_twice : list (string * list xnum) :=
  [("CD", [int 120; int 3]); ("ZZ", [int 40; int 1]); ("CD", [int 5; int 2])].

End Commodity_example.

Section commodity_theorems.
Import Commodity.
Variable assumptions : list Assumption.
Variable sites : list string.
Variable load : list (string * list xnum).

(** X9: when the labels of the table of the annual load are distinct and the
    table has a column, [generate_commodity] raises no exception, whatever the
    sheet of the assumptions holds: no lookup in the dictionaries can miss,
    since the loop runs over the distinct names of the same column.  Both
    outputs have one row per site and commodity, the sites in their order and,
    for each site, the commodities in the order of their first row. *)
Theorem X9_commodity_tables_cover_sites_and_commodities :
  NoDup load.*1 → Forall (λ r, r.2 ≠ []) load →
  ∃ ev ur, generate_commodity assumptions sites load = Done (ev, ur)
    ∧ (λ e, (e_Site e, e_Co e)) <$> ev = list_prod sites (commodity assumptions)
    ∧ (λ u, (u_Site u, u_Commodity u)) <$> ur
      = list_prod sites (commodity assumptions).
Proof.
  intros Hnd Hcells.
  assert (∀ p, p ∈ list_prod sites (commodity assumptions) →
            ∃ r, rows_of assumptions load p.1 p.2 = Done r
                 ∧ (e_Site r.1, e_Co r.1) = p ∧ (u_Site r.2, u_Commodity r.2) = p)
    as Hrow.
  { intros [s c] [_ Hc]%elem_of_list_prod. simpl.
    destruct (held_is_Some assumptions c Hc) as [a Ha].
    assert (∃ ann, annual_of assumptions load s c = Done ann) as [ann Hann].
    { unfold annual_of. case_decide; [case_decide as Hs|].
      - apply list_elem_of_fmap in Hs as ([s' cells] & -> & Hin). simpl.
        rewrite Forall_forall in Hcells. pose proof (Hcells _ Hin) as Hne.
        destruct cells as [|v vs]; [done|]. exists v.
        apply first_cell_Done. exists vs. by apply filter_label_NoDup.
      - by eexists.
      - exists (annual_demand a). apply getitem_dict_zip. by exists a. }
    set (price := if decide (2 ≤ String.length s) then price_mid a
                  else price_out_of_state a).
    exists (mkEvrys s c price ann zero (Type_evrys a),
            mkUrbs s c (Type_urbs a) price (co_max a) (maxperstep a)).
    split; [|done]. apply rows_of_Done. by exists a, ann. }
  assert (∃ rows, Forall2 (λ p r, rows_of assumptions load p.1 p.2 = Done r
                                  ∧ (e_Site r.1, e_Co r.1) = p
                                  ∧ (u_Site r.2, u_Commodity r.2) = p)
                    (list_prod sites (commodity assumptions)) rows)
    as [rows Hrows].
  { induction (list_prod sites (commodity assumptions)) as [|p l IH].
    - exists []. constructor.
    - destruct (Hrow p) as [r Hr]; [left|].
      destruct IH as [rows Hrows]; [intros; apply Hrow; by right|].
      exists (r :: rows). by constructor. }
  exists rows.*1, rows.*2. split_and!.
  - apply generate_commodity_Done. exists rows. split; [|done].
    eapply Forall2_impl; [exact Hrows|]. by intros ?? [? _].
  - rewrite <-list_fmap_compose. apply Forall2_fmap_eq.
    eapply Forall2_impl; [exact Hrows|]. by intros ?? (_ & ? & _).
  - rewrite <-list_fmap_compose. apply Forall2_fmap_eq.
    eapply Forall2_impl; [exact Hrows|]. by intros ?? (_ & _ & ?).
Qed.

(** X10: a label that occurs twice in the table of the annual load makes
    [generate_commodity] raise [KeyError] as soon as the label is a site and
    Elec is a commodity: [load.loc[s]] is then a table, in which [[0]] looks
    for a column. *)
Theorem X10_repeated_load_label_raises (s : string) :
  Forall (λ r, r.2 ≠ []) load →
  s ∈ sites → "Elec" ∈ name <$> assumptions →
  1 < length (filter (λ r, r.1 = s) load) →
  generate_commodity assumptions sites load = Fail PyKeyError.
Proof.
  intros Hcells Hs Helec Htwice. unfold generate_commodity.
  rewrite (loop_prod sites (commodity assumptions)
             (λ s c out, '(e, u) ← rows_of assumptions load s c;
                         Done (out.1 ++ [e], out.2 ++ [u]))).
  apply (loop_rows_raises (λ p, rows_of assumptions load p.1 p.2) _ (s, "Elec")).
  - intros [s' c] e [_ Hc]%elem_of_list_prod. simpl.
    destruct (held_is_Some assumptions c Hc) as [a Ha].
    unfold rows_of.
    assert (∀ V (val : Assumption → V),
              getitem (dict_zip name val assumptions) c = Done (val a)) as Hget.
    { intros V val. apply getitem_dict_zip. by exists a. }
    unfold dict_price_instate, dict_price_outofstate, dict_type_evrys,
      dict_type_urbs, dict_co_max, dict_maxperstep.
    rewrite !Hget.
    destruct (annual_of assumptions load s' c) as [ann|e'] eqn:Hann; simpl.
    { by case_decide. }
    intros [= <-]. unfold annual_of, dict_annual in Hann. rewrite Hget in Hann.
    case_decide; [|done]. case_decide; [|done]. unfold first_cell in Hann.
    clear Htwice.
    destruct (filter _ load) as [|r [|??]] eqn:Hf; [congruence| |congruence].
    assert (r ∈ load) as Hr.
    { assert (r ∈ filter (λ r, r.1 = s') load) as [_ ?]%list_elem_of_filter
        by (rewrite Hf; left). done. }
    rewrite Forall_forall in Hcells. apply Hcells in Hr.
    destruct (r.2); [done|congruence].
  - apply elem_of_list_prod. split; [done|]. unfold commodity.
    by apply elem_of_unique.
  - intros [e u] (a & ann & _ & Hann & _)%rows_of_Done.
    unfold annual_of in Hann. rewrite decide_True in Hann by done.
    unfold first_cell in Hann.
    destruct (filter _ load) as [|r [|??]] eqn:Hf; simpl in Htwice; [lia|lia|].
    simpl in Hann. rewrite decide_True in Hann; [done|].
    assert (r ∈ filter (λ r, r.1 = s) load) as [<- ?]%list_elem_of_filter
      by (rewrite Hf; left).
    by apply (list_elem_of_fmap_2 fst).
Qed.

(** X11: in the output for evrys the losses are always 0; the annual demand of
    Elec is the first cell of the site's row of the table of the annual load,
    and 0 for a site without a row; the annual demand of any other commodity
    is the one of the last row of the sheet with that name. *)
Theorem X11_annual_demand (ev : list Evrys) (ur : list Urbs) (i : nat) (e : Evrys) :
  generate_commodity assumptions sites load = Done (ev, ur) →
  ev !! i = Some e →
  e_losses e = zero
  ∧ (e_Co e = "Elec" → e_Site e ∈ load.*1 →
       ∃ vs, filter (λ r, r.1 = e_Site e) load = [(e_Site e, e_annual e :: vs)])
  ∧ (e_Co e = "Elec" → e_Site e ∉ load.*1 → e_annual e = zero)
  ∧ (e_Co e ≠ "Elec" →
       ∃ a, last (filter (λ r, name r = e_Co e) assumptions) = Some a
            ∧ e_annual e = annual_demand a).
Proof.
  intros Hgen Hi.
  destruct (generate_commodity_row _ _ _ _ _ _ _ Hgen Hi)
    as (s & c & u & _ & _ & (a & ann & Ha & Hann & -> & _)%rows_of_Done).
  simpl. unfold annual_of in Hann. split_and!; [done|..].
  - intros Hc Hs. rewrite decide_True in Hann by done.
    rewrite decide_True in Hann by done. by apply first_cell_Done.
  - intros Hc Hs. rewrite decide_True in Hann by done.
    rewrite decide_False in Hann by done. by injection Hann.
  - intros Hc. rewrite decide_False in Hann by done.
    by apply getitem_dict_zip in Hann.
Qed.

(** X12: the two outputs describe the same site and commodity at the same
    position and carry the same price: the mid price for a site whose name
    has at least two characters and the out-of-state price for the others.
    Price, types and limits are those of the last row of the sheet with the
    name of the commodity, so a later row replaces an earlier one. *)
Theorem X12_price_by_length_of_site_name (ev : list Evrys) (ur : list Urbs)
    (i : nat) (e : Evrys) :
  generate_commodity assumptions sites load = Done (ev, ur) →
  ev !! i = Some e →
  ∃ a u, last (filter (λ r, name r = e_Co e) assumptions) = Some a
    ∧ ur !! i = Some u
    ∧ u_Site u = e_Site e ∧ u_Commodity u = e_Co e
    ∧ u_price u = e_price e
    ∧ e_price e = (if decide (2 ≤ String.length (e_Site e)) then price_mid a
                   else price_out_of_state a)
    ∧ e_type e = Type_evrys a ∧ u_Type u = Type_urbs a
    ∧ u_max u = co_max a ∧ u_maxperhour u = maxperstep a.
Proof.
  intros Hgen Hi.
  destruct (generate_commodity_row _ _ _ _ _ _ _ Hgen Hi)
    as (s & c & u & _ & Hu & (a & ann & Ha & _ & -> & ->)%rows_of_Done).
  by exists a, (mkUrbs s c (Type_urbs a)
               (if decide (2 ≤ String.length s) then price_mid a
                else price_out_of_state a) (co_max a) (maxperstep a)).
Qed.

End commodity_theorems.

Lemma X9_commodity_tables_cover_sites_and_commodities_witness :
  ∃ ev ur,
    Commodity.generate_commodity Commodity_example.assumptions
      Commodity_example.sites Commodity_example.load = Done (ev, ur)
    ∧ (λ e, (Commodity.e_Site e, Commodity.e_Co e)) <$> ev
      = list_prod Commodity_example.sites
          (Commodity.commodity Commodity_example.assumptions)
    ∧ (λ u, (Commodity.u_Site u, Commodity.u_Commodity u)) <$> ur
      = list_prod Commodity_example.sites
          (Commodity.commodity Commodity_example.assumptions).
Proof.
  apply (X9_commodity_tables_cover_sites_and_commodities
           Commodity_example.assumptions Commodity_example.sites
           Commodity_example.load); by_evaluation.
Defined.

Lemma X10_repeated_load_label_raises_witness :
  Commodity.generate_commodity Commodity_example.assumptions
    Commodity_example.sites Commodity_example.load_twice = Fail PyKeyError.
Proof.
  apply (X10_repeated_load_label_raises Commodity_example.assumptions
           Commodity_example.sites Commodity_example.load_twice "CD");
    by_evaluation.
Defined.

Lemma X11_annual_demand_witness :
  ∃ ev ur e,
    Commodity.generate_commodity Commodity_example.assumptions
      Commodity_example.sites Commodity_example.load = Done (ev, ur)
    ∧ ev !! 1 = Some e
    ∧ Commodity.e_losses e = zero
    ∧ (Commodity.e_Co e = "Elec" →
       Commodity.e_Site e ∈ Commodity_example.load.*1 →
       ∃ vs, filter (λ r, r.1 = Commodity.e_Site e) Commodity_example.load
             = [(Commodity.e_Site e, Commodity.e_annual e :: vs)])
    ∧ (Commodity.e_Co e = "Elec" →
       Commodity.e_Site e ∉ Commodity_example.load.*1 →
       Commodity.e_annual e = zero)
    ∧ (Commodity.e_Co e ≠ "Elec" →
       ∃ a, last (filter (λ r, Commodity.name r = Commodity.e_Co e)
                    Commodity_example.assumptions) = Some a
            ∧ Commodity.e_annual e = Commodity.annual_demand a).
Proof.
  destruct (Commodity.generate_commodity Commodity_example.assumptions
              Commodity_example.sites Commodity_example.load)
    as [[ev ur]|err] eqn:Hrun.
  - destruct (ev !! 1) as [e|] eqn:He.
    + exists ev, ur, e. split; [reflexivity|]. split; [exact He|].
      exact (X11_annual_demand _ _ _ _ _ _ _ Hrun He).
    + exfalso. revert He. revert Hrun. vm_compute. intros [= <- _]. discriminate.
  - exfalso. revert Hrun. vm_compute. discriminate.
Defined.

Lemma X12_price_by_length_of_site_name_witness :
  ∃ ev ur e,
    Commodity.generate_commodity Commodity_example.assumptions
      Commodity_example.sites Commodity_example.load = Done (ev, ur)
    ∧ ev !! 4 = Some e
    ∧ ∃ a u, last (filter (λ r, Commodity.name r = Commodity.e_Co e)
                     Commodity_example.assumptions) = Some a
      ∧ ur !! 4 = Some u
      ∧ Commodity.u_Site u = Commodity.e_Site e
      ∧ Commodity.u_Commodity u = Commodity.e_Co e
      ∧ Commodity.u_price u = Commodity.e_price e
      ∧ Commodity.e_price e
        = (if decide (2 ≤ String.length (Commodity.e_Site e))
           then Commodity.price_mid a else Commodity.price_out_of_state a)
      ∧ Commodity.e_type e = Commodity.Type_evrys a
      ∧ Commodity.u_Type u = Commodity.Type_urbs a
      ∧ Commodity.u_max u = Commodity.co_max a
      ∧ Commodity.u_maxperhour u = Commodity.maxperstep a.
Proof.
  destruct (Commodity.generate_commodity Commodity_example.assumptions
              Commodity_example.sites Commodity_example.load)
    as [[ev ur]|err] eqn:Hrun.
  - destruct (ev !! 4) as [e|] eqn:He.
    + exists ev, ur, e. split; [reflexivity|]. split; [exact He|].
      exact (X12_price_by_length_of_site_name _ _ _ _ _ _ _ Hrun He).
    + exfalso. revert He. revert Hrun. vm_compute. intros [= <- _]. discriminate.
  - exfalso. revert Hrun. vm_compute. discriminate.
Defined.
